(** * maggma: bounded asynchronous mapper, grouper and projection builder

    A shallow embedding of
      - [maggma/cli/multiprocessing.py]  ([AsyncBackPressuredMap], [grouper]),
      - [maggma/builders/projection_builder.py]  ([Projection_Builder]),
    together with the properties of the pipeline that are established on it. *)

From stdpp Require Import gmap strings list fin_maps.

Set Default Proof Using "Type".

(** ** asyncio.BoundedSemaphore *)

Module Semaphore.

(** [_value] is the number of free units, [_bound_value] the initial one. *)
Record BoundedSemaphore : Type := mk {
  value : nat;
  bound_value : nat
}.

Definition create (n : nat) : BoundedSemaphore :=
  {| value := n; bound_value := n |}.

(** [await sem.acquire()]: [None] stands for the caller staying suspended
    (no unit is free), otherwise one unit is taken. *)
Definition acquire (s : BoundedSemaphore) : option BoundedSemaphore :=
  match value s with
  | 0 => None
  | S v => Some {| value := v; bound_value := bound_value s |}
  end.

(** [sem.release()]: a bounded semaphore raises [ValueError] when it is
    released more often than it was acquired ([None] here). *)
Definition release (s : BoundedSemaphore) : option BoundedSemaphore :=
  if decide (bound_value s ≤ value s) then None
  else Some {| value := S (value s); bound_value := bound_value s |}.

End Semaphore.

(** ** AsyncBackPressuredMap

    asyncio runs coroutines cooperatively on one thread, so a run of the mapper
    is an interleaving of atomic steps: the consumer asking for the next
    handle ([__anext__]), a returned coroutine being started (which is when
    [run_in_executor] hands the item to the pool), and a pool future
    resolving (which resumes the coroutine after [await future]). *)

Module Mapper.
Import Semaphore.

Section mapper.
Context {Item Result Exn : Type}.

(** [builder.process_item], run in the executor: a result or a raised
    exception. *)
Variable process : Item → Result + Exn.

(** Life of one [process_and_release()] coroutine. *)
Inductive phase : Type :=
  | Created                 (* returned by [__anext__], not started *)
  | Submitted               (* [run_in_executor] called, awaiting the future *)
  | Returned (r : Result)   (* released the unit and returned the future *)
  | Raised (e : Exn)        (* [await future] raised: the coroutine raised *)
  | ReleaseFailed.          (* [release()] raised ValueError *)

Record handle : Type := mk_handle {
  h_item : Item;
  h_phase : phase
}.

Record state : Type := mk_state {
  iterator : list Item;              (* self.iterator: what is left of it *)
  back_pressure : BoundedSemaphore;  (* self.back_pressure *)
  handles : list handle;             (* coroutines handed out, oldest first *)
  stops : nat                        (* StopAsyncIteration raised so far *)
}.

(** [AsyncBackPressuredMap(iterator, builder, executor)] with
    [builder.chunk_size = n]. *)
Definition init (n : nat) (src : list Item) : state :=
  {| iterator := src; back_pressure := create n; handles := []; stops := 0 |}.

Inductive event : Type :=
  | Anext            (* one call of [__anext__] running to its return *)
  | Start (i : nat)  (* coroutine [i] is scheduled up to [await future] *)
  | Finish (i : nat) (* the future of coroutine [i] resolves *).

(** [__anext__]: acquire first, then pull the next source item. On
    [StopIteration] the unit just acquired stays taken. *)
Definition anext (s : state) : option state :=
  sem ← acquire (back_pressure s);
  match iterator s with
  | [] =>
      Some {| iterator := []; back_pressure := sem;
              handles := handles s; stops := S (stops s) |}
  | item :: rest =>
      Some {| iterator := rest; back_pressure := sem;
              handles := handles s ++ [mk_handle item Created];
              stops := stops s |}
  end.

Definition set_phase (i : nat) (p : phase) (s : state) : state :=
  {| iterator := iterator s; back_pressure := back_pressure s;
     handles := alter (λ h, mk_handle (h_item h) p) i (handles s);
     stops := stops s |}.

(** First half of [process_and_release]: [loop.run_in_executor(...)]. *)
Definition start (i : nat) (s : state) : option state :=
  h ← handles s !! i;
  match h_phase h with
  | Created => Some (set_phase i Submitted s)
  | _ => None
  end.

(** Second half of [process_and_release]: [await future] either raises
    what the transform raised, or is followed by
    [self.back_pressure.release()] and [return future]. *)
Definition finish (i : nat) (s : state) : option state :=
  h ← handles s !! i;
  match h_phase h with
  | Submitted =>
      match process (h_item h) with
      | inr e => Some (set_phase i (Raised e) s)
      | inl r =>
          match release (back_pressure s) with
          | None => Some (set_phase i ReleaseFailed s)
          | Some sem =>
              Some {| iterator := iterator s; back_pressure := sem;
                      handles :=
                        alter (λ h, mk_handle (h_item h) (Returned r)) i
                              (handles s);
                      stops := stops s |}
          end
      end
  | _ => None
  end.

Definition step (ev : event) (s : state) : option state :=
  match ev with
  | Anext => anext s
  | Start i => start i s
  | Finish i => finish i s
  end.

Fixpoint run (tr : list event) (s : state) : option state :=
  match tr with
  | [] => Some s
  | ev :: tr' => s' ← step ev s; run tr' s'
  end.

(** What awaiting handle [i] gives its awaiter, once it is done. *)
Definition awaited (s : state) (i : nat) : option (Result + Exn) :=
  h ← handles s !! i;
  match h_phase h with
  | Returned r => Some (inl r)
  | Raised e => Some (inr e)
  | _ => None
  end.

Definition is_created (h : handle) : bool :=
  match h_phase h with Created => true | _ => false end.
Definition is_submitted (h : handle) : bool :=
  match h_phase h with Submitted => true | _ => false end.
Definition is_raised (h : handle) : bool :=
  match h_phase h with Raised _ => true | _ => false end.
Definition is_release_failed (h : handle) : bool :=
  match h_phase h with ReleaseFailed => true | _ => false end.

Definition indicator (b : bool) : nat := if b then 1 else 0.

Definition tally (f : handle → bool) (l : list handle) : nat :=
  length (filter (λ h, f h = true) l).

Definition count (f : handle → bool) (s : state) : nat :=
  tally f (handles s).

(** Transforms handed to the pool whose future has not resolved. *)
Definition in_flight (s : state) : nat := count is_submitted s.

(** Handles given out whose transform has not completed. *)
Definition outstanding (s : state) : nat :=
  count is_created s + count is_submitted s.

(** The units of the semaphore are all accounted for: each is free, or
    held by a handle that has not returned, or was taken by a call of
    [__anext__] that met the end of the source. *)
Definition accounted (s : state) : Prop :=
  value (back_pressure s)
  + count is_created s + count is_submitted s + count is_raised s
  + stops s
  = bound_value (back_pressure s)
  ∧ count is_release_failed s = 0.

(** The failure policy in its strong form: when the transform of the
    submitted handle [i] raises, its awaiter gets the exception and one
    unit of the semaphore is given back. *)
Definition releases_on_failure (s : state) (i : nat) : Prop :=
  ∀ h e s',
    handles s !! i = Some h → h_phase h = Submitted →
    process (h_item h) = inr e →
    step (Finish i) s = Some s' →
    awaited s' i = Some (inr e)
    ∧ value (back_pressure s') = S (value (back_pressure s)).

End mapper.

Arguments phase : clear implicits.
Arguments handle : clear implicits.
Arguments state : clear implicits.

(** A transform to run the mapper on: it doubles its argument and raises
    on [0]. *)
Definition double_or_raise (x : nat) : nat + string :=
  match x with
  | 0 => inr "ZeroDivisionError"%string
  | S _ => inl (2 * x)
  end.

End Mapper.

(** ** grouper

    Python values that may be [None] are modelled as [option A], the Python
    [None] being [None]. *)

Module Grouper.

(** What [grouper] is given as [iterable]. [grouper] hands [n] references
    to it to [aioitertools.zip_longest], which calls [aioitertools.iter] on
    each of them. For an iterator, an object that is its own iterator such
    as the mapper in [multi], [iter] gives back that very object, so the
    [n] slots of [zip_longest] share it. For a sequence (a [list], a [str],
    a [tuple]) every call of [iter] starts an iteration of its own. *)
Inductive iterable (X : Type) : Type :=
  | Iterator (it : list X)
  | Sequence (l : list X).
Arguments Iterator {X} it.
Arguments Sequence {X} l.

(** The elements an iteration of the input gives. *)
Definition elements {X : Type} (iterable : iterable X) : list X :=
  match iterable with
  | Iterator it => it
  | Sequence l => l
  end.

Section grouper.
Context {X : Type}.

(** [its = [iter(itr) for itr in itrs]] for [itrs = [iterable] * n]. The
    iterator objects are kept in a store, a list of what each of them has
    still to give, and a slot holds the position of its iterator in the
    store: the one object [0] in every slot for an iterator, the objects
    [0 .. n - 1], each at the start of the sequence, for a sequence. A
    slot is [None] once its iterator was replaced by [repeat(fillvalue)]. *)
Definition its (iterable : iterable X) (n : nat)
  : list (option nat) * list (list X) :=
  match iterable with
  | Iterator it => (replicate n (Some 0), [it])
  | Sequence l => (Some <$> seq 0 n, replicate n l)
  end.

(** One pass of [aioitertools.zip_longest] over its slots, in slot order:
    a slot that holds an iterator asks it for its next element, which
    moves that iterator on for every slot that holds it; a slot whose
    iterator is at its end contributes [fillvalue], counts as finished and
    becomes a [repeat]. The result is the tuple of values, the slots after
    the pass, how many slots finished in it, and the store. *)
Fixpoint pull (fillvalue : X) (slots : list (option nat))
    (store : list (list X))
  : list X * list (option nat) * nat * list (list X) :=
  match slots with
  | [] => ([], [], 0, store)
  | None :: slots' =>
      let '(values, sl, k, store') := pull fillvalue slots' store in
      (fillvalue :: values, None :: sl, k, store')
  | Some i :: slots' =>
      match store !! i with
      | Some (x :: rest) =>
          let '(values, sl, k, store') :=
            pull fillvalue slots' (<[i:=rest]> store) in
          (x :: values, Some i :: sl, k, store')
      | _ =>
          let '(values, sl, k, store') := pull fillvalue slots' store in
          (fillvalue :: values, None :: sl, S k, store')
      end
  end.

(** The [while True] loop of [zip_longest]: it stops without yielding
    once [finished >= itr_count], and yields the tuple otherwise. [None]
    is returned when [fuel] passes do not reach the [break]. *)
Fixpoint zip_longest_loop (fuel : nat) (fillvalue : X) (itr_count : nat)
    (slots : list (option nat)) (finished : nat) (store : list (list X))
  : option (list (list X)) :=
  match fuel with
  | 0 => None
  | S fuel' =>
      let '(values, slots', k, store') := pull fillvalue slots store in
      let finished' := finished + k in
      if decide (itr_count ≤ finished') then Some []
      else
        groups ← zip_longest_loop fuel' fillvalue itr_count slots'
                                  finished' store';
        Some (values :: groups)
  end.

(** [zip_longest] applied to [n] references to [iterable]. A pass that
    does not end the loop takes an element from an iterator that every
    later pass finds shorter, so [length (elements iterable) + 1] passes
    are enough. *)
Definition zip_longest (n : nat) (fillvalue : X) (iterable : iterable X)
  : option (list (list X)) :=
  let '(slots, store) := its iterable n in
  zip_longest_loop (S (length (elements iterable))) fillvalue n slots 0
                   store.

(** The tuple [zip_longest] makes of a block of at most [n] elements:
    the block, filled up to [n] entries. *)
Definition padded (fillvalue : X) (n : nat) (g : list X) : list X :=
  g ++ replicate (n - length g) fillvalue.

End grouper.

Definition is_not_None {A : Type} (g : option A) : Prop := g ≠ None.

#[global] Instance is_not_None_dec {A : Type} (g : option A)
  : Decision (is_not_None g).
Proof.
  refine (match g with Some _ => left _ | None => right _ end);
    unfold is_not_None; congruence.
Defined.

(** [grouper(iterable, n, fillvalue=None)]: every tuple of [zip_longest]
    is yielded as the list of its entries that are not [None]. *)
Definition grouper {A : Type} (iterable : iterable (option A)) (n : nat)
    (fillvalue : option A) : option (list (list (option A))) :=
  groups ← zip_longest n fillvalue iterable;
  Some (map (λ group, filter is_not_None group) groups).

(** The number of groups the chunker is to give: [ceil(L / n)]. *)
Definition ceil_div (L n : nat) : nat := (L + n - 1) / n.

(** The contract of the chunker for one input and one chunk size, [L]
    being the number of elements of the input: the grouper ends with
    [ceil(L / n)] groups; group [i] is the block of the input that starts
    at position [i * n], so it has [n] elements unless it is the last one
    and [L mod n] is not zero, when it has [L mod n]; and the groups, one
    after the other, are the input. *)
Definition chunker_contract {A : Type} (iterable : iterable (option A))
    (n : nat) : Prop :=
  ∃ groups,
    grouper iterable n None = Some groups
    ∧ length groups = ceil_div (length (elements iterable)) n
    ∧ (∀ i g, groups !! i = Some g →
         g = take n (drop (i * n) (elements iterable))
         ∧ length g
           = if decide (S i = length groups
                        ∧ length (elements iterable) `mod` n ≠ 0)
             then length (elements iterable) `mod` n else n)
    ∧ concat groups = elements iterable.

End Grouper.

(** ** Projection_Builder *)

Module Projection.

(** Field values, as far as the builder looks at them: it compares key
    values with each other and with [None], writes a time stamp, and copies
    everything else. *)
Inductive value : Type :=
  | VNone
  | VInt (z : Z)
  | VStr (s : string)
  | VTime (t : Z).

#[global] Instance value_eq_dec : EqDecision value.
Proof. solve_decision. Defined.

(** A record (a Python [dict] with string keys). *)
Abbreviation doc := (gmap string value).

(** A [dict] whose order of insertion is kept. *)
Definition odict (K V : Type) : Type := list (K * V).

Inductive error : Type :=
  | TypeError
  | ValueError
  | KeyError
  | AttributeError
  | UnboundLocalError.

(** A store, seen through the operations the builder calls on it. The
    criteria of a query always have the shape [{field: {"$in": keys}}]. *)
Record Store : Type := mk_store {
  key : string;
  last_updated_field : string;
  collection_name : string;
  distinct : string → list value;
  query : string → list value → option (list string) → list doc;
  ensure_index : string → bool
}.

(** What the builder does to the outside, in the order it does it. Stores
    are named by their position in [source_stores]. *)
Inductive event : Type :=
  | EnsureIndex (store : nat) (field : string)
  | Distinct (store : nat) (field : string)
  | Query (store : nat) (field : string) (keys : list value)
          (properties : option (list string))
  | Yield (items : list doc)
  | Update (items : list doc).

(** The world the builder runs in: the trace so far and the clock that
    [datetime.utcnow()] reads ([clock i] is what its [i]-th call returns). *)
Record world : Type := mk_world {
  trace : list event;
  clock : nat → Z;
  clock_reads : nat
}.

(** Computations that act on the world and may raise. *)
Definition M (A : Type) : Type := world → (error + A) * world.

Definition ret {A} (a : A) : M A := λ w, (inr a, w).

Definition bind {A B} (m : M A) (f : A → M B) : M B :=
  λ w, match m w with
       | (inl e, w') => (inl e, w')
       | (inr a, w') => f a w'
       end.

Definition raise {A} (e : error) : M A := λ w, (inl e, w).

Definition emit (ev : event) : M unit :=
  λ w, (inr tt, {| trace := trace w ++ [ev]; clock := clock w;
                   clock_reads := clock_reads w |}).

Definition utcnow : M Z :=
  λ w, (inr (clock w (clock_reads w)),
        {| trace := trace w; clock := clock w;
           clock_reads := S (clock_reads w) |}).

#[global] Instance M_ret : MRet M := @ret.
#[global] Instance M_bind : MBind M := λ A B f m, bind m f.

(** [for x in l: s = body(x, s)] *)
Fixpoint for_each {A S : Type} (l : list A) (body : A → S → M S) (s : S)
  : M S :=
  match l with
  | [] => ret s
  | x :: l' => (s' ← body x s ; for_each l' body s')
  end.

(** [d[k] = v] on an ordered dict. *)
Fixpoint dict_set {K V} `{EqDecision K} (k : K) (v : V) (d : odict K V)
  : odict K V :=
  match d with
  | [] => [(k, v)]
  | (k', v') :: d' =>
      if decide (k' = k) then (k', v) :: d' else (k', v') :: dict_set k v d'
  end.

(** [d[k]] on an ordered dict ([None] when [k] is not a key of [d]). *)
Fixpoint dict_get {K V} `{EqDecision K} (k : K) (d : odict K V)
  : option V :=
  match d with
  | [] => None
  | (k', v) :: d' => if decide (k' = k) then Some v else dict_get k d'
  end.

(** *** The constructor *)

(** The argument [source_stores]: a list, or something else (which may
    still have a length, as a tuple has). *)
Inductive sources_arg : Type :=
  | SourcesList (l : list Store)
  | SourcesTuple (l : list Store)
  | SourcesOther.

(** One element of [fields_to_project]. A dict is an object of the caller:
    [FDict obj f] is the dict object [obj], which holds [f] when the
    constructor is called. The same object may be given for several
    stores; where it is, what its first mention says it holds is taken. *)
Inductive fields_spec : Type :=
  | FList (f : list string)
  | FDict (obj : nat) (f : odict string string)
  | FOther.

(** The argument [fields_to_project]. *)
Inductive fields_arg : Type :=
  | FieldsNone
  | FieldsList (l : list fields_spec)
  | FieldsOther.

Record Projection_Builder : Type := mk_builder {
  sources : list Store;
  target : Store;
  projection_mapping : list (option (odict string string));
  query_by_key : list value;
  chunk_size : nat
}.

(** [{i: i for i in f}] *)
Definition identity_mapping (f : list string) : odict string string :=
  foldl (λ d i, dict_set i i d) [] f.

(** An element of [projection_mapping] while the constructor runs: a dict
    the constructor has made itself, or the dict object of the caller. *)
Inductive mapping_ref : Type :=
  | Fresh (d : odict string string)
  | Given (obj : nat).

(** The dict objects of the caller and what they hold. *)
Abbreviation dicts := (gmap nat (odict string string)).

(** The dict objects among [fields_to_project], as they are when the
    constructor is called. *)
Fixpoint given_dicts (fields : list fields_spec) : dicts :=
  match fields with
  | [] => ∅
  | FDict obj f :: rest => <[obj:=f]> (given_dicts rest)
  | _ :: rest => given_dicts rest
  end.

(** The loop over [fields_to_project] that fills [projection_mapping]: a
    new dict for a list, the dict itself, not a copy of it, for a dict. *)
Fixpoint interpret_fields (fields : list fields_spec)
  : error + list mapping_ref :=
  match fields with
  | [] => inr []
  | FList f :: rest =>
      match interpret_fields rest with
      | inl e => inl e
      | inr pm => inr (Fresh (identity_mapping f) :: pm)
      end
  | FDict obj _ :: rest =>
      match interpret_fields rest with
      | inl e => inl e
      | inr pm => inr (Given obj :: pm)
      end
  | FOther :: _ => inl TypeError
  end.

(** [if p != {}: p.update({target_store.key: store.key})] on what [p]
    holds. *)
Definition update_key (target_store store : Store)
    (p : odict string string) : odict string string :=
  match p with
  | [] => p
  | _ => dict_set (key target_store) (key store) p
  end.

(** [for store, p in zip(source_stores, projection_mapping)] with the body
    above. The update is made in place: on a dict of the caller it changes
    that object, for every element of [projection_mapping] that is this
    object. *)
Fixpoint include_key (target_store : Store)
    (sps : list (Store * mapping_ref)) (h : dicts)
  : list mapping_ref * dicts :=
  match sps with
  | [] => ([], h)
  | (store, Fresh d) :: rest =>
      let '(pm, h') := include_key target_store rest h in
      (Fresh (update_key target_store store d) :: pm, h')
  | (store, Given obj) :: rest =>
      let h1 :=
        match h !! obj with
        | Some p => <[obj:=update_key target_store store p]> h
        | None => h
        end in
      let '(pm, h') := include_key target_store rest h1 in
      (Given obj :: pm, h')
  end.

(** What an element of [projection_mapping] holds, the dicts of the caller
    being as [h] has them. *)
Definition resolve (h : dicts) (r : mapping_ref) : odict string string :=
  match r with
  | Fresh d => d
  | Given obj => default [] (h !! obj)
  end.

(** The dict object [obj] is the element at position [j] of
    [fields_to_project]. *)
Definition given_at (fields : list fields_spec) (obj j : nat) : Prop :=
  ∃ f, fields !! j = Some (FDict obj f).

(** [ensure_indexes] *)
Definition ensure_indexes (srcs : list Store) : M (list bool) :=
  for_each (zip (seq 0 (length srcs)) srcs)
    (λ '(i, s) index_checks,
       emit (EnsureIndex i (key s)) ;;
       ret (index_checks ++ [ensure_index s (key s)])) [].

(** [Projection_Builder.__init__]; [chunk_size] comes with [**kwargs]. The
    builder keeps the elements of [projection_mapping] as the objects they
    are; [projection_mapping] of the record shows what they hold when the
    constructor returns, nothing in the builder changing them later. *)
Definition init (source_stores : sources_arg) (target_store : Store)
    (fields_to_project : fields_arg) (query_by_key' : option (list value))
    (chunk_size' : nat) : M Projection_Builder :=
  match source_stores with
  | SourcesTuple _ | SourcesOther => raise TypeError
  | SourcesList srcs =>
      (match fields_to_project with
       | FieldsList f =>
           if decide (length srcs ≠ length f) then raise ValueError
           else ret tt
       | FieldsNone => ret tt
       | FieldsOther => raise TypeError
       end) ;;
      projection_mapping' ←
        (match fields_to_project with
         | FieldsList f =>
             match interpret_fields f with
             | inl e => raise e
             | inr pm =>
                 let '(pm', h) :=
                   include_key target_store (zip srcs pm) (given_dicts f) in
                 ret ((λ p, Some (resolve h p)) <$> pm')
             end
         | _ => ret (replicate (length srcs) None)
         end) ;
      let self :=
        {| sources := srcs; target := target_store;
           projection_mapping := projection_mapping';
           query_by_key := default [] query_by_key';
           chunk_size := chunk_size' |} in
      ensure_indexes (sources self) ;;
      ret self
  end.

(** *** get_items *)

Section get_items.

(** [maggma.utils.grouper(keys, chunk_size)]: the chunks of key values,
    padding included. *)
Variable grouper : list value → nat → list (list value).

(** [list(keys)] for the [set] built from the given elements: the order
    (and the removal of duplicates) is the interpreter's. *)
Variable list_of_set : list value → list value.

(** [pydash.get(d, path)] *)
Variable get : doc → string → value.

Variable self : Projection_Builder.

(** The distinct key values: [query_by_key] when it is given, else the
    union over the stores. *)
Definition distinct_keys : M (list value) :=
  if decide (0 < length (query_by_key self)) then ret (query_by_key self)
  else
    keys ← for_each (zip (seq 0 (length (sources self))) (sources self))
      (λ '(i, store) keys,
         emit (Distinct i (key store)) ;;
         ret (keys ++ distinct store (key store))) [];
    ret (list_of_set keys).

(** [item = {}; for k, v in projection.items(): item[k] = get(d, v)] *)
Definition rename_fields (projection : odict string string) (d : doc)
  : doc :=
  foldl (λ item kv, <[kv.1 := get d kv.2]> item) ∅ projection.

(** The body of [for d in docs]: build the item, drop ["_id"] and the
    store's last-updated field, and tag it with [d[store.key]]. *)
Definition make_item (store : Store) (projection : odict string string)
    (properties : option (list string)) (d : doc) : error + doc :=
  let item :=
    match properties with
    | None => d
    | Some _ => rename_fields projection d
    end in
  let item :=
    foldl (λ item k, delete k item) item
          ["_id"; last_updated_field store] in
  match d !! key store with
  | None => inl KeyError
  | Some key_value => inr (<[key (target self) := key_value]> item)
  end.

(** The body of [for store, projection in zip(...)]. The state is
    [unsorted_items_to_process] and whether the local [item] has been
    assigned yet: the debug message after the loop over [docs] reads it. *)
Definition query_store (chunked_keys : list value)
    (sp : nat * (Store * option (odict string string)))
    (st : list doc * bool) : M (list doc * bool) :=
  let '(i, (store, projection)) := sp in
  p ← match projection with
      | None => raise AttributeError
      | Some p => ret p
      end;
  let properties :=
    match p with
    | [] => None
    | _ => Some (p.*2)
    end in
  emit (Query i (key store) chunked_keys properties) ;;
  let docs := query store (key store) chunked_keys properties in
  '(items, item_bound) ← for_each docs
    (λ d (st : list doc * bool),
       match make_item store p properties d with
       | inl e => raise e
       | inr item => ret (st.1 ++ [item], true)
       end) st;
  if item_bound : bool then ret (items, item_bound)
  else raise UnboundLocalError.

(** The body of [for chunked_keys in grouper(keys, self.chunk_size)];
    the state is whether [item] has been assigned. *)
Definition query_chunk (chunked_keys : list value) (item_bound : bool)
  : M bool :=
  let chunked_keys := filter (λ k, k ≠ VNone) chunked_keys in
  '(unsorted_items_to_process, item_bound) ← for_each
    (zip (seq 0 (length (sources self)))
         (zip (sources self) (projection_mapping self)))
    (query_store chunked_keys) ([], item_bound);
  emit (Yield unsorted_items_to_process) ;;
  ret item_bound.

(** [get_items], iterated until it is exhausted or raises. *)
Definition get_items : M unit :=
  keys ← distinct_keys;
  for_each (grouper keys (chunk_size self)) query_chunk false ;;
  ret tt.

End get_items.

(** A store answers a keyed query with records of the keys asked for:
    whenever a record it returns has the key field, the value of that field
    is one of the keys of the criteria. *)
Definition queries_honoured (self : Projection_Builder) : Prop :=
  ∀ store keys properties (d : doc) v,
    store ∈ sources self →
    d ∈ query store (key store) keys properties →
    d !! key store = Some v → v ∈ keys.

(** An item tagged with a key value that is not [None]. *)
Definition tagged (key : string) (item : doc) : Prop :=
  ∃ v, item !! key = Some v ∧ v ≠ VNone.

(** An event of [get_items] as it should be: a query whose criteria do not
    hold [None], a chunk of items that all satisfy [Y]. *)
Definition sound_event (Y : doc → Prop) (ev : event) : Prop :=
  match ev with
  | Query _ _ keys _ => VNone ∉ keys
  | Yield items => Forall Y items
  | _ => True
  end.

(** An event in which [None] is no key: a query whose criteria do not hold
    [None], a chunk of items none of which is tagged with [None]. *)
Definition None_free (key : string) (ev : event) : Prop :=
  sound_event (tagged key) ev.

(** [m] only adds events that satisfy [P] to the trace, and a value it
    returns satisfies [Q]. *)
Definition emits {A} (P : event → Prop) (Q : A → Prop) (m : M A) : Prop :=
  ∀ w, ∃ evs,
    trace (m w).2 = trace w ++ evs
    ∧ Forall P evs
    ∧ ∀ a, (m w).1 = inr a → Q a.

(** *** process_item *)

(** [if key_value not in d.keys(): d[key_value] = []] followed by
    [d[key_value].append(i)]. *)
Fixpoint dict_append (key_value : value) (i : doc)
    (d : odict value (list doc)) : odict value (list doc) :=
  match d with
  | [] => [(key_value, [i])]
  | (k, l) :: d' =>
      if decide (k = key_value) then (k, l ++ [i]) :: d'
      else (k, l) :: dict_append key_value i d'
  end.

(** The first loop of [process_item]; [i[key]] raises [KeyError] on a
    record without the key field. *)
Fixpoint sort_by_key (key : string) (items : list doc)
    (items_sorted_by_key : odict value (list doc))
  : error + odict value (list doc) :=
  match items with
  | [] => inr items_sorted_by_key
  | i :: rest =>
      match i !! key with
      | None => inl KeyError
      | Some key_value =>
          sort_by_key key rest (dict_append key_value i items_sorted_by_key)
      end
  end.

(** [target_doc.update(i)]: every field of [i] is written over
    [target_doc]. *)
Definition update (target_doc i : doc) : doc := i ∪ target_doc.

(** The body of the second loop: merge the group, then write the key. *)
Definition merge_group (key : string) (k : value) (i_sorted : list doc)
  : doc :=
  let target_doc := foldl update ∅ i_sorted in
  <[key := k]> target_doc.

Definition process_item (self : Projection_Builder) (items : list doc)
  : error + list doc :=
  let key := key (target self) in
  match sort_by_key key items [] with
  | inl e => inl e
  | inr items_sorted_by_key =>
      inr ((λ ki, merge_group key ki.1 ki.2) <$> items_sorted_by_key)
  end.

(** The records of [items] that carry the key value [k], in the order of
    [items]: the key group of [k]. *)
Definition key_group (key : string) (k : value) (items : list doc)
  : list doc :=
  filter (λ i, i !! key = Some k) items.

(** What it is for [d] to be the merged record of the key group of [k]
    among [items]: [d] is the group merged in arrival order; its key field
    holds [k], as the key field of a merge for [k] does whatever group is
    merged; and any other field [f] holds [v] exactly when a record of the
    group gives [f] the value [v] and no later record of the group has the
    field [f]. *)
Definition last_write_wins (key : string) (items : list doc) (k : value)
    (d : doc) : Prop :=
  d = merge_group key k (key_group key k items)
  ∧ d !! key = Some k
  ∧ (∀ g, merge_group key k g !! key = Some k)
  ∧ (∀ f v, f ≠ key →
       d !! f = Some v
       ↔ ∃ g1 i g2,
           key_group key k items = g1 ++ i :: g2
           ∧ i !! f = Some v
           ∧ Forall (λ j : doc, j !! f = None) g2).

(** *** update_targets *)

(** The records are changed in place; the list as it is after the call is
    returned to make that visible. *)
Definition update_targets (self : Projection_Builder) (items : list doc)
  : M (list doc) :=
  let num_items := length items in
  target_insertion_time ← utcnow;
  let items :=
    (λ item, <[last_updated_field (target self) :=
                 VTime target_insertion_time]> item) <$> items in
  (if decide (0 < num_items) then emit (Update items) else ret tt) ;;
  ret items.

(** *** A run to try the builder on *)

(** Modelled from the spec: [maggma.utils.grouper], the chunker over plain
    iterables ([maggma.utils] is not among the sources at hand): the keys
    in groups of [n] in their order, the last group filled up with [None]
    to [n] entries. It is [zip_longest] over [n] references to one
    iterator of the keys. *)
Definition utils_grouper (keys : list value) (n : nat)
  : list (list value) :=
  default [] (Grouper.zip_longest n VNone (Grouper.Iterator keys)).

(** Modelled from the spec: [pydash.get] on a flat record, [None] standing
    for a path that leads nowhere. *)
Definition flat_get (d : doc) (path : string) : value :=
  default VNone (d !! path).

(** Modelled from the spec: the criteria [{field: {"$in": keys}}] of a
    keyed query, on one record. *)
Definition matches_in (field : string) (keys : list value) (d : doc)
  : bool :=
  match d !! field with
  | Some v => bool_decide (v ∈ keys)
  | None => false
  end.

(** Modelled from the spec: the store collaborator ([maggma.core.Store] is
    not among the sources at hand), as a collection held in memory.
    [distinct] gives the values of a field, each once; [query] gives the
    records whose [field] value is one of [keys], cut down to
    [properties] when these are given; [ensure_index] succeeds. *)
Definition memory_store (collection_name' key' last_updated_field' : string)
    (docs : list doc) : Store :=
  {| key := key';
     last_updated_field := last_updated_field';
     collection_name := collection_name';
     distinct := λ field, remove_dups (omap (λ d : doc, d !! field) docs);
     query := λ field keys properties,
       (λ d : doc,
          match properties with
          | None => d
          | Some fields => filter (λ fv, fv.1 ∈ fields) d
          end)
       <$> filter (λ d : doc, matches_in field keys d = true) docs;
     ensure_index := λ _, true |}.

(** Two sources and a target, all keyed by ["k"]. *)
Definition store_A : Store :=
  memory_store "A" "k" "last_updated"
    [ {[ "k" := VInt 1; "a" := VStr "foo" ]} ].

Definition store_B : Store :=
  memory_store "B" "k" "last_updated"
    [ {[ "k" := VInt 1; "b" := VStr "bar" ]};
      {[ "k" := VInt 2; "b" := VStr "baz" ]};
      {[ "k" := VNone; "b" := VStr "qux" ]} ].

Definition store_T : Store := memory_store "T" "k" "last_updated" [].

(** A source keyed by another field. *)
Definition store_C : Store :=
  memory_store "C" "task_id" "last_updated"
    [ {[ "task_id" := VInt 1; "a" := VStr "quux" ]} ].

Definition example_builder : Projection_Builder :=
  {| sources := [store_A; store_B]; target := store_T;
     projection_mapping := [Some []; Some []];
     query_by_key := []; chunk_size := 10 |}.

Definition example_world : world :=
  {| trace := []; clock := λ i, (1000 + Z.of_nat i)%Z; clock_reads := 0 |}.

(** The records of the two sources, as they reach [process_item]. *)
Definition example_items : list doc :=
  [ {[ "k" := VInt 1; "a" := VStr "foo" ]};
    {[ "k" := VInt 1; "b" := VStr "bar" ]};
    {[ "k" := VInt 2; "b" := VStr "baz" ]} ].

End Projection.

(** ** multi

    The driver: the mapper over the cursor of the builder, the grouper over
    the mapper, and for every group the transforms awaited together and
    their results handed to [update_targets]. *)

Module Driver.
Import Semaphore Mapper.

Section driver.
Context {Item Result Exn : Type}.

(** The cursor [builder.get_items()] returns: the items it gives, and how
    it ends once they are given: as an iterator does that is exhausted
    ([None]), or with an exception of its own, as a generator does whose
    body raises. *)
Record cursor : Type := mk_cursor {
  c_items : list Item;
  c_raises : option Exn
}.

(** The builder, seen through what [multi] calls on it. A call that may
    raise is [Some e], or [inl e], when it raises [e]. What
    [update_targets] does may depend on the calls before: it is given the
    lists of these calls and then its argument. *)
Record Builder : Type := mk_Builder {
  connect : option Exn;
  get_items : Exn + cursor;
  process_item : Item → Result + Exn;
  update_targets : list (list Result) → list Result → option Exn;
  chunk_size : nat
}.

Variable builder : Builder.

(** [ProcessPoolExecutor(num_workers)]: [Some e] when making the pool
    raises [e], as it does for a number of workers that is not positive. *)
Variable ProcessPoolExecutor : Z → option Exn.

(** The pool at work: [order chunk] is the order in which the futures of
    the coroutines [chunk], submitted together, resolve. *)
Variable order : list nat → list nat.

(** One pass of [zip_longest] over its slots, which all hold the mapper:
    every live slot calls [__anext__], in slot order. A value is the
    position of the coroutine the call returned among the handles of the
    mapper, or [None] for a call that found the cursor at its end. Such a
    call keeps the unit it has acquired, whatever [next] raised, and the
    mapper counts it among its [stops]. The pass as a whole is [None] when
    one of the calls finds no unit free: nothing can release one before
    the pass is over. *)
Fixpoint pull_mapper (slots : list bool) (s : state Item Result Exn)
  : option (list (option nat) * list bool * nat * state Item Result Exn) :=
  match slots with
  | [] => Some ([], [], 0, s)
  | false :: slots' =>
      '(values, sl, k, s') ← pull_mapper slots' s;
      Some (None :: values, false :: sl, k, s')
  | true :: slots' =>
      s1 ← anext s;
      '(values, sl, k, s') ← pull_mapper slots' s1;
      match iterator s with
      | [] => Some (None :: values, false :: sl, S k, s')
      | _ :: _ =>
          Some (Some (length (handles s)) :: values, true :: sl, k, s')
      end
  end.

(** The phase a coroutine ends in, by what its transform did. *)
Definition settled (o : Result + Exn) : phase Result Exn :=
  match o with
  | inl r => Returned r
  | inr e => Raised e
  end.

(** How a run of the driver ends. *)
Inductive outcome : Type :=
  | Done                   (* the cursor is exhausted, every group committed *)
  | ConnectRaised (e : Exn)    (* [builder.connect()] raised *)
  | GetItemsRaised (e : Exn)   (* [builder.get_items()] raised *)
  | ExecutorRaised (e : Exn)   (* [ProcessPoolExecutor(num_workers)] raised *)
  | CursorRaised (e : Exn)     (* [next] on the cursor raised *)
  | Failed (e : Exn)       (* a transform raised; the exception leaves [multi] *)
  | UpdateRaised (e : Exn)     (* [builder.update_targets] raised *)
  | ReleaseValueError      (* [release()] raised ValueError *)
  | Blocked                (* an [__anext__] waits for a unit for ever *)
  | Unfinished.            (* the passes allowed did not reach the end *)

(** [asyncio.gather] waiting for the coroutines of the group: the futures
    resolve in the order [pending], each coroutine going on from its
    [await future]. The first coroutine that raises ends the wait: its
    exception is what [await asyncio.gather] raises, whatever the
    coroutines still pending would do. *)
Fixpoint await_all (pending : list nat) (s : state Item Result Exn)
  : state Item Result Exn * option outcome :=
  match pending with
  | [] => (s, None)
  | i :: rest =>
      match finish (process_item builder) i s with
      | None => (s, Some Unfinished)
      | Some s' =>
          match h_phase <$> handles s' !! i with
          | Some (Returned _) => await_all rest s'
          | Some (Raised e) => (s', Some (Failed e))
          | Some ReleaseFailed => (s', Some ReleaseValueError)
          | _ => (s', Some Unfinished)
          end
      end
  end.

(** [[c.result() for c in chunk]] once [asyncio.gather] is through: the
    results in the order of the handles. *)
Fixpoint results (s : state Item Result Exn) (chunk : list nat)
  : outcome + list Result :=
  match chunk with
  | [] => inr []
  | i :: rest =>
      match h_phase <$> handles s !! i with
      | Some (Returned r) =>
          match results s rest with
          | inl o => inl o
          | inr processed_items => inr (r :: processed_items)
          end
      | Some (Raised e) => inl (Failed e)
      | Some ReleaseFailed => inl ReleaseValueError
      | _ => inl Unfinished
      end
  end.

(** [await asyncio.gather] on the group and the results of its futures:
    the coroutines of the group are started in their order, each handing
    its item to the pool, and then waited for. *)
Definition gather (chunk : list nat) (s : state Item Result Exn)
  : state Item Result Exn * (outcome + list Result) :=
  match run (process_item builder) (Start <$> chunk) s with
  | None => (s, inl Unfinished)
  | Some s1 =>
      match await_all (order chunk) s1 with
      | (s2, Some o) => (s2, inl o)
      | (s2, None) => (s2, results s2 chunk)
      end
  end.

(** What a run leaves behind: the lists [update_targets] was called with
    and returned for, in the order of the calls; the mapper, if the run
    got as far as making it; and how the run ended. *)
Record report : Type := mk_report {
  commits : list (list Result);
  mapper : option (state Item Result Exn);
  ending : outcome
}.

(** The [async for chunk in grouper(mapper, builder.chunk_size)] loop: a
    pass of [zip_longest], which raises what the cursor raised if a call
    of the pass met that; the end of the loop once every slot is finished;
    else the group without its [None] entries, awaited and handed to
    [update_targets]. An exception of the cursor can only be met in the
    first pass that reaches the end of the cursor, which is the last pass
    then. *)
Fixpoint multi_loop (raises : option Exn) (fuel itr_count : nat)
    (slots : list bool) (finished : nat) (s : state Item Result Exn)
    (committed : list (list Result)) : report :=
  match fuel with
  | 0 => mk_report committed (Some s) Unfinished
  | S fuel' =>
      match pull_mapper slots s with
      | None => mk_report committed (Some s) Blocked
      | Some (values, slots', k, s1) =>
          match (if decide (0 < k) then raises else None) with
          | Some e => mk_report committed (Some s1) (CursorRaised e)
          | None =>
              let finished' := finished + k in
              if decide (itr_count ≤ finished')
              then mk_report committed (Some s1) Done
              else
                let chunk := omap id values in
                match gather chunk s1 with
                | (s2, inl o) => mk_report committed (Some s2) o
                | (s2, inr processed_items) =>
                    match update_targets builder committed
                                         processed_items with
                    | Some e => mk_report committed (Some s2) (UpdateRaised e)
                    | None =>
                        multi_loop raises fuel' itr_count slots' finished'
                                   s2 (committed ++ [processed_items])
                    end
                end
          end
      end
  end.

(** [multi(builder, num_workers)]. *)
Definition multi (num_workers : Z) : report :=
  match connect builder with
  | Some e => mk_report [] None (ConnectRaised e)
  | None =>
      match get_items builder with
      | inl e => mk_report [] None (GetItemsRaised e)
      | inr cursor =>
          match ProcessPoolExecutor num_workers with
          | Some e => mk_report [] None (ExecutorRaised e)
          | None =>
              multi_loop (c_raises cursor) (S (length (c_items cursor)))
                         (chunk_size builder)
                         (replicate (chunk_size builder) true) 0
                         (init (chunk_size builder) (c_items cursor)) []
          end
      end
  end.

(** The mapper between two groups: its units accounted for and all free,
    and the end of the cursor not met. *)
Definition ready (n : nat) (s : state Item Result Exn) : Prop :=
  accounted s
  ∧ value (back_pressure s) = n ∧ bound_value (back_pressure s) = n
  ∧ stops s = 0.

End driver.

Arguments cursor : clear implicits.
Arguments Builder : clear implicits.
Arguments outcome : clear implicits.
Arguments report : clear implicits.

(** A transform with two ways to fail. *)
Definition halve_or_raise (x : nat) : nat + string :=
  match x with
  | 0 => inr "ZeroDivisionError"%string
  | 1 => inr "ValueError"%string
  | S (S _) => inl (x / 2)
  end.

(** A pool that resolves the futures of a group last one first. *)
Definition last_first (chunk : list nat) : list nat := reverse chunk.

(** A pool that can be made with a positive number of workers only. *)
Definition pool (num_workers : Z) : option string :=
  if decide (0 < num_workers)%Z then None else Some "ValueError"%string.

(** A builder to run the driver on: it connects, its cursor gives [items]
    and ends as [raises] says, and its [update_targets] takes whatever it
    is given. *)
Definition test_builder (process : nat → nat + string) (items : list nat)
    (raises : option string) (n : nat) : Builder nat nat string :=
  {| connect := None;
     get_items := inr (mk_cursor items raises);
     process_item := process;
     update_targets := λ _ _, None;
     chunk_size := n |}.

End Driver.

(** * Properties *)

(** ** The bounded mapper *)

Module MapperFacts.
Import Semaphore Mapper.

Section facts.
Context {Item Result Exn : Type}.
Variable process : Item → Result + Exn.

Implicit Types (s : state Item Result Exn) (h : handle Item Result Exn).
Implicit Types (l : list (handle Item Result Exn)).
Implicit Types (f : handle Item Result Exn → bool).

Lemma tally_cons f h l : tally f (h :: l) = indicator (f h) + tally f l.
Proof.
  unfold tally. rewrite filter_cons.
  destruct (f h); case_decide; simpl; congruence.
Qed.

Lemma tally_snoc f l h : tally f (l ++ [h]) = tally f l + indicator (f h).
Proof.
  induction l as [|h' l IH]; simpl.
  - rewrite tally_cons. unfold tally. rewrite filter_nil. simpl. lia.
  - rewrite !tally_cons, IH. lia.
Qed.

(** Rewriting one handle moves one unit between the tallies. *)
Lemma tally_alter f g l i h :
  l !! i = Some h →
  tally f (alter g i l) + indicator (f h)
  = tally f l + indicator (f (g h)).
Proof.
  revert i. induction l as [|h' l IH]; intros [|i] Hi; simplify_eq/=.
  - rewrite !tally_cons. lia.
  - rewrite !tally_cons. specialize (IH _ Hi). lia.
Qed.

Lemma tally_lookup f l i h :
  l !! i = Some h → f h = true → 1 ≤ tally f l.
Proof.
  revert i. induction l as [|h' l IH]; intros [|i] Hi Hf; simplify_eq/=.
  - rewrite tally_cons, Hf. simpl. lia.
  - rewrite tally_cons. specialize (IH _ Hi Hf). lia.
Qed.

Lemma accounted_init n (src : list Item) :
  accounted (init n src : state Item Result Exn).
Proof. split; unfold count, tally; simpl; lia. Qed.

Lemma bound_step ev s s' :
  step process ev s = Some s' →
  bound_value (back_pressure s') = bound_value (back_pressure s).
Proof.
  destruct ev as [|i|i]; simpl.
  - unfold anext, acquire. destruct (value (back_pressure s)); [done|].
    simpl. destruct (iterator s); intros; by simplify_eq/=.
  - unfold start. destruct (handles s !! i) as [h|]; [|done]; simpl.
    destruct (h_phase h); intros; by simplify_eq/=.
  - unfold finish. destruct (handles s !! i) as [h|]; [|done]; simpl.
    destruct (h_phase h); try done.
    destruct (process (h_item h)); [|intros; by simplify_eq/=].
    unfold release. case_decide; intros; by simplify_eq/=.
Qed.

Lemma accounted_step ev s s' :
  accounted s → step process ev s = Some s' → accounted s'.
Proof.
  intros [Hacc Hrf] Hstep. unfold accounted, count in *.
  destruct ev as [|i|i]; simpl in Hstep.
  - unfold anext, acquire in Hstep.
    destruct (value (back_pressure s)) as [|v] eqn:Hv; [done|].
    simpl in Hstep. destruct (iterator s); simplify_eq/=.
    + lia.
    + rewrite !tally_snoc. simpl. lia.
  - unfold start in Hstep.
    destruct (handles s !! i) as [h|] eqn:Hi; [|done]. simpl in Hstep.
    destruct (h_phase h) eqn:Hp; simplify_eq/=.
    pose proof (λ f, tally_alter f (λ h, mk_handle (h_item h) Submitted)
                       _ _ _ Hi) as Halt.
    pose proof (Halt is_created) as H1. pose proof (Halt is_submitted) as H2.
    pose proof (Halt is_raised) as H3.
    pose proof (Halt is_release_failed) as H4.
    unfold is_created, is_submitted, is_raised, is_release_failed in *.
    rewrite Hp in *. simpl in *. lia.
  - unfold finish in Hstep.
    destruct (handles s !! i) as [h|] eqn:Hi; [|done]. simpl in Hstep.
    destruct (h_phase h) eqn:Hp; try done.
    assert (Hpos : 1 ≤ tally is_submitted (handles s)).
    { apply (tally_lookup _ _ _ _ Hi). unfold is_submitted. by rewrite Hp. }
    destruct (process (h_item h)) as [r|e].
    + unfold release in Hstep. case_decide; [lia|]. simplify_eq/=.
      pose proof (λ f, tally_alter f
                         (λ h, mk_handle (h_item h) (Returned r))
                         _ _ _ Hi) as Halt.
      pose proof (Halt is_created) as H1.
      pose proof (Halt is_submitted) as H2.
      pose proof (Halt is_raised) as H3.
      pose proof (Halt is_release_failed) as H4.
      unfold is_created, is_submitted, is_raised, is_release_failed in *.
      rewrite Hp in *. simpl in *. lia.
    + simplify_eq/=.
      pose proof (λ f, tally_alter f (λ h, mk_handle (h_item h) (Raised e))
                         _ _ _ Hi) as Halt.
      pose proof (Halt is_created) as H1.
      pose proof (Halt is_submitted) as H2.
      pose proof (Halt is_raised) as H3.
      pose proof (Halt is_release_failed) as H4.
      unfold is_created, is_submitted, is_raised, is_release_failed in *.
      rewrite Hp in *. simpl in *. lia.
Qed.

Lemma accounted_run tr s s' :
  accounted s → run process tr s = Some s' → accounted s'.
Proof.
  revert s. induction tr as [|ev tr IH]; intros s Hs Hrun; simpl in Hrun.
  - by simplify_eq.
  - destruct (step process ev s) as [s1|] eqn:Hstep; [|done].
    simpl in Hrun. eauto using accounted_step.
Qed.

Lemma bound_run tr s s' :
  run process tr s = Some s' →
  bound_value (back_pressure s') = bound_value (back_pressure s).
Proof.
  revert s. induction tr as [|ev tr IH]; intros s Hrun; simpl in Hrun.
  - by simplify_eq.
  - destruct (step process ev s) as [s1|] eqn:Hstep; [|done].
    simpl in Hrun. rewrite (IH _ Hrun). eauto using bound_step.
Qed.

(** C1. Whatever the interleaving of [__anext__] calls, coroutine starts
    and transform completions, a mapper built with [chunk_size = n] never
    has more than [n] transforms in flight: every handle given out took
    one unit of the semaphore of capacity [n] before its item was pulled,
    and holds it until its transform has completed. *)
Theorem backpressure_bound n (src : list Item) tr s :
  run process tr (init n src) = Some s →
  in_flight s ≤ n
  ∧ value (back_pressure s) + outstanding s + count is_raised s + stops s
    = n
  ∧ count is_release_failed s = 0.
Proof.
  intros Hrun.
  pose proof (accounted_run _ _ _ (accounted_init n src) Hrun) as [Ha Hr].
  pose proof (bound_run _ _ _ Hrun) as Hb. simpl in Hb.
  unfold in_flight, outstanding. lia.
Qed.

Lemma awaited_alter s s' i h p :
  handles s !! i = Some h →
  handles s' = alter (λ h, mk_handle (h_item h) p) i (handles s) →
  awaited s' i
  = match p with
    | Returned r => Some (inl r)
    | Raised e => Some (inr e)
    | _ => None
    end.
Proof.
  intros Hi Hs'. unfold awaited. rewrite Hs', list_lookup_alter, Hi.
  simpl. case_decide; [done | congruence].
Qed.

(** C2, as the code has it. When the future of a submitted handle
    resolves, the coroutine ends: if the transform raised, awaiting the
    handle raises that exception and the semaphore is left as it was; if
    it returned, awaiting the handle gives the result and one unit has
    been released. *)
Theorem finish_outcome n (src : list Item) tr s i h :
  run process tr (init n src) = Some s →
  handles s !! i = Some h → h_phase h = Submitted →
  ∃ s', step process (Finish i) s = Some s'
    ∧ match process (h_item h) with
      | inr e =>
          awaited s' i = Some (inr e)
          ∧ back_pressure s' = back_pressure s
      | inl r =>
          awaited s' i = Some (inl r)
          ∧ value (back_pressure s') = S (value (back_pressure s))
      end.
Proof.
  intros Hrun Hi Hp.
  pose proof (accounted_run _ _ _ (accounted_init n src) Hrun) as [Ha Hr].
  assert (Hpos : 1 ≤ count is_submitted s).
  { apply (tally_lookup _ _ _ _ Hi). unfold is_submitted. by rewrite Hp. }
  simpl. unfold finish. rewrite Hi. simpl. rewrite Hp.
  destruct (process (h_item h)) as [r|e].
  - unfold release. case_decide; [lia|]. eexists. split; [done|].
    split; [|done]. by rewrite (awaited_alter s _ i h (Returned r)).
  - eexists. split; [done|]. split; [|done].
    by rewrite (awaited_alter s _ i h (Raised e)).
Qed.

End facts.

(** Two handles of a mapper of capacity two in flight at once. *)
Lemma backpressure_bound_witness :
  ∃ s, run double_or_raise [Anext; Anext; Start 0; Start 1]
           (init 2 [1; 0; 5]) = Some s
       ∧ in_flight s = 2
       ∧ (in_flight s ≤ 2
          ∧ value (back_pressure s) + outstanding s + count is_raised s
            + stops s = 2
          ∧ count is_release_failed s = 0).
Proof.
  eexists. split; [reflexivity|]. split; [reflexivity|].
  apply (backpressure_bound double_or_raise 2 [1; 0; 5]
           [Anext; Anext; Start 0; Start 1]).
  reflexivity.
Defined.

(** The failing transform of the example: the exception reaches the
    awaiter of the handle, and the semaphore is not touched. *)
Lemma finish_outcome_witness :
  ∃ s h, run double_or_raise [Anext; Start 0] (init 1 [0; 1]) = Some s
    ∧ handles s !! 0 = Some h ∧ h_phase h = Submitted
    ∧ ∃ s', step double_or_raise (Finish 0) s = Some s'
        ∧ match double_or_raise (h_item h) with
          | inr e =>
              awaited s' 0 = Some (inr e)
              ∧ back_pressure s' = back_pressure s
          | inl r =>
              awaited s' 0 = Some (inl r)
              ∧ value (back_pressure s') = S (value (back_pressure s))
          end.
Proof.
  eexists. eexists. split; [reflexivity|]. split; [reflexivity|].
  split; [reflexivity|].
  apply (finish_outcome double_or_raise 1 [0; 1] [Anext; Start 0]);
    reflexivity.
Defined.

(** C2 fails as worded. A mapper of capacity one over [0; 1]: the transform
    of the first item raises; the awaiter of its handle gets the exception,
    but the unit the handle took is not given back, and from then on no
    step of the mapper is possible: the next [__anext__] waits for a unit
    for ever. *)
Lemma release_on_failure_counterexample :
  ∃ s s', run double_or_raise [Anext; Start 0] (init 1 [0; 1]) = Some s
    ∧ step double_or_raise (Finish 0) s = Some s'
    ∧ awaited s' 0 = Some (inr "ZeroDivisionError"%string)
    ∧ ¬ releases_on_failure double_or_raise s 0
    ∧ value (back_pressure s') = 0
    ∧ ∀ ev, step double_or_raise ev s' = None.
Proof.
  eexists. eexists. split; [reflexivity|]. split; [reflexivity|].
  split; [reflexivity|]. split; [|split; [reflexivity|]].
  - intros Hrel.
    destruct (Hrel _ _ _ eq_refl eq_refl eq_refl eq_refl) as [_ Hv].
    simpl in Hv. discriminate Hv.
  - intros [|[|i]|[|i]]; reflexivity.
Qed.

End MapperFacts.

(** ** The grouper *)

Module GrouperFacts.
Import Grouper.

Section zip_longest.
Context {X : Type}.
Implicit Types (fillvalue : X) (it : list X) (slots : list (option nat))
  (store : list (list X)).

(** A pass in which every slot holds the one iterator of the store. *)
Lemma pull_live fillvalue a it :
  pull fillvalue (replicate a (Some 0)) [it]
  = (take a it ++ replicate (a - length it) fillvalue,
     replicate (a `min` length it) (Some 0)
       ++ replicate (a - length it) None,
     a - length it,
     [drop a it]).
Proof.
  revert it. induction a as [|a IH]; intros it; [by destruct it|].
  destruct it as [|x rest]; simpl.
  - rewrite (IH []). simpl.
    by rewrite Nat.sub_0_r, Nat.min_0_r, take_nil, drop_nil.
  - by rewrite (IH rest).
Qed.

(** A pass over exhausted iterators finishes every slot that holds one. *)
Lemma pull_exhausted fillvalue slots store :
  Forall (λ it, it = []) store →
  pull fillvalue slots store
  = (replicate (length slots) fillvalue,
     replicate (length slots) None,
     length (filter is_Some slots),
     store).
Proof.
  intros Hstore. induction slots as [|[i|] slots IH]; [done| |].
  - rewrite filter_cons, decide_True by eauto. simpl.
    destruct (store !! i) as [[|x rest]|] eqn:Hi.
    + by rewrite IH.
    + by eapply Forall_lookup_1 in Hstore; [|done].
    + by rewrite IH.
  - rewrite filter_cons, decide_False by apply is_Some_None.
    simpl. by rewrite IH.
Qed.

(** A pass in which every slot holds an iterator of its own, all of them
    at the same place: slots [j ..] over a store whose first [j] iterators
    have moved on already. *)
Lemma pull_own fillvalue x rest m j :
  pull fillvalue (Some <$> seq j m)
       (replicate j rest ++ replicate m (x :: rest))
  = (replicate m x, Some <$> seq j m, 0, replicate (j + m) rest).
Proof.
  revert j. induction m as [|m IH]; intros j.
  - simpl. by rewrite app_nil_r, Nat.add_0_r.
  - simpl.
    rewrite lookup_app_r by (rewrite length_replicate; lia).
    rewrite length_replicate, Nat.sub_diag. simpl.
    rewrite insert_app_r_alt by (rewrite length_replicate; lia).
    rewrite length_replicate, Nat.sub_diag. simpl.
    rewrite (cons_middle rest), app_assoc.
    change [rest] with (replicate 1 rest). rewrite <-replicate_add.
    replace (j + 1) with (S j) by lia.
    pose proof (IH (S j)) as IHj. unfold fmap in IHj. rewrite IHj.
    by replace (S j + m) with (j + S m) by lia.
Qed.

Lemma loop_full fuel fillvalue n it :
  0 < n → n ≤ length it →
  zip_longest_loop (S fuel) fillvalue n (replicate n (Some 0)) 0 [it]
  = groups ← zip_longest_loop fuel fillvalue n (replicate n (Some 0)) 0
                              [drop n it];
    Some (take n it :: groups).
Proof.
  intros Hn Hlen. simpl. rewrite pull_live.
  replace (n - length it) with 0 by lia.
  replace (n `min` length it) with n by lia.
  simpl. rewrite !app_nil_r. case_decide; [lia|done].
Qed.

Lemma loop_exhausted fuel fillvalue n slots finished store :
  Forall (λ it, it = []) store →
  n ≤ finished + length (filter is_Some slots) →
  zip_longest_loop (S fuel) fillvalue n slots finished store = Some [].
Proof.
  intros Hstore Hfin. simpl. rewrite pull_exhausted by done.
  by case_decide.
Qed.

Lemma live_slots a b :
  length (filter is_Some (replicate a (Some 0) ++ replicate b None)) = a.
Proof.
  rewrite filter_app, length_app.
  assert (Ht : ∀ a, filter is_Some (replicate a (Some 0))
                    = replicate a (Some 0)).
  { clear. induction a as [|a IH]; [done|]. simpl.
    rewrite filter_cons, decide_True by eauto. by rewrite IH. }
  assert (Hf : ∀ b, filter is_Some (replicate b (@None nat)) = []).
  { clear. induction b as [|b IH]; [done|]. simpl.
    by rewrite filter_cons, decide_False by apply is_Some_None. }
  rewrite Ht, Hf, length_replicate. simpl. lia.
Qed.

Lemma loop_partial fuel fillvalue n it :
  0 < length it → length it < n →
  zip_longest_loop (S (S fuel)) fillvalue n (replicate n (Some 0)) 0 [it]
  = Some [it ++ replicate (n - length it) fillvalue].
Proof.
  intros Hpos Hlen.
  change (zip_longest_loop (S (S fuel)) fillvalue n (replicate n (Some 0))
                           0 [it])
    with (let '(values, slots', k, store') :=
              pull fillvalue (replicate n (Some 0)) [it] in
          if decide (n ≤ 0 + k) then Some []
          else groups ← zip_longest_loop (S fuel) fillvalue n slots'
                                         (0 + k) store';
               Some (values :: groups)).
  rewrite pull_live. case_decide; [lia|].
  rewrite drop_ge by lia. rewrite loop_exhausted.
  - simpl. by rewrite take_ge by lia.
  - by apply Forall_singleton.
  - rewrite live_slots. lia.
Qed.

Lemma ceil_div_0 n : 0 < n → ceil_div 0 n = 0.
Proof. intros. unfold ceil_div. apply Nat.div_small. lia. Qed.

Lemma ceil_div_small L n : 0 < L → L ≤ n → ceil_div L n = 1.
Proof.
  intros. unfold ceil_div. symmetry.
  apply (Nat.div_unique _ _ _ (L - 1)); lia.
Qed.

Lemma ceil_div_step L n : 0 < n → n ≤ L → ceil_div L n = S (ceil_div (L - n) n).
Proof.
  intros. unfold ceil_div.
  replace (L + n - 1) with ((L - n + n - 1) + 1 * n) by lia.
  rewrite Nat.div_add by lia. lia.
Qed.

(** Over one shared iterator and with enough fuel the loop ends, having
    yielded the blocks of [n] consecutive elements in order, the last one
    filled up. *)
Lemma zip_longest_loop_blocks fillvalue n it fuel :
  0 < n → length it < fuel →
  ∃ groups,
    zip_longest_loop fuel fillvalue n (replicate n (Some 0)) 0 [it]
    = Some groups
    ∧ length groups = ceil_div (length it) n
    ∧ (∀ i, i < length groups →
         groups !! i = Some (padded fillvalue n (take n (drop (i * n) it))))
    ∧ (∀ (P : X → Prop) (HP : ∀ x, Decision (P x)),
         ¬ P fillvalue → concat (filter P <$> groups) = filter P it).
Proof.
  intros Hn. remember (length it) as L eqn:HL. revert it fuel HL.
  induction L as [L IH] using lt_wf_ind. intros it fuel -> Hfuel.
  destruct fuel as [|fuel]; [lia|].
  destruct (decide (length it = 0)) as [H0|H0].
  { apply nil_length_inv in H0 as ->. exists [].
    rewrite loop_exhausted.
    - split; [done|]. split; [by rewrite ceil_div_0|].
      split; [intros i Hi; simpl in Hi; lia|done].
    - by apply Forall_singleton.
    - pose proof (live_slots n 0) as Hlive. simpl in Hlive.
      rewrite app_nil_r in Hlive. rewrite Hlive. lia. }
  destruct (decide (length it < n)) as [Hlt|Hge].
  { destruct fuel as [|fuel]; [lia|]. eexists.
    rewrite loop_partial by lia. split; [done|].
    split; [by rewrite ceil_div_small by lia|]. split.
    - intros [|i] Hi; [|simpl in Hi; lia].
      change (0 * n) with 0. rewrite drop_0, (take_ge it n) by lia. done.
    - intros P HP HPf. simpl. rewrite app_nil_r, filter_app.
      assert (Hrep : ∀ k, filter P (replicate k fillvalue) = []).
      { induction k as [|k IHk]; [done|]. simpl.
        rewrite filter_cons. by case_decide. }
      by rewrite Hrep, app_nil_r. }
  destruct (IH (length it - n) ltac:(lia) (drop n it) fuel)
    as (groups & Hloop & Hlen & Hidx & Hcat).
  { rewrite length_drop. lia. }
  { lia. }
  exists (take n it :: groups). rewrite loop_full, Hloop by lia.
  split; [done|]. split; [|split].
  - simpl. rewrite Hlen. by rewrite (ceil_div_step (length it)) by lia.
  - intros [|i] Hi.
    + change (0 * n) with 0. rewrite drop_0. unfold padded.
      rewrite length_take.
      replace (n - n `min` length it) with 0 by lia.
      by rewrite app_nil_r.
    + simpl in Hi. simpl. rewrite Hidx by lia. by rewrite drop_drop.
  - intros P HP HPf. rewrite fmap_cons, concat_cons.
    rewrite (Hcat P HP HPf), <-filter_app. by rewrite take_drop.
Qed.

(** Over [n] iterators of their own, all at the start of the same
    elements, the loop yields one tuple for each element: [n] copies of
    it. *)
Lemma zip_longest_loop_copies fillvalue n l :
  0 < n →
  zip_longest_loop (S (length l)) fillvalue n (Some <$> seq 0 n) 0
                   (replicate n l)
  = Some (replicate n <$> l).
Proof.
  intros Hn. induction l as [|x rest IH].
  - rewrite loop_exhausted; [done| |].
    + apply Forall_forall. intros it Hin.
      by apply elem_of_replicate in Hin as [-> _].
    + assert (Hall : ∀ j m, filter is_Some (Some <$> seq j m)
                            = Some <$> seq j m).
      { clear. intros j m. revert j. induction m as [|m IH]; intros j;
          [done|].
        simpl. rewrite filter_cons, decide_True by eauto.
        by rewrite IH. }
      rewrite Hall, length_fmap, length_seq. lia.
  - change (zip_longest_loop (S (length (x :: rest))) fillvalue n
                             (Some <$> seq 0 n) 0 (replicate n (x :: rest)))
      with (let '(values, slots', k, store') :=
                pull fillvalue (Some <$> seq 0 n)
                     (replicate 0 rest ++ replicate n (x :: rest)) in
            if decide (n ≤ 0 + k) then Some []
            else groups ← zip_longest_loop (S (length rest)) fillvalue n
                                           slots' (0 + k) store';
                 Some (values :: groups)).
    rewrite pull_own. case_decide; [lia|].
    change (0 + 0) with 0. change (0 + n) with n. by rewrite IH.
Qed.

End zip_longest.

Section grouper.
Context {A : Type}.
Implicit Types (it l : list (option A)).

Lemma ceil_div_eq L n :
  0 < n →
  ceil_div L n = L / n + (if decide (L `mod` n = 0) then 0 else 1).
Proof.
  intros Hn. unfold ceil_div.
  pose proof (Nat.div_mod_eq L n) as Hdm.
  pose proof (Nat.mod_upper_bound L n ltac:(lia)) as Hr.
  symmetry. case_decide.
  - apply (Nat.div_unique _ _ _ (n - 1)); lia.
  - apply (Nat.div_unique _ _ _ (L `mod` n - 1)); lia.
Qed.

Lemma filter_not_None_id l :
  None ∉ l → filter is_not_None l = l.
Proof.
  induction l as [|x l IH]; intros Hnone; [done|].
  rewrite filter_cons. case_decide as Hx.
  - rewrite IH; [done|]. set_solver.
  - exfalso. apply Hnone. destruct x; [by destruct Hx|]. set_solver.
Qed.

(** What the grouper gives on any iterator: the blocks of [n] consecutive
    elements, in order, each without its [None] entries. *)
Lemma grouper_blocks it n :
  0 < n →
  ∃ groups,
    grouper (Iterator it) n None = Some groups
    ∧ length groups = ceil_div (length it) n
    ∧ (∀ i, i < length groups →
         groups !! i
         = Some (filter is_not_None (take n (drop (i * n) it))))
    ∧ concat groups = filter is_not_None it.
Proof.
  intros Hn.
  destruct (zip_longest_loop_blocks None n it (S (length it)))
    as (tuples & Hloop & Hlen & Hidx & Hcat); [done|lia|].
  exists ((λ group, filter is_not_None group) <$> tuples).
  unfold grouper, zip_longest, its, elements. rewrite Hloop. simpl.
  split; [done|]. split; [by rewrite length_fmap|]. split.
  - intros i Hi. rewrite length_fmap in Hi.
    rewrite list_lookup_fmap, (Hidx i Hi). simpl. f_equal.
    unfold padded. rewrite filter_app.
    assert (Hrep : ∀ k, filter is_not_None (replicate k (@None A)) = []).
    { induction k as [|k IHk]; [done|]. simpl.
      rewrite filter_cons. case_decide as Hk; [by destruct Hk|done]. }
    by rewrite Hrep, app_nil_r.
  - apply (Hcat is_not_None _). by intros [].
Qed.

(** C3, for the inputs it holds on. For every chunk size [n >= 1] and
    every finite input that is given as an iterator, as the mapper is in
    [multi], and none of whose elements is [None], the grouper (with its
    default fill value) ends and gives [ceil(L / n)] groups; the group at
    position [i] is the block of [n] elements that starts at position
    [i * n] of the input, so every group has [n] elements, except the last
    when [L mod n] is not zero, which has [L mod n]; and the groups put
    together give back the input in order. *)
Theorem grouper_contract it n :
  0 < n → None ∉ it → chunker_contract (Iterator it) n.
Proof.
  intros Hn Hnone.
  destruct (grouper_blocks it n Hn)
    as (groups & Hg & Hlen & Hidx & Hcat).
  exists groups. simpl. split; [done|]. split; [done|]. split.
  - intros i g Hi.
    assert (Hlt : i < length groups) by by eapply lookup_lt_Some.
    rewrite (Hidx i Hlt) in Hi. simplify_eq.
    assert (Hsub : None ∉ take n (drop (i * n) it)).
    { intros Hin. apply Hnone.
      by apply (subseteq_drop (i * n)), (subseteq_take n). }
    rewrite filter_not_None_id by done. split; [done|].
    rewrite length_take, length_drop, Hlen, ceil_div_eq by done.
    rewrite Hlen, ceil_div_eq in Hlt by done.
    pose proof (Nat.div_mod_eq (length it) n) as Hdm.
    pose proof (Nat.mod_upper_bound (length it) n ltac:(lia)) as Hr.
    set (q := length it / n) in *.
    set (r := length it `mod` n) in *.
    destruct (decide (r = 0)) as [Hr0|Hr0].
    + rewrite decide_False by tauto.
      assert (i * n + n ≤ q * n) by nia. lia.
    + destruct (decide (i = q)) as [->|Hiq].
      * rewrite decide_True by (split; [lia|done]). nia.
      * rewrite decide_False by (intros [? ?]; lia).
        assert (i * n + n ≤ q * n) by nia. lia.
  - by rewrite Hcat, filter_not_None_id.
Qed.

End grouper.

(** Seven elements from an iterator in chunks of three. *)
Lemma grouper_contract_witness :
  0 < 3
  ∧ (None ∉ [Some 1; Some 2; Some 3; Some 4; Some 5; Some 6; Some 7])
  ∧ grouper (Iterator [Some 1; Some 2; Some 3; Some 4; Some 5; Some 6;
                       Some 7]) 3 None
    = Some [[Some 1; Some 2; Some 3]; [Some 4; Some 5; Some 6]; [Some 7]]
  ∧ chunker_contract
      (Iterator [Some 1; Some 2; Some 3; Some 4; Some 5; Some 6; Some 7]) 3.
Proof.
  assert (Hnone : None ∉ [Some 1; Some 2; Some 3; Some 4; Some 5; Some 6;
                          Some 7]).
  { intros Hin. repeat (apply elem_of_cons in Hin as [Hin|Hin];
                        [discriminate Hin|]).
    by apply elem_of_nil in Hin. }
  split; [lia|]. split; [exact Hnone|]. split; [reflexivity|].
  apply (grouper_contract _ 3); [lia | exact Hnone].
Defined.

(** C3 fails on two kinds of input. Given a sequence, every slot of
    [zip_longest] iterates it on its own, so the list [[1; 2]] in chunks
    of two gives the two groups [[1; 1]] and [[2; 2]], not the one group
    [[1; 2]]. And the grouper takes every [None] for padding: with chunks
    of one, an iterator over [None] and [1] gives the groups [[]] and
    [[1]], the first group is empty and the groups put together are not
    the input. *)
Lemma grouper_contract_counterexample :
  grouper (Sequence [Some 1; Some 2]) 2 None
  = Some [[Some 1; Some 1]; [Some 2; Some 2]]
  ∧ ¬ chunker_contract (Sequence [Some 1; Some 2]) 2
  ∧ grouper (Iterator [None; Some 1]) 1 None = Some [[]; [Some 1]]
  ∧ ¬ chunker_contract (Iterator [None; Some 1]) 1.
Proof.
  split; [reflexivity|]. split; [|split; [reflexivity|]].
  - intros (groups & Hg & Hlen & _).
    vm_compute in Hg. injection Hg as <-. discriminate Hlen.
  - intros (groups & Hg & _ & _ & Hcat).
    vm_compute in Hg. injection Hg as <-. discriminate Hcat.
Qed.

End GrouperFacts.

(** ** The key-grouping merge *)

Module MergeFacts.
Import Projection.

Implicit Types (d : odict value (list doc)) (i : doc) (k : value).
Implicit Types (items g : list doc) (key f : string).

Lemma dict_append_keys k kv i d :
  k ∈ (dict_append kv i d).*1 ↔ k = kv ∨ k ∈ d.*1.
Proof.
  induction d as [|[k' l] d IH]; simpl.
  - rewrite elem_of_cons, elem_of_nil. tauto.
  - case_decide; simplify_eq/=; rewrite !elem_of_cons; [|rewrite IH]; tauto.
Qed.

Lemma dict_append_NoDup kv i d :
  NoDup d.*1 → NoDup (dict_append kv i d).*1.
Proof.
  induction d as [|[k' l] d IH]; simpl; intros Hnd.
  - apply NoDup_singleton.
  - apply NoDup_cons in Hnd as [Hk' Hnd]. case_decide; simpl.
    + by apply NoDup_cons.
    + apply NoDup_cons. split; [|auto].
      rewrite dict_append_keys. intros [->|?]; done.
Qed.

Lemma dict_append_get k kv i d :
  default [] (dict_get k (dict_append kv i d))
  = default [] (dict_get k d) ++ (if decide (k = kv) then [i] else []).
Proof.
  induction d as [|[k' l] d IH]; simpl.
  - repeat case_decide; simplify_eq; done.
  - repeat (case_decide; simplify_eq/=); try done;
      by rewrite app_nil_r.
Qed.

Lemma dict_get_elem {V} k (v : V) (d : odict value V) :
  NoDup d.*1 → (k, v) ∈ d → dict_get k d = Some v.
Proof.
  induction d as [|[k' v'] d IH]; simpl; intros Hnd Hin.
  - by apply elem_of_nil in Hin.
  - apply NoDup_cons in Hnd as [Hk' Hnd].
    apply elem_of_cons in Hin as [Heq|Hin]; simplify_eq.
    + by rewrite decide_True.
    + case_decide as Hk; [|auto]. subst k'. exfalso. apply Hk'.
      apply list_elem_of_fmap. by exists (k, v).
Qed.

Lemma key_group_cons key k i items :
  key_group key k (i :: items)
  = (if decide (i !! key = Some k) then [i] else []) ++ key_group key k items.
Proof. unfold key_group. rewrite filter_cons. by case_decide. Qed.

(** The first loop of [process_item]: it ends without an error when every
    record carries the key field, and then the dict it has filled has one
    entry for every key value met, holding the records of that key value in
    the order they came in. *)
Lemma sort_by_key_groups key items d :
  Forall (λ i, is_Some (i !! key)) items → NoDup d.*1 →
  ∃ sorted,
    sort_by_key key items d = inr sorted
    ∧ NoDup sorted.*1
    ∧ (∀ k, k ∈ sorted.*1 ↔ k ∈ d.*1 ∨ ∃ i, i ∈ items ∧ i !! key = Some k)
    ∧ (∀ k, default [] (dict_get k sorted)
            = default [] (dict_get k d) ++ key_group key k items).
Proof.
  intros Hall. revert d.
  induction Hall as [|i items [kv Hkv] Hall IH]; intros d Hnd; simpl.
  - exists d. split; [done|]. split; [done|]. split.
    + intros k. split; [by left|]. intros [?|(i & Hi & _)]; [done|].
      by apply elem_of_nil in Hi.
    + intros k. by rewrite app_nil_r.
  - rewrite Hkv.
    destruct (IH (dict_append kv i d) (dict_append_NoDup _ _ _ Hnd))
      as (sorted & Hs & Hnd' & Hkeys & Hget).
    exists sorted. split; [done|]. split; [done|]. split.
    + intros k. rewrite Hkeys, dict_append_keys. split.
      * intros [[->|?]|(j & Hj & Hjk)]; [right|by left|right].
        -- exists i. split; [by left|done].
        -- exists j. split; [by right|done].
      * intros [?|(j & Hj & Hjk)]; [left; by right|].
        apply elem_of_cons in Hj as [->|Hj].
        -- left. left. congruence.
        -- right. by exists j.
    + intros k. rewrite Hget, dict_append_get, key_group_cons, Hkv.
      rewrite <-app_assoc. f_equal. f_equal.
      repeat case_decide; simplify_eq; done.
Qed.

(** [process_item] on records that all carry the key field: the groups it
    merges. *)
Lemma process_item_groups self items :
  Forall (λ i, is_Some (i !! key (target self))) items →
  ∃ sorted,
    process_item self items
    = inr ((λ ki, merge_group (key (target self)) ki.1 ki.2) <$> sorted)
    ∧ NoDup sorted.*1
    ∧ (∀ k, k ∈ sorted.*1
            ↔ ∃ i, i ∈ items ∧ i !! key (target self) = Some k)
    ∧ (∀ k g, (k, g) ∈ sorted → g = key_group (key (target self)) k items).
Proof.
  intros Hall.
  destruct (sort_by_key_groups _ _ [] Hall (NoDup_nil_2))
    as (sorted & Hs & Hnd & Hkeys & Hget).
  exists sorted. unfold process_item. rewrite Hs.
  split; [done|]. split; [done|]. split.
  - intros k. rewrite Hkeys. split; [|by right].
    intros [Hk|?]; [|done]. by apply elem_of_nil in Hk.
  - intros k g Hin. specialize (Hget k).
    by rewrite (dict_get_elem _ _ _ Hnd Hin) in Hget.
Qed.

Lemma merge_group_key key k g : merge_group key k g !! key = Some k.
Proof. unfold merge_group. apply lookup_insert_eq. Qed.

Lemma merge_group_other key k g f :
  f ≠ key → merge_group key k g !! f = foldl update ∅ g !! f.
Proof. intros. unfold merge_group. by rewrite lookup_insert_ne. Qed.

(** Who wrote field [f] of the accumulator: the last record of the group
    that has the field, or else the accumulator it started from. *)
Lemma foldl_update_lookup f (v : value) (target_doc : doc) g :
  foldl update target_doc g !! f = Some v
  ↔ (∃ g1 i g2, g = g1 ++ i :: g2 ∧ i !! f = Some v
                ∧ Forall (λ j : doc, j !! f = None) g2)
    ∨ (target_doc !! f = Some v ∧ Forall (λ j : doc, j !! f = None) g).
Proof.
  induction g as [|i g IH] using rev_ind.
  - simpl. split.
    + intros ?. right. by split.
    + intros [(g1 & i & g2 & Hg & _)|[? _]]; [|done].
      by destruct g1.
  - rewrite foldl_app. simpl. unfold update at 1.
    rewrite lookup_union_Some_raw, IH. split.
    + intros [Hi|[Hi [(g1 & j & g2 & -> & Hj & Hg2)|[Hacc Hg]]]].
      * left. exists g, i, []. by repeat split.
      * left. exists g1, j, (g2 ++ [i]). rewrite <-app_assoc. simpl.
        repeat split; [done|]. apply Forall_app. split; [done|].
        by apply Forall_singleton.
      * right. split; [done|]. apply Forall_app. split; [done|].
        by apply Forall_singleton.
    + intros [(g1 & j & g2 & Hg & Hj & Hg2)|[Hacc Hg]].
      * destruct g2 as [|x g2 _] using rev_ind.
        -- apply app_inj_tail in Hg as [-> ->]. by left.
        -- rewrite app_comm_cons, app_assoc in Hg.
           apply app_inj_tail in Hg as [-> ->].
           apply Forall_app in Hg2 as [Hg2 Hx].
           rewrite Forall_singleton in Hx. right. split; [done|].
           left. by exists g1, j, g2.
      * apply Forall_app in Hg as [Hg Hi].
        rewrite Forall_singleton in Hi. right. split; [done|]. by right.
Qed.

(** C4. On records that all carry the key field, [process_item] returns
    one merged record for every distinct key value of the input, no more
    and no fewer: the key values of the output records have no duplicate,
    and they are exactly the key values that occur in the input. *)
Theorem process_item_one_per_key self items :
  Forall (λ i, is_Some (i !! key (target self))) items →
  ∃ out ks,
    process_item self items = inr out
    ∧ Forall2 (λ (d : doc) k, d !! key (target self) = Some k) out ks
    ∧ NoDup ks
    ∧ (∀ k, k ∈ ks ↔ ∃ i, i ∈ items ∧ i !! key (target self) = Some k)
    ∧ length out
      = length (remove_dups (omap (λ i : doc, i !! key (target self)) items)).
Proof.
  intros Hall.
  destruct (process_item_groups self items Hall)
    as (sorted & Hp & Hnd & Hkeys & _).
  eexists _, sorted.*1. split; [exact Hp|]. split; [|split; [done|]].
  - apply Forall2_fmap, Forall_Forall2_diag, Forall_forall.
    intros [k g] _. apply merge_group_key.
  - split; [done|]. rewrite length_fmap, <-(length_fmap fst sorted).
    apply Permutation_length, NoDup_Permutation;
      [done | apply NoDup_remove_dups |].
    intros k. rewrite Hkeys, elem_of_remove_dups, list_elem_of_omap.
    done.
Qed.

(** The merge of the key group of [k]: last writer wins, key written
    last. *)
Lemma merge_group_last_write_wins key k items :
  last_write_wins key items k (merge_group key k (key_group key k items)).
Proof.
  split; [done|]. split; [apply merge_group_key|].
  split; [intros; apply merge_group_key|].
  intros f v Hf. rewrite merge_group_other, foldl_update_lookup by done.
  split; [|by left]. intros [?|[Hempty _]]; [done|].
  by rewrite lookup_empty in Hempty.
Qed.

(** C5. On records that all carry the key field, [process_item] returns
    for every key group, that is for every key value [k] some record of
    the input has, the merged record of that group, and it returns nothing
    else. The merged record is made of the records of the input with the
    key value [k], taken in the order they came in and written one after
    the other over an empty accumulator, the key field being written last.
    So a field other than the key has the value [v] in the merged record
    exactly when the last record of the group that has the field gives it
    the value [v]; and the key field holds the key value of the group,
    whatever group is merged. *)
Theorem merge_last_write_wins self items :
  Forall (λ i, is_Some (i !! key (target self))) items →
  ∃ out,
    process_item self items = inr out
    ∧ (∀ k, (∃ i, i ∈ items ∧ i !! key (target self) = Some k) →
         ∃ d : doc,
           d ∈ out ∧ last_write_wins (key (target self)) items k d)
    ∧ (∀ d : doc, d ∈ out →
         ∃ k,
           (∃ i, i ∈ items ∧ i !! key (target self) = Some k)
           ∧ last_write_wins (key (target self)) items k d).
Proof.
  intros Hall.
  destruct (process_item_groups self items Hall)
    as (sorted & Hp & Hnd & Hkeys & Hgroups).
  eexists. split; [exact Hp|]. split.
  - intros k Hk. apply Hkeys in Hk.
    apply list_elem_of_fmap in Hk as ([k' g] & -> & Hin). simpl.
    exists (merge_group (key (target self)) k' g). split.
    + apply list_elem_of_fmap. by exists (k', g).
    + rewrite (Hgroups k' g Hin). apply merge_group_last_write_wins.
  - intros d Hd.
    apply list_elem_of_fmap in Hd as ([k g] & -> & Hin). simpl.
    exists k. split.
    + apply Hkeys. apply list_elem_of_fmap. by exists (k, g).
    + rewrite (Hgroups k g Hin). apply merge_group_last_write_wins.
Qed.

(** C6. When the key group of [k] is the single record [r], the merged
    record for [k] is [r] with the key field set to [k]: it agrees with [r]
    on every other field. *)
Theorem merge_singleton_group self items k (r : doc) :
  Forall (λ i, is_Some (i !! key (target self))) items →
  key_group (key (target self)) k items = [r] →
  ∃ out (d : doc),
    process_item self items = inr out
    ∧ d ∈ out
    ∧ (∀ d' : doc, d' ∈ out → d' !! key (target self) = Some k → d' = d)
    ∧ d = <[key (target self) := k]> r
    ∧ d !! key (target self) = Some k
    ∧ (∀ f, f ≠ key (target self) → d !! f = r !! f).
Proof.
  intros Hall Hgroup.
  destruct (process_item_groups self items Hall)
    as (sorted & Hp & Hnd & Hkeys & Hgroups).
  assert (Hmerge : merge_group (key (target self)) k [r]
                   = <[key (target self) := k]> r).
  { unfold merge_group, update. simpl. by rewrite (right_id ∅ (∪)). }
  assert (Hk : k ∈ sorted.*1).
  { apply Hkeys. exists r.
    assert (Hr : r ∈ key_group (key (target self)) k items)
      by (rewrite Hgroup; apply list_elem_of_here).
    unfold key_group in Hr. by apply list_elem_of_filter in Hr as [? ?]. }
  apply list_elem_of_fmap in Hk as ([k' g] & Hk' & Hin). simpl in Hk'.
  subst k'. pose proof (Hgroups k g Hin) as Hg. rewrite Hgroup in Hg.
  subst g.
  eexists _, (<[key (target self) := k]> r). split; [exact Hp|].
  split; [|split; [|split; [done|split]]].
  - apply list_elem_of_fmap. exists (k, [r]). by split.
  - intros d' Hd' Hkey.
    apply list_elem_of_fmap in Hd' as ([k' g'] & -> & Hin').
    simpl in Hkey. rewrite merge_group_key in Hkey. simplify_eq.
    simpl. by rewrite (Hgroups k g' Hin'), Hgroup.
  - apply lookup_insert_eq.
  - intros f Hf. by rewrite lookup_insert_ne.
Qed.

Lemma example_items_keyed :
  Forall (λ i : doc, is_Some (i !! key (target example_builder)))
         example_items.
Proof. repeat constructor; by eexists. Qed.

(** The example run: three records, two key values, two merged records. *)
Lemma process_item_one_per_key_witness :
  Forall (λ i : doc, is_Some (i !! key (target example_builder)))
         example_items
  ∧ ∃ out ks,
      process_item example_builder example_items = inr out
      ∧ Forall2 (λ (d : doc) k, d !! key (target example_builder) = Some k)
                out ks
      ∧ NoDup ks
      ∧ (∀ k, k ∈ ks
              ↔ ∃ i, i ∈ example_items
                     ∧ i !! key (target example_builder) = Some k)
      ∧ length out
        = length (remove_dups
                    (omap (λ i : doc, i !! key (target example_builder))
                          example_items)).
Proof.
  split; [exact example_items_keyed|].
  apply (process_item_one_per_key example_builder example_items).
  exact example_items_keyed.
Defined.

(** The example run: both key groups are merged, the record of key [1]
    from the two records that have it. *)
Lemma merge_last_write_wins_witness :
  Forall (λ i : doc, is_Some (i !! key (target example_builder)))
         example_items
  ∧ ∃ out,
      process_item example_builder example_items = inr out
      ∧ (∀ k, (∃ i, i ∈ example_items
                    ∧ i !! key (target example_builder) = Some k) →
           ∃ d : doc,
             d ∈ out
             ∧ last_write_wins (key (target example_builder))
                               example_items k d)
      ∧ (∀ d : doc, d ∈ out →
           ∃ k,
             (∃ i, i ∈ example_items
                   ∧ i !! key (target example_builder) = Some k)
             ∧ last_write_wins (key (target example_builder))
                               example_items k d).
Proof.
  split; [exact example_items_keyed|].
  apply (merge_last_write_wins example_builder example_items).
  exact example_items_keyed.
Defined.

(** The key value [2] of the example run has one record. *)
Lemma merge_singleton_group_witness :
  Forall (λ i : doc, is_Some (i !! key (target example_builder)))
         example_items
  ∧ key_group (key (target example_builder)) (VInt 2) example_items
    = [ {[ "k" := VInt 2; "b" := VStr "baz" ]} ]
  ∧ ∃ out (d : doc),
      process_item example_builder example_items = inr out
      ∧ d ∈ out
      ∧ (∀ d' : doc, d' ∈ out →
           d' !! key (target example_builder) = Some (VInt 2) → d' = d)
      ∧ d = <[key (target example_builder) := VInt 2]>
              ({[ "k" := VInt 2; "b" := VStr "baz" ]} : doc)
      ∧ d !! key (target example_builder) = Some (VInt 2)
      ∧ (∀ f, f ≠ key (target example_builder) →
           d !! f
           = ({[ "k" := VInt 2; "b" := VStr "baz" ]} : doc) !! f).
Proof.
  split; [exact example_items_keyed|]. split; [reflexivity|].
  apply (merge_singleton_group example_builder example_items (VInt 2));
    [exact example_items_keyed | reflexivity].
Defined.

End MergeFacts.

(** ** The target commit stage *)

Module CommitFacts.
Import Projection.

Implicit Types (self : Projection_Builder) (items : list doc) (w : world).

Lemma update_targets_unfold self items w :
  update_targets self items w
  = let t := clock w (clock_reads w) in
    let items' :=
      (λ item : doc, <[last_updated_field (target self) := VTime t]> item)
      <$> items in
    (inr items',
     {| trace := trace w
                 ++ (if decide (0 < length items) then [Update items']
                     else []);
        clock := clock w;
        clock_reads := S (clock_reads w) |}).
Proof.
  unfold update_targets, mbind, M_bind, bind, utcnow, emit, ret. simpl.
  case_decide; simpl; [done|]. by rewrite app_nil_r.
Qed.

(** C7. One call of [update_targets] reads the clock once, and every
    record of the call comes out with its last-updated field holding that
    one reading, whatever the field held before; the other fields are left
    as they were. *)
Theorem update_targets_single_timestamp self items w :
  ∃ t items' w',
    update_targets self items w = (inr items', w')
    ∧ t = clock w (clock_reads w)
    ∧ clock_reads w' = S (clock_reads w)
    ∧ length items' = length items
    ∧ Forall (λ item' : doc,
                item' !! last_updated_field (target self) = Some (VTime t))
             items'
    ∧ Forall2 (λ item item' : doc,
                 ∀ f, f ≠ last_updated_field (target self) →
                      item' !! f = item !! f)
              items items'.
Proof.
  rewrite update_targets_unfold. simpl. eexists _, _, _.
  split; [done|]. split; [done|]. split; [done|].
  split; [by rewrite length_fmap|]. split.
  - apply Forall_fmap, Forall_forall. intros item _. simpl.
    apply lookup_insert_eq.
  - apply Forall2_fmap_r, Forall_Forall2_diag, Forall_forall.
    intros item _ f Hf. by rewrite lookup_insert_ne.
Qed.

(** C8. [update_targets] never raises; on the empty list it leaves the
    trace as it was, so the sink is not called; on a list that is not empty
    it adds one event to the trace, the one [update] call on the sink, with
    the stamped records. *)
Theorem update_targets_sink_calls self items w :
  ∃ items' w',
    update_targets self items w = (inr items', w')
    ∧ match items with
      | [] => trace w' = trace w
      | _ :: _ => trace w' = trace w ++ [Update items']
      end.
Proof.
  rewrite update_targets_unfold. simpl. eexists _, _. split; [done|].
  destruct items; simpl; [by rewrite app_nil_r|done].
Qed.

End CommitFacts.

(** ** The constructor *)

Module InitFacts.
Import Projection.

(** C9. The constructor raises [TypeError] when [source_stores] is not a
    list, and [ValueError] when [source_stores] is a list and
    [fields_to_project] is a list of another length; in both cases the
    world is as it was before the call: no store has been touched. *)
Theorem init_rejects_before_io source_stores target_store fields_to_project
    query_by_key' chunk_size' w :
  ((∀ srcs, source_stores ≠ SourcesList srcs) →
     init source_stores target_store fields_to_project query_by_key'
          chunk_size' w
     = (inl TypeError, w))
  ∧ (∀ srcs f,
       source_stores = SourcesList srcs →
       fields_to_project = FieldsList f →
       length srcs ≠ length f →
       init source_stores target_store fields_to_project query_by_key'
            chunk_size' w
       = (inl ValueError, w)).
Proof.
  split.
  - intros Hnot. destruct source_stores as [srcs| |]; [|done..].
    by destruct (Hnot srcs).
  - intros srcs f -> -> Hlen. unfold init, mbind, M_bind, bind, raise.
    by rewrite decide_True.
Qed.

(** A tuple of stores is turned down, and so is one field specification
    for two stores; the trace stays empty. *)
Lemma init_rejects_before_io_witness :
  init (SourcesTuple [store_A; store_B]) store_T FieldsNone None 10
       example_world
  = (inl TypeError, example_world)
  ∧ init (SourcesList [store_A; store_B]) store_T
         (FieldsList [FList ["a"]]) None 10 example_world
    = (inl ValueError, example_world).
Proof.
  split.
  - apply (proj1 (init_rejects_before_io
                    (SourcesTuple [store_A; store_B]) store_T FieldsNone
                    None 10 example_world)).
    intros srcs. discriminate.
  - apply (proj2 (init_rejects_before_io
                    (SourcesList [store_A; store_B]) store_T
                    (FieldsList [FList ["a"]]) None 10 example_world)
                 [store_A; store_B] [FList ["a"]]);
      [reflexivity | reflexivity | simpl; lia].
Defined.

End InitFacts.

(** ** None as a key value in get_items *)

Module GetItemsFacts.
Import Projection.

Section emits.
Context (P : event → Prop).

Lemma emits_ret {A} (Q : A → Prop) a : Q a → emits P Q (ret a).
Proof.
  intros HQ w. exists []. simpl. rewrite app_nil_r.
  split; [done|]. split; [done|]. by intros ? [= <-].
Qed.

Lemma emits_raise {A} (Q : A → Prop) e : emits P Q (raise e).
Proof.
  intros w. exists []. simpl. rewrite app_nil_r.
  split; [done|]. split; [done|]. by intros ? [=].
Qed.

Lemma emits_emit ev : P ev → emits P (λ _, True) (emit ev).
Proof.
  intros Hev w. exists [ev]. simpl. split; [done|].
  split; [by apply Forall_singleton|done].
Qed.

Lemma emits_bind {A B} (Q : A → Prop) (R : B → Prop) (m : M A)
    (f : A → M B) :
  emits P Q m → (∀ a, Q a → emits P R (f a)) → emits P R (m ≫= f).
Proof.
  intros Hm Hf w. unfold mbind, M_bind, bind.
  destruct (Hm w) as (evs & Htr & Hevs & HQ).
  destruct (m w) as [[e|a] w1]; simpl in *.
  - exists evs. split; [done|]. split; [done|]. by intros ? [=].
  - destruct (Hf a (HQ a eq_refl) w1) as (evs' & Htr' & Hevs' & HR).
    exists (evs ++ evs'). rewrite Htr', Htr, app_assoc.
    split; [done|]. split; [by apply Forall_app|done].
Qed.

Lemma emits_for_each {A S} (I : S → Prop) (l : list A)
    (body : A → S → M S) s :
  (∀ x s, x ∈ l → I s → emits P I (body x s)) →
  I s → emits P I (for_each l body s).
Proof.
  revert s. induction l as [|x l IH]; intros s Hbody Hs; simpl.
  - by apply emits_ret.
  - eapply emits_bind.
    + apply Hbody; [by left|done].
    + intros s' Hs'. apply IH; [|done].
      intros y s'' Hy. apply Hbody. by right.
Qed.

End emits.

Section get_items.
Variable grouper : list value → nat → list (list value).
Variable list_of_set : list value → list value.
Variable get : doc → string → value.
Variable self : Projection_Builder.

(** What is known of an item made from a record that a source returned
    for criteria without [None]. *)
Variable Y : doc → Prop.
Hypothesis made_items :
  ∀ store chunked_keys p properties (d item : doc),
    store ∈ sources self → VNone ∉ chunked_keys →
    d ∈ query store (key store) chunked_keys properties →
    make_item get self store p properties d = inr item →
    Y item.

Lemma distinct_keys_emits :
  emits (sound_event Y) (λ _, True) (distinct_keys list_of_set self).
Proof using Type.
  unfold distinct_keys. case_decide; [by apply emits_ret|].
  eapply emits_bind; [|intros; by apply emits_ret].
  apply (emits_for_each _ (λ _, True)); [|done].
  intros [i store] keys _ _.
  eapply emits_bind; [by apply emits_emit|].
  intros; by apply emits_ret.
Qed.

Lemma query_store_emits chunked_keys sp st :
  VNone ∉ chunked_keys →
  sp ∈ zip (seq 0 (length (sources self)))
           (zip (sources self) (projection_mapping self)) →
  Forall Y st.1 →
  emits (sound_event Y) (λ st' : list doc * bool, Forall Y st'.1)
        (query_store get self chunked_keys sp st).
Proof using made_items.
  intros Hnone Hsp Hst. destruct sp as [i [store projection]].
  assert (Hstore : store ∈ sources self).
  { apply elem_of_zip_r in Hsp. by apply elem_of_zip_l in Hsp. }
  unfold query_store.
  eapply (emits_bind _ (λ _, True));
    [destruct projection; [by apply emits_ret|apply emits_raise]|].
  intros p _.
  eapply emits_bind; [by apply emits_emit|]. intros _ _.
  eapply emits_bind.
  - apply (emits_for_each _ (λ st' : list doc * bool, Forall Y st'.1));
      [|done].
    intros d st' Hd Hst'.
    destruct (make_item get self store p _ d) as [e|item] eqn:Hitem;
      [apply emits_raise|].
    apply emits_ret. simpl. apply Forall_app. split; [done|].
    apply Forall_singleton. eapply made_items; eauto.
  - intros [items [|]] Hitems; [by apply emits_ret|apply emits_raise].
Qed.

Lemma query_chunk_emits chunked_keys item_bound :
  emits (sound_event Y) (λ _, True)
        (query_chunk get self chunked_keys item_bound).
Proof using made_items.
  unfold query_chunk. eapply emits_bind.
  - apply (emits_for_each _ (λ st' : list doc * bool, Forall Y st'.1));
      [|by apply Forall_nil].
    intros sp st Hsp Hst. apply query_store_emits; [|done..].
    intros Hin. by apply list_elem_of_filter in Hin as [? _].
  - intros [items b] Hitems.
    eapply emits_bind; [by apply emits_emit|].
    intros; by apply emits_ret.
Qed.

Lemma get_items_emits :
  emits (sound_event Y) (λ _, True)
        (get_items grouper list_of_set get self).
Proof using made_items.
  unfold get_items. eapply emits_bind; [apply distinct_keys_emits|].
  intros keys _. eapply emits_bind; [|intros; by apply emits_ret].
  apply (emits_for_each _ (λ _, True)); [|done].
  intros chunked_keys b _ _. apply query_chunk_emits.
Qed.

End get_items.

Lemma tagged_items get self :
  queries_honoured self →
  ∀ store chunked_keys p properties (d item : doc),
    store ∈ sources self → VNone ∉ chunked_keys →
    d ∈ query store (key store) chunked_keys properties →
    make_item get self store p properties d = inr item →
    tagged (key (target self)) item.
Proof.
  intros Hq store chunked_keys p properties d item Hstore Hnone Hd Hitem.
  unfold make_item in Hitem.
  destruct (d !! key store) as [key_value|] eqn:Hkey; [|done].
  injection Hitem as <-. exists key_value.
  split; [apply lookup_insert_eq|].
  intros ->. apply Hnone. by eapply Hq.
Qed.

(** C10. Whatever [get_items] adds to the trace, be the keys those of
    [query_by_key] or the union of the distinct key values of the stores,
    and whatever the chunks of the grouper hold: no query has [None] among
    the keys of its criteria; and, the stores answering a keyed query with
    records of the keys asked for, no item of a yielded chunk is tagged
    with [None]. *)
Theorem get_items_None_free
    (grouper : list value → nat → list (list value))
    (list_of_set : list value → list value) (get : doc → string → value)
    self w :
  ∃ evs,
    trace (get_items grouper list_of_set get self w).2 = trace w ++ evs
    ∧ Forall (sound_event (λ _, True)) evs
    ∧ (queries_honoured self → Forall (None_free (key (target self))) evs).
Proof.
  destruct (get_items_emits grouper list_of_set get self (λ _, True)
              ltac:(done) w) as (evs & Htr & Hevs & _).
  exists evs. split; [done|]. split; [done|]. intros Hq.
  destruct (get_items_emits grouper list_of_set get self
              (tagged (key (target self))) (tagged_items get self Hq) w)
    as (evs' & Htr' & Hevs' & _).
  rewrite Htr in Htr'. by apply app_inv_head in Htr' as ->.
Qed.

Lemma memory_store_honours name key' luf docs keys properties (d : doc) v :
  d ∈ query (memory_store name key' luf docs) key' keys properties →
  d !! key' = Some v → v ∈ keys.
Proof.
  simpl. intros Hd Hv.
  apply list_elem_of_fmap in Hd as (d0 & -> & Hd0).
  apply list_elem_of_filter in Hd0 as [Hm _]. unfold matches_in in Hm.
  assert (Hv0 : d0 !! key' = Some v).
  { destruct properties; [|done].
    by apply map_lookup_filter_Some in Hv as [? _]. }
  rewrite Hv0 in Hm. by apply bool_decide_eq_true in Hm.
Qed.

Lemma example_queries_honoured : queries_honoured example_builder.
Proof.
  intros store keys properties d v Hstore.
  repeat (apply elem_of_cons in Hstore as [->|Hstore];
          [apply memory_store_honours|]).
  by apply elem_of_nil in Hstore.
Qed.

(** The example run: the store [B] has a record whose key value is
    [None]; both queries ask for the keys [1] and [2] only. *)
Lemma get_items_None_free_witness :
  queries_honoured example_builder
  ∧ ∃ evs,
      trace (get_items utils_grouper remove_dups flat_get example_builder
                       example_world).2
      = trace example_world ++ evs
      ∧ Forall (sound_event (λ _, True)) evs
      ∧ Forall (None_free (key (target example_builder))) evs.
Proof.
  split; [exact example_queries_honoured|].
  destruct (get_items_None_free utils_grouper remove_dups flat_get
              example_builder example_world) as (evs & Htr & Hq & Hy).
  exists evs. split; [exact Htr|]. split; [exact Hq|].
  exact (Hy example_queries_honoured).
Defined.

End GetItemsFacts.

(** ** More on the bounded mapper *)

Module MapperRuns.
Import Semaphore Mapper MapperFacts.

Section runs.
Context {Item Result Exn : Type}.
Variable process : Item → Result + Exn.

Implicit Types (s : state Item Result Exn) (h : handle Item Result Exn).
Implicit Types (l : list (handle Item Result Exn)).

Lemma items_alter l i p :
  h_item <$> alter (λ h, mk_handle (h_item h) p) i l = h_item <$> l.
Proof.
  revert i. induction l as [|h l IH]; intros [|i]; simpl; [done..|].
  f_equal. apply IH.
Qed.

Lemma items_step ev s s' :
  step process ev s = Some s' →
  (h_item <$> handles s') ++ iterator s'
  = (h_item <$> handles s) ++ iterator s.
Proof.
  destruct ev as [|i|i]; simpl.
  - unfold anext. destruct (acquire (back_pressure s)) as [sem|]; [|done].
    simpl. destruct (iterator s) as [|item rest]; intros [= <-]; simpl;
      [done|]. by rewrite fmap_app, <-app_assoc.
  - unfold start. destruct (handles s !! i) as [h|]; [|done]. simpl.
    destruct (h_phase h); intros [= <-]; simpl. by rewrite items_alter.
  - unfold finish. destruct (handles s !! i) as [h|]; [|done]. simpl.
    destruct (h_phase h); try done.
    destruct (process (h_item h)) as [r|e].
    + destruct (release (back_pressure s)); intros [= <-]; simpl;
        by rewrite items_alter.
    + intros [= <-]. simpl. by rewrite items_alter.
Qed.

(** The handles the mapper has given out are for the items of the source in
    their order, one handle an item, and what is left of the iterator is the
    rest of the source: no item is skipped, repeated or made up. *)
Theorem handles_follow_source n (src : list Item) tr s :
  run process tr (init n src) = Some s →
  (h_item <$> handles s) ++ iterator s = src
  ∧ length (handles s) ≤ length src.
Proof.
  intros Hrun.
  assert (Hitems : (h_item <$> handles s) ++ iterator s = src).
  { change src with ((h_item <$> handles (init n src : state Item Result Exn))
                     ++ iterator (init n src : state Item Result Exn)).
    revert Hrun. generalize (init n src : state Item Result Exn).
    induction tr as [|ev tr IH]; intros s0 Hrun; simpl in Hrun.
    - by simplify_eq.
    - destruct (step process ev s0) as [s1|] eqn:Hstep; [|done].
      simpl in Hrun. rewrite (IH _ Hrun). by eapply items_step. }
  split; [done|].
  apply (f_equal length) in Hitems.
  rewrite length_app, length_fmap in Hitems. lia.
Qed.

(** A call of [__anext__] that meets the end of the source keeps the unit it
    took. So [StopAsyncIteration] is raised at most [chunk_size] times in a
    run, and once it has been raised that often no further call of
    [__anext__] gets past its [acquire]. *)
Theorem stops_bounded n (src : list Item) tr s :
  run process tr (init n src) = Some s →
  stops s ≤ n ∧ (stops s = n → step process Anext s = None).
Proof.
  intros Hrun.
  pose proof (accounted_run _ _ _ _ (accounted_init n src) Hrun) as [Ha _].
  pose proof (bound_run _ _ _ _ Hrun) as Hb. simpl in Hb.
  split; [lia|]. intros Hstops. simpl. unfold anext, acquire.
  by replace (value (back_pressure s)) with 0 by lia.
Qed.

Lemma tally_pos_lookup (f : handle Item Result Exn → bool) l :
  0 < tally f l → ∃ i h, l !! i = Some h ∧ f h = true.
Proof.
  induction l as [|h l IH]; [unfold tally; simpl; lia|].
  rewrite tally_cons. destruct (f h) eqn:Hf.
  - intros _. by exists 0, h.
  - simpl. intros Hpos. destruct (IH Hpos) as (i & h' & Hi & Hf').
    by exists (S i), h'.
Qed.

(** A mapper with room for at least one transform is never stuck as long as
    no transform has raised and the end of the source has not been met: a
    unit is free for the next [__anext__], or a handle waits to be started,
    or a transform is in flight and will give its unit back. *)
Theorem mapper_progress n (src : list Item) tr s :
  run process tr (init n src) = Some s →
  0 < n → count is_raised s = 0 → stops s = 0 →
  ∃ ev s', step process ev s = Some s'.
Proof.
  intros Hrun Hn Hraised Hstops.
  pose proof (accounted_run _ _ _ _ (accounted_init n src) Hrun) as [Ha Hrf].
  pose proof (bound_run _ _ _ _ Hrun) as Hb. simpl in Hb.
  destruct (value (back_pressure s)) as [|v] eqn:Hv.
  - destruct (decide (0 < count is_created s)) as [Hc|Hc].
    + apply tally_pos_lookup in Hc as (i & h & Hi & Hh).
      exists (Start i). simpl. unfold start. rewrite Hi. simpl.
      unfold is_created in Hh. destruct (h_phase h); try done. eauto.
    + assert (Hsub : 0 < count is_submitted s) by lia.
      apply tally_pos_lookup in Hsub as (i & h & Hi & Hh).
      exists (Finish i). simpl. unfold finish. rewrite Hi. simpl.
      unfold is_submitted in Hh. destruct (h_phase h); try done.
      destruct (process (h_item h)); [|eauto].
      destruct (release (back_pressure s)); eauto.
  - exists Anext. simpl. unfold anext, acquire. rewrite Hv. simpl.
    destruct (iterator s); eauto.
Qed.

End runs.

(** Three handles for the first three of five items. *)
Lemma handles_follow_source_witness :
  ∃ s, run double_or_raise [Anext; Anext; Start 0; Anext] (init 3 [4; 0; 7; 1; 2])
       = Some s
    ∧ (h_item <$> handles s) ++ iterator s = [4; 0; 7; 1; 2]
    ∧ length (handles s) ≤ length [4; 0; 7; 1; 2].
Proof.
  eexists. split; [reflexivity|].
  apply (handles_follow_source double_or_raise 3 [4; 0; 7; 1; 2]
           [Anext; Anext; Start 0; Anext]).
  reflexivity.
Defined.

(** Two calls on a mapper of capacity two over the empty source. *)
Lemma stops_bounded_witness :
  ∃ s, run double_or_raise [Anext; Anext] (init 2 []) = Some s
    ∧ stops s = 2
    ∧ stops s ≤ 2 ∧ (stops s = 2 → step double_or_raise Anext s = None).
Proof.
  eexists. split; [reflexivity|]. split; [reflexivity|].
  apply (stops_bounded double_or_raise 2 [] [Anext; Anext]). reflexivity.
Defined.

(** No unit is free, two transforms are in flight. *)
Lemma mapper_progress_witness :
  ∃ s, run double_or_raise [Anext; Anext; Start 0; Start 1] (init 2 [1; 2; 3])
       = Some s
    ∧ 0 < 2 ∧ count is_raised s = 0 ∧ stops s = 0
    ∧ ∃ ev s', step double_or_raise ev s = Some s'.
Proof.
  eexists. split; [reflexivity|]. split; [lia|]. split; [reflexivity|].
  split; [reflexivity|].
  apply (mapper_progress double_or_raise 2 [1; 2; 3]
           [Anext; Anext; Start 0; Start 1]); [reflexivity|lia|reflexivity..].
Defined.

End MapperRuns.

(** ** The driver *)

Module DriverFacts.
Import Semaphore Mapper MapperFacts Driver Grouper GrouperFacts.

Section facts.
Context {Item Result Exn : Type}.
Variable builder : Builder Item Result Exn.
Variable ProcessPoolExecutor : Z → option Exn.
Variable order : list nat → list nat.
Hypothesis order_perm : ∀ chunk, order chunk ≡ₚ chunk.

Local Abbreviation process := (process_item builder).

Implicit Types (s : state Item Result Exn) (h : handle Item Result Exn).
Implicit Types (hs : list (handle Item Result Exn)) (items it : list Item).

Lemma run_app tr1 tr2 s :
  run process (tr1 ++ tr2) s = run process tr1 s ≫= run process tr2.
Proof using Type.
  revert s. induction tr1 as [|ev tr1 IH]; intros s; simpl; [done|].
  destruct (step process ev s) as [s1|]; simpl; [apply IH|done].
Qed.

Lemma live_bools a b :
  length (filter (λ b, b = true) (replicate a true ++ replicate b false))
  = a.
Proof using Type.
  rewrite filter_app, length_app.
  assert (Ht : ∀ a, filter (λ b, b = true) (replicate a true)
                    = replicate a true).
  { clear. induction a as [|a IH]; [done|]. simpl.
    rewrite filter_cons. case_decide; [|done]. by rewrite IH. }
  assert (Hf : ∀ b, filter (λ b, b = true) (replicate b false) = []).
  { clear. induction b as [|b IH]; [done|]. simpl.
    rewrite filter_cons. by case_decide. }
  rewrite Ht, Hf, length_replicate. simpl. lia.
Qed.

(** A pass over exhausted source: every live slot takes a unit and stops. *)
Lemma pull_mapper_exhausted slots s :
  iterator s = [] →
  length (filter (λ b, b = true) slots) ≤ value (back_pressure s) →
  ∃ s',
    pull_mapper slots s
    = Some (replicate (length slots) None, replicate (length slots) false,
            length (filter (λ b, b = true) slots), s')
    ∧ iterator s' = []
    ∧ value (back_pressure s')
      = value (back_pressure s) - length (filter (λ b, b = true) slots)
    ∧ bound_value (back_pressure s') = bound_value (back_pressure s)
    ∧ handles s' = handles s
    ∧ stops s' = stops s + length (filter (λ b, b = true) slots).
Proof using Type.
  revert s. induction slots as [|[|] slots IH]; intros s Hit Hv.
  - exists s. simpl. repeat split; try done; lia.
  - rewrite filter_cons in Hv |- *. case_decide; [|done]. simpl in Hv.
    simpl. unfold anext, acquire.
    destruct (value (back_pressure s)) as [|v] eqn:Hval; [lia|]. simpl.
    rewrite Hit. simpl.
    destruct (IH {| iterator := []; back_pressure := {| value := v;
                      bound_value := bound_value (back_pressure s) |};
                    handles := handles s; stops := S (stops s) |})
      as (s' & -> & ? & Hv' & ? & ? & Hst'); [done|simpl; lia|].
    exists s'. simpl in *. repeat split; try done; lia.
  - rewrite filter_cons in Hv |- *. case_decide; [done|]. simpl.
    destruct (IH s Hit Hv) as (s' & -> & ? & ? & ? & ? & ?).
    exists s'. simpl. by repeat split.
Qed.

(** A pass in which every slot is live and there are units enough. *)
Lemma pull_mapper_live a s :
  a ≤ value (back_pressure s) →
  ∃ s',
    pull_mapper (replicate a true) s
    = Some ((Some <$> seq (length (handles s)) (a `min` length (iterator s)))
              ++ replicate (a - length (iterator s)) None,
            replicate (a `min` length (iterator s)) true
              ++ replicate (a - length (iterator s)) false,
            a - length (iterator s), s')
    ∧ iterator s' = drop a (iterator s)
    ∧ value (back_pressure s') = value (back_pressure s) - a
    ∧ bound_value (back_pressure s') = bound_value (back_pressure s)
    ∧ handles s'
      = handles s ++ ((λ x, mk_handle x Created) <$> take a (iterator s))
    ∧ stops s' = stops s + (a - length (iterator s)).
Proof using Type.
  revert s. induction a as [|a IH]; intros s Hv.
  - exists s. simpl. rewrite ?drop_0, ?take_0, ?app_nil_r.
    repeat split; try done; lia.
  - simpl. unfold anext, acquire.
    destruct (value (back_pressure s)) as [|v] eqn:Hval; [lia|]. simpl.
    destruct (iterator s) as [|x rest] eqn:Hit; simpl.
    + destruct (IH {| iterator := []; back_pressure := {| value := v;
                        bound_value := bound_value (back_pressure s) |};
                      handles := handles s; stops := S (stops s) |})
        as (s' & -> & Hi' & Hv' & Hb' & Hh' & Hs'); [simpl; lia|].
      exists s'. simpl in *.
      rewrite Nat.min_0_r, Nat.sub_0_r in *. simpl in *.
      rewrite take_nil in Hh'. rewrite drop_nil in Hi'.
      repeat split; try done; lia.
    + destruct (IH {| iterator := rest; back_pressure := {| value := v;
                        bound_value := bound_value (back_pressure s) |};
                      handles := handles s ++ [mk_handle x Created];
                      stops := stops s |})
        as (s' & -> & Hi' & Hv' & Hb' & Hh' & Hs'); [simpl; lia|].
      exists s'. simpl in *. rewrite length_app in *. simpl in *.
      rewrite Nat.add_1_r. repeat split; try done.
      by rewrite Hh', <-app_assoc.
Qed.

Lemma alter_middle {A} (g : A → A) (l1 l2 : list A) x :
  alter g (length l1) (l1 ++ x :: l2) = l1 ++ g x :: l2.
Proof using Type.
  induction l1 as [|y l1 IH]; simpl; [done|]. f_equal. apply IH.
Qed.

(** Starting the coroutines of a group one after the other. *)
Lemma start_all items hs s :
  handles s = hs ++ ((λ x, mk_handle x Created) <$> items) →
  ∃ s',
    run process (Start <$> seq (length hs) (length items)) s = Some s'
    ∧ handles s' = hs ++ ((λ x, mk_handle x Submitted) <$> items)
    ∧ iterator s' = iterator s
    ∧ back_pressure s' = back_pressure s
    ∧ stops s' = stops s.
Proof using Type.
  revert hs s. induction items as [|x items IH]; intros hs s Hh.
  - exists s. by repeat split.
  - simpl in Hh.
    assert (Hstep : step process (Start (length hs)) s
                    = Some (set_phase (length hs) Submitted s)).
    { simpl. unfold start. by rewrite Hh, list_lookup_middle. }
    destruct (IH (hs ++ [mk_handle x Submitted])
                 (set_phase (length hs) Submitted s))
      as (s' & Hrun & Hh' & ? & ? & ?).
    { simpl. rewrite Hh, alter_middle. simpl. by rewrite <-app_assoc. }
    exists s'. rewrite length_app, Nat.add_1_r in Hrun.
    change (run process (Start <$> seq (length hs) (length (x :: items))) s)
      with (step process (Start (length hs)) s
            ≫= run process (Start <$> seq (S (length hs)) (length items))).
    rewrite Hstep. simpl. rewrite Hrun.
    rewrite <-app_assoc in Hh'. by repeat split.
Qed.

(** The future of a submitted coroutine resolves with a result: the unit
    is released, which cannot overflow, the units being accounted for. *)
Lemma finish_returns i x r s :
  accounted s →
  handles s !! i = Some (mk_handle x Submitted) → process x = inl r →
  ∃ s',
    finish process i s = Some s'
    ∧ handles s'
      = alter (λ h, mk_handle (h_item h) (Returned r)) i (handles s)
    ∧ iterator s' = iterator s ∧ stops s' = stops s
    ∧ bound_value (back_pressure s') = bound_value (back_pressure s)
    ∧ value (back_pressure s') = S (value (back_pressure s))
    ∧ accounted s'.
Proof using Type.
  intros Hacc Hi Hx.
  destruct (finish process i s) as [s'|] eqn:Hstep.
  2: { unfold finish in Hstep. rewrite Hi in Hstep. simpl in Hstep.
       rewrite Hx in Hstep. by destruct (release (back_pressure s)). }
  pose proof (accounted_step process (Finish i) s s' Hacc Hstep) as Hacc'.
  exists s'. split; [done|].
  unfold finish in Hstep. rewrite Hi in Hstep. simpl in Hstep.
  rewrite Hx in Hstep. unfold release in Hstep. case_decide.
  - exfalso. destruct Hacc as [Ha _]. unfold count in Ha.
    pose proof (tally_lookup is_submitted _ _ _ Hi eq_refl). lia.
  - by simplify_eq/=.
Qed.

Lemma finish_raises i x e s :
  handles s !! i = Some (mk_handle x Submitted) → process x = inr e →
  finish process i s = Some (set_phase i (Raised e) s).
Proof using Type.
  intros Hi Hx. unfold finish. rewrite Hi. simpl. by rewrite Hx.
Qed.

(** Waiting for coroutines whose transforms all return, in any order. *)
Lemma await_all_returns pending s :
  accounted s → NoDup pending →
  (∀ i, i ∈ pending →
     ∃ x r, handles s !! i = Some (mk_handle x Submitted)
            ∧ process x = inl r) →
  ∃ s',
    await_all builder pending s = (s', None)
    ∧ accounted s'
    ∧ iterator s' = iterator s ∧ stops s' = stops s
    ∧ bound_value (back_pressure s') = bound_value (back_pressure s)
    ∧ value (back_pressure s') = value (back_pressure s) + length pending
    ∧ length (handles s') = length (handles s)
    ∧ (∀ i x r, i ∈ pending →
         handles s !! i = Some (mk_handle x Submitted) → process x = inl r →
         handles s' !! i = Some (mk_handle x (Returned r)))
    ∧ (∀ i, i ∉ pending → handles s' !! i = handles s !! i).
Proof using Type.
  revert s. induction pending as [|i rest IH]; intros s Hacc Hnd Hall.
  - exists s. simpl. do 5 (split; [done|]). split; [lia|].
    split; [done|]. split; [|done]. intros i x r Hi.
    by apply elem_of_nil in Hi.
  - apply NoDup_cons in Hnd as [Hi Hnd].
    destruct (Hall i) as (x & r & Hhi & Hx); [by left|].
    destruct (finish_returns i x r s Hacc Hhi Hx)
      as (s1 & Hfin & Hh1 & Hit1 & Hst1 & Hb1 & Hv1 & Hacc1).
    assert (Hi1 : handles s1 !! i = Some (mk_handle x (Returned r))).
    { rewrite Hh1, list_lookup_alter_eq, Hhi. done. }
    assert (Hne : ∀ j, j ≠ i → handles s1 !! j = handles s !! j).
    { intros j Hj. rewrite Hh1. by apply list_lookup_alter_ne. }
    destruct (IH s1 Hacc1 Hnd)
      as (s' & Hrun & Hacc' & Hit' & Hst' & Hb' & Hv' & Hlen' & Hret & Hun).
    { intros j Hj. destruct (Hall j) as (y & ry & Hhj & Hy); [by right|].
      exists y, ry. split; [|done]. rewrite Hne; [done|].
      intros ->. done. }
    exists s'. simpl. rewrite Hfin, Hi1. simpl. split; [done|].
    split; [done|]. split; [congruence|]. split; [congruence|].
    split; [congruence|]. split; [lia|].
    split; [by rewrite Hlen', Hh1, length_alter|]. split.
    + intros j y ry Hj Hhj Hy. apply elem_of_cons in Hj as [->|Hj].
      * rewrite Hun by done. rewrite Hhi in Hhj. injection Hhj as <-.
        rewrite Hx in Hy. by injection Hy as <-.
      * apply Hret; [done| |done]. rewrite Hne; [done|]. intros ->. done.
    + intros j Hj. apply not_elem_of_cons in Hj as [Hji Hj].
      rewrite Hun by done. by apply Hne.
Qed.

(** Waiting ends with the first coroutine, in the order the futures
    resolve, whose transform raises. *)
Lemma await_all_raises o1 j o2 x e s :
  accounted s → NoDup (o1 ++ j :: o2) →
  (∀ i, i ∈ o1 →
     ∃ y r, handles s !! i = Some (mk_handle y Submitted)
            ∧ process y = inl r) →
  handles s !! j = Some (mk_handle x Submitted) → process x = inr e →
  ∃ s', await_all builder (o1 ++ j :: o2) s = (s', Some (Failed e)).
Proof using Type.
  revert s. induction o1 as [|i o1 IH]; intros s Hacc Hnd Hall Hj Hx.
  - simpl. rewrite (finish_raises j x e s Hj Hx). simpl.
    rewrite list_lookup_alter_eq, Hj. simpl. by eexists.
  - simpl in Hnd. apply NoDup_cons in Hnd as [Hi Hnd].
    destruct (Hall i) as (y & r & Hhi & Hy); [by left|].
    destruct (finish_returns i y r s Hacc Hhi Hy)
      as (s1 & Hfin & Hh1 & Hit1 & Hst1 & Hb1 & Hv1 & Hacc1).
    assert (Hi1 : handles s1 !! i = Some (mk_handle y (Returned r))).
    { rewrite Hh1, list_lookup_alter_eq, Hhi. done. }
    assert (Hne : ∀ k, k ≠ i → handles s1 !! k = handles s !! k).
    { intros k Hk. rewrite Hh1. by apply list_lookup_alter_ne. }
    destruct (IH s1 Hacc1 Hnd) as (s' & Hrun).
    { intros k Hk. destruct (Hall k) as (z & rz & Hhk & Hz); [by right|].
      exists z, rz. split; [|done]. rewrite Hne; [done|].
      intros ->. apply Hi. apply elem_of_app. by left. }
    { rewrite Hne; [done|]. intros ->. apply Hi. apply elem_of_app.
      right. by left. }
    { done. }
    exists s'. simpl. by rewrite Hfin, Hi1.
Qed.

Lemma results_returned chunk rs s :
  Forall2 (λ i r, ∃ x, handles s !! i = Some (mk_handle x (Returned r)))
          chunk rs →
  results s chunk = inr rs.
Proof using Type.
  induction 1 as [|i r chunk rs [x Hi] _ IH]; [done|].
  simpl. by rewrite Hi, IH.
Qed.

(** The handles of a group, by their positions. *)
Lemma chunk_lookup (f : Item → handle Item Result Exn) items hs i :
  i ∈ seq (length hs) (length items) →
  ∃ x, items !! (i - length hs) = Some x
       ∧ (hs ++ (f <$> items)) !! i = Some (f x).
Proof using Type.
  intros Hi. apply elem_of_seq in Hi.
  destruct (items !! (i - length hs)) as [x|] eqn:Hx.
  - exists x. split; [done|].
    rewrite lookup_app_r by lia. by rewrite list_lookup_fmap, Hx.
  - apply lookup_ge_None in Hx. lia.
Qed.

(** Awaiting a group of fresh handles whose transforms all return, in
    whatever order their futures resolve. *)
Lemma gather_returns items rs hs s :
  accounted s →
  handles s = hs ++ ((λ x, mk_handle x Created) <$> items) →
  Forall2 (λ x r, process x = inl r) items rs →
  ∃ s',
    gather builder order (seq (length hs) (length items)) s = (s', inr rs)
    ∧ accounted s'
    ∧ iterator s' = iterator s ∧ stops s' = stops s
    ∧ bound_value (back_pressure s') = bound_value (back_pressure s)
    ∧ value (back_pressure s') = value (back_pressure s) + length items
    ∧ length (handles s') = length (handles s).
Proof using order_perm.
  intros Hacc Hh Hall.
  destruct (start_all items hs s Hh) as (s1 & Hrun1 & Hh1 & Hi1 & Hb1 & Hs1).
  pose proof (accounted_run _ _ _ _ Hacc Hrun1) as Hacc1.
  assert (Hin : ∀ i, i ∈ order (seq (length hs) (length items)) →
                     ∃ x r, handles s1 !! i = Some (mk_handle x Submitted)
                            ∧ process x = inl r).
  { intros i Hi. rewrite (order_perm _) in Hi.
    destruct (chunk_lookup (λ x, mk_handle x Submitted) items hs i Hi)
      as (x & Hx & Hhi).
    destruct (Forall2_lookup_l _ _ _ _ _ Hall Hx) as (r & _ & Hr).
    exists x, r. by rewrite Hh1. }
  destruct (await_all_returns (order (seq (length hs) (length items))) s1)
    as (s' & Hrun & Hacc' & Hit' & Hst' & Hb' & Hv' & Hlen' & Hret & Hun);
    [done| |done|].
  { rewrite (order_perm _). apply NoDup_seq. }
  exists s'. unfold gather. rewrite Hrun1, Hrun.
  rewrite (results_returned _ rs).
  - split; [done|]. split; [done|]. split; [congruence|].
    split; [congruence|]. split; [congruence|]. split.
    + rewrite Hv', Hb1. f_equal.
      by rewrite (Permutation_length (order_perm _)), length_seq.
    + rewrite Hlen', Hh1, Hh, !length_app, !length_fmap. done.
  - apply Forall2_same_length_lookup_2.
    + rewrite length_seq. by eapply Forall2_length.
    + intros k i r Hk Hr. apply lookup_seq in Hk as [-> Hk].
      destruct (items !! k) as [x|] eqn:Hx.
      2: { apply lookup_ge_None in Hx. lia. }
      destruct (Forall2_lookup_l _ _ _ _ _ Hall Hx) as (r' & Hr' & Hpx).
      simplify_eq. exists x. apply Hret; [| |done].
      * rewrite (order_perm _). apply elem_of_seq. lia.
      * rewrite Hh1, lookup_app_r by lia.
        rewrite list_lookup_fmap.
        replace (length hs + k - length hs) with k by lia.
        by rewrite Hx.
Qed.

(** Awaiting a group of fresh handles of which one raises before any other
    does, in the order the futures resolve. *)
Lemma gather_raises items hs s o1 j o2 x e :
  accounted s →
  handles s = hs ++ ((λ x, mk_handle x Created) <$> items) →
  order (seq (length hs) (length items)) = o1 ++ j :: o2 →
  (∀ i y, i ∈ o1 → items !! (i - length hs) = Some y →
          is_Some (maybe inl (process y))) →
  items !! (j - length hs) = Some x → process x = inr e →
  ∃ s',
    gather builder order (seq (length hs) (length items)) s
    = (s', inl (Failed e)).
Proof using order_perm.
  intros Hacc Hh Ho Hall Hj Hx.
  destruct (start_all items hs s Hh) as (s1 & Hrun1 & Hh1 & Hi1 & Hb1 & Hs1).
  pose proof (accounted_run _ _ _ _ Hacc Hrun1) as Hacc1.
  assert (Hin : ∀ i, i ∈ o1 ++ j :: o2 →
                     i ∈ seq (length hs) (length items)).
  { intros i Hi. by rewrite <-Ho, (order_perm _) in Hi. }
  destruct (await_all_raises o1 j o2 x e s1) as (s' & Hrun); [done| | | |done|].
  - rewrite <-Ho, (order_perm _). apply NoDup_seq.
  - intros i Hi.
    destruct (chunk_lookup (λ x, mk_handle x Submitted) items hs i)
      as (y & Hy & Hhi); [apply Hin, elem_of_app; by left|].
    destruct (Hall i y Hi Hy) as [r Hr].
    exists y, r. rewrite Hh1. split; [done|].
    by destruct (process y); simplify_eq/=.
  - destruct (chunk_lookup (λ x, mk_handle x Submitted) items hs j)
      as (y & Hy & Hhj).
    { apply Hin, elem_of_app. right. by left. }
    rewrite Hh1. congruence.
  - exists s'. unfold gather. by rewrite Hrun1, Ho, Hrun.
Qed.

Lemma pull_mapper_accounted slots s values slots' k s' :
  pull_mapper slots s = Some (values, slots', k, s') →
  accounted s → accounted s'.
Proof using builder.
  revert s values slots' k s'.
  induction slots as [|[|] slots IH]; intros s values slots' k s' Hp Hacc;
    simpl in Hp.
  - by simplify_eq.
  - destruct (anext s) as [s1|] eqn:Hs1; [|done]. simpl in Hp.
    destruct (pull_mapper slots s1) as [[[[vs sl] k1] s2]|] eqn:Hp1;
      [|done].
    simpl in Hp.
    assert (Hacc1 : accounted s1)
      by (eapply (accounted_step process Anext); eauto).
    specialize (IH _ _ _ _ _ Hp1 Hacc1).
    destruct (iterator s); by simplify_eq.
  - destruct (pull_mapper slots s) as [[[[vs sl] k1] s2]|] eqn:Hp1;
      [|done].
    simpl in Hp. simplify_eq. eauto.
Qed.

Lemma omap_id_Some {A} (l : list A) (k : nat) :
  omap id ((Some <$> l) ++ replicate k None) = l.
Proof using Type.
  induction l as [|x l IH]; simpl.
  - induction k as [|k IHk]; [done|]. simpl. apply IHk.
  - f_equal. apply IH.
Qed.

Lemma multi_loop_unfold raises fuel n slots finished s committed :
  multi_loop builder order raises (S fuel) n slots finished s committed
  = match pull_mapper slots s with
    | None => mk_report committed (Some s) Blocked
    | Some (values, slots', k, s1) =>
        match (if decide (0 < k) then raises else None) with
        | Some e => mk_report committed (Some s1) (CursorRaised e)
        | None =>
            if decide (n ≤ finished + k)
            then mk_report committed (Some s1) Done
            else
              match gather builder order (omap id values) s1 with
              | (s2, inl o) => mk_report committed (Some s2) o
              | (s2, inr processed_items) =>
                  match update_targets builder committed
                                       processed_items with
                  | Some e => mk_report committed (Some s2) (UpdateRaised e)
                  | None =>
                      multi_loop builder order raises fuel n slots'
                                 (finished + k) s2
                                 (committed ++ [processed_items])
                  end
              end
        end
    end.
Proof using Type. done. Qed.

(** A pass that finds items, and not the end of a cursor that raises: the
    items at hand, [n] of them at most, get fresh handles and are awaited
    together. *)
Lemma pass_chunk raises fuel n s committed :
  0 < n → ready n s → 0 < length (iterator s) →
  n ≤ length (iterator s) ∨ raises = None →
  ∃ s1,
    accounted s1
    ∧ handles s1
      = handles s ++ ((λ x, mk_handle x Created) <$> take n (iterator s))
    ∧ iterator s1 = drop n (iterator s)
    ∧ value (back_pressure s1) = 0 ∧ bound_value (back_pressure s1) = n
    ∧ stops s1 = n - length (iterator s)
    ∧ multi_loop builder order raises (S fuel) n (replicate n true) 0 s
                 committed
      = match gather builder order
                (seq (length (handles s)) (length (take n (iterator s))))
                s1 with
        | (s2, inl o) => mk_report committed (Some s2) o
        | (s2, inr rs) =>
            match update_targets builder committed rs with
            | Some e => mk_report committed (Some s2) (UpdateRaised e)
            | None =>
                multi_loop builder order raises fuel n
                  (replicate (n `min` length (iterator s)) true
                     ++ replicate (n - length (iterator s)) false)
                  (n - length (iterator s)) s2 (committed ++ [rs])
            end
        end.
Proof using Type.
  intros Hn (Hacc & Hv & Hb & Hst) Hpos Hcur.
  destruct (pull_mapper_live n s) as (s1 & Hp & Hi1 & Hv1 & Hb1 & Hh1 & Hs1);
    [lia|].
  pose proof (pull_mapper_accounted _ _ _ _ _ _ Hp Hacc) as Hacc1.
  exists s1. split; [done|]. split; [done|]. split; [done|].
  split; [lia|]. split; [congruence|]. split; [lia|].
  rewrite multi_loop_unfold, Hp, omap_id_Some, length_take.
  assert (Hnone : (if decide (0 < n - length (iterator s)) then raises
                   else None) = None).
  { case_decide; [|done]. destruct Hcur as [?|?]; [lia|done]. }
  rewrite Hnone. rewrite decide_False by lia. done.
Qed.

(** The pass after the last group, when that was not a whole one and the
    cursor ends as an exhausted iterator does. *)
Lemma loop_tail fuel n m s committed :
  iterator s = [] → m ≤ value (back_pressure s) → 0 < m → m ≤ n →
  ∃ s',
    multi_loop builder order None (S fuel) n
               (replicate m true ++ replicate (n - m) false) (n - m) s
               committed
    = mk_report committed (Some s') Done.
Proof using Type.
  intros Hit Hv Hm Hmn.
  destruct (pull_mapper_exhausted
              (replicate m true ++ replicate (n - m) false) s Hit)
    as (s' & Hp & _); [by rewrite live_bools|].
  exists s'. rewrite multi_loop_unfold, Hp, live_bools.
  rewrite decide_True by lia. by rewrite decide_True by lia.
Qed.

(** The pass that finds the cursor at its end with every slot live. *)
Lemma loop_empty raises fuel n s committed :
  0 < n → ready n s → iterator s = [] →
  ∃ s',
    multi_loop builder order raises (S fuel) n (replicate n true) 0 s
               committed
    = mk_report committed (Some s')
                match raises with
                | Some e => CursorRaised e
                | None => Done
                end.
Proof using Type.
  intros Hn (Hacc & Hv & Hb & Hst) Hit.
  pose proof (live_bools n 0) as Hlive. simpl in Hlive.
  rewrite app_nil_r in Hlive.
  destruct (pull_mapper_exhausted (replicate n true) s Hit)
    as (s' & Hp & _); [rewrite Hlive; lia|].
  exists s'. rewrite multi_loop_unfold, Hp, Hlive.
  rewrite decide_True by lia. destruct raises as [e|]; [done|].
  by rewrite decide_True by lia.
Qed.

(** The state of the mapper once the group of a pass has been awaited and
    every transform has returned. *)
Lemma chunk_returned n s s1 rs :
  0 < n → ready n s → 0 < length (iterator s) →
  accounted s1 →
  handles s1
  = handles s ++ ((λ x, mk_handle x Created) <$> take n (iterator s)) →
  iterator s1 = drop n (iterator s) →
  value (back_pressure s1) = 0 → bound_value (back_pressure s1) = n →
  stops s1 = n - length (iterator s) →
  Forall2 (λ x r, process x = inl r) (take n (iterator s)) rs →
  ∃ s2,
    gather builder order
           (seq (length (handles s)) (length (take n (iterator s)))) s1
    = (s2, inr rs)
    ∧ accounted s2
    ∧ iterator s2 = drop n (iterator s)
    ∧ value (back_pressure s2) = n `min` length (iterator s)
    ∧ bound_value (back_pressure s2) = n
    ∧ stops s2 = n - length (iterator s)
    ∧ length (handles s2)
      = length (handles s) + n `min` length (iterator s).
Proof using order_perm.
  intros Hn Hready Hpos Hacc1 Hh1 Hi1 Hv1 Hb1 Hs1 Hall.
  destruct (gather_returns (take n (iterator s)) rs (handles s) s1
              Hacc1 Hh1 Hall)
    as (s2 & Hg & Hacc2 & Hi2 & Hs2 & Hb2 & Hv2 & Hl2).
  exists s2. split; [done|]. split; [done|]. split; [congruence|].
  rewrite length_take in Hv2. split; [lia|]. split; [congruence|].
  split; [congruence|].
  rewrite Hl2, Hh1, length_app, length_fmap, length_take. done.
Qed.

Lemma returned_all items rs :
  Forall2 (λ x r, process x = inl r) items rs →
  Forall (λ x, is_Some (maybe inl (process x))) items.
Proof using Type.
  intros Hall. apply Forall_forall. intros x Hx.
  apply (list_elem_of_lookup_1 _ x) in Hx as [i Hi].
  destruct (Forall2_lookup_l _ _ _ _ _ Hall Hi) as (r & _ & ->).
  by eexists.
Qed.

Lemma all_returned items :
  Forall (λ x, is_Some (maybe inl (process x))) items →
  ∃ rs, Forall2 (λ x r, process x = inl r) items rs.
Proof using Type.
  induction 1 as [|x items [r Hx] _ [rs IH]]; [by exists []|].
  exists (r :: rs). constructor; [|done].
  by destruct (process x); simplify_eq/=.
Qed.

(** In a list of positions, either the transform of every item returns,
    or there is a first position whose item's transform raises. *)
Lemma first_failure_in (item_at : nat → option Item) (o : list nat) :
  (∀ i y, i ∈ o → item_at i = Some y → is_Some (maybe inl (process y)))
  ∨ ∃ o1 j o2 y e,
      o = o1 ++ j :: o2
      ∧ item_at j = Some y ∧ process y = inr e
      ∧ (∀ i z, i ∈ o1 → item_at i = Some z →
                is_Some (maybe inl (process z))).
Proof using Type.
  induction o as [|j o IH].
  - left. intros i y Hi. by apply elem_of_nil in Hi.
  - destruct (item_at j) as [y|] eqn:Hj.
    + destruct (process y) as [r|e] eqn:Hy.
      * destruct IH as [Hall|(o1 & j' & o2 & z & e & -> & Hz & He & Ho1)].
        -- left. intros i z Hi Hz.
           apply elem_of_cons in Hi as [->|Hi]; [|by eapply Hall].
           simplify_eq. rewrite Hy. by eexists.
        -- right. exists (j :: o1), j', o2, z, e.
           split; [done|]. split; [done|]. split; [done|].
           intros i z' Hi Hz'.
           apply elem_of_cons in Hi as [->|Hi]; [|by eapply Ho1].
           simplify_eq. rewrite Hy. by eexists.
      * right. exists [], j, o, y, e. split; [done|]. split; [done|].
        split; [done|]. intros i z Hi. by apply elem_of_nil in Hi.
    + destruct IH as [Hall|(o1 & j' & o2 & z & e & -> & Hz & He & Ho1)].
      * left. intros i z Hi Hz.
        apply elem_of_cons in Hi as [->|Hi]; [congruence|by eapply Hall].
      * right. exists (j :: o1), j', o2, z, e.
        split; [done|]. split; [done|]. split; [done|].
        intros i z' Hi Hz'.
        apply elem_of_cons in Hi as [->|Hi]; [congruence|by eapply Ho1].
Qed.

(** Awaiting the group of a pass: every transform of the group returns,
    or the wait ends with the exception of the first transform of the
    group to raise, in the order the futures resolve. *)
Lemma chunk_cases items hs s :
  accounted s →
  handles s = hs ++ ((λ x, mk_handle x Created) <$> items) →
  (∃ rs, Forall2 (λ x r, process x = inl r) items rs)
  ∨ ∃ o1 j o2 y e s',
      order (seq (length hs) (length items)) = o1 ++ j :: o2
      ∧ items !! (j - length hs) = Some y ∧ process y = inr e
      ∧ (∀ i z, i ∈ o1 → items !! (i - length hs) = Some z →
                is_Some (maybe inl (process z)))
      ∧ gather builder order (seq (length hs) (length items)) s
        = (s', inl (Failed e)).
Proof using order_perm.
  intros Hacc Hh.
  destruct (first_failure_in (λ i, items !! (i - length hs))
              (order (seq (length hs) (length items))))
    as [Hall|(o1 & j & o2 & y & e & Ho & Hy & He & Ho1)].
  - left. apply all_returned, Forall_lookup. intros k x Hx.
    apply (Hall (length hs + k)).
    + rewrite (order_perm _). apply elem_of_seq.
      apply lookup_lt_Some in Hx. lia.
    + by replace (length hs + k - length hs) with k by lia.
  - right.
    destruct (gather_raises items hs s o1 j o2 y e Hacc Hh Ho Ho1 Hy He)
      as (s' & Hg).
    by exists o1, j, o2, y, e, s'.
Qed.

(** The loop when no transform raises and [update_targets] does not
    either: it ends, having committed the results group by group. When
    the cursor ends with an exception the loop ends with it, and the last
    group is committed only if it is a whole one. *)
Lemma loop_success raises n rs fuel s committed :
  0 < n → ready n s →
  (∀ c b, update_targets builder c b = None) →
  Forall2 (λ x r, process x = inl r) (iterator s) rs →
  length (iterator s) < fuel →
  ∃ groups s',
    multi_loop builder order raises fuel n (replicate n true) 0 s committed
    = mk_report (committed ++ groups) (Some s')
                match raises with
                | Some e => CursorRaised e
                | None => Done
                end
    ∧ length groups
      = match raises with
        | Some _ => length rs / n
        | None => ceil_div (length rs) n
        end
    ∧ (∀ i, i < length groups →
         groups !! i = Some (take n (drop (i * n) rs)))
    ∧ (raises = None → concat groups = rs).
Proof using order_perm.
  intros Hn Hready Hup. remember (length rs) as L eqn:HL.
  revert rs fuel s committed HL Hready.
  induction L as [L IH] using lt_wf_ind.
  intros rs fuel s committed -> Hready Hall Hfuel.
  pose proof (Forall2_length _ _ _ Hall) as Hlen.
  destruct fuel as [|fuel]; [lia|].
  destruct (decide (length rs = 0)) as [H0|H0].
  { destruct (loop_empty raises fuel n s committed Hn Hready)
      as (s' & Hloop); [apply nil_length_inv; lia|].
    apply nil_length_inv in H0 as ->. exists [], s'.
    rewrite Hloop, app_nil_r. split; [done|]. split.
    - destruct raises; simpl; [by rewrite Nat.div_small by lia|].
      by rewrite ceil_div_0.
    - split; [|done]. intros i Hi. simpl in Hi. lia. }
  destruct (decide (length rs < n)) as [Hlt|Hge].
  { destruct raises as [e|].
    - (* the cursor raises in the pass of the last group *)
      destruct Hready as (Hacc & Hv & Hb & Hst).
      destruct (pull_mapper_live n s)
        as (s1 & Hp & _); [lia|].
      exists [], s1. rewrite multi_loop_unfold, Hp.
      rewrite decide_True by lia. rewrite app_nil_r.
      split; [done|]. split; [by rewrite Nat.div_small by lia|].
      split; [|done]. intros i Hi. simpl in Hi. lia.
    - destruct (pass_chunk None fuel n s committed Hn Hready)
        as (s1 & Hacc1 & Hh1 & Hi1 & Hv1 & Hb1 & Hs1 & Hloop);
        [lia|by right|].
      rewrite take_ge in Hh1, Hloop by lia.
      destruct (chunk_returned n s s1 rs Hn Hready)
        as (s2 & Hg & Hacc2 & Hi2 & Hv2 & Hb2 & Hs2 & Hl2);
        try done; [lia|by rewrite take_ge by lia|by rewrite take_ge by lia|].
      rewrite take_ge in Hg by lia.
      rewrite Hloop, Hg, Hup.
      destruct fuel as [|fuel]; [lia|].
      replace (n `min` length (iterator s)) with (length (iterator s))
        by lia.
      destruct (loop_tail fuel n (length (iterator s)) s2
                          (committed ++ [rs]))
        as (s' & Htail); [|lia|lia|lia|].
      { rewrite Hi2. apply drop_ge. lia. }
      exists [rs], s'. rewrite Htail. split; [done|].
      split; [by rewrite ceil_div_small by lia|]. split.
      + intros [|i] Hi; [|simpl in Hi; lia].
        change (0 * n) with 0. by rewrite drop_0, take_ge by lia.
      + intros _. simpl. by rewrite app_nil_r. }
  destruct (pass_chunk raises fuel n s committed Hn Hready)
    as (s1 & Hacc1 & Hh1 & Hi1 & Hv1 & Hb1 & Hs1 & Hloop);
    [lia|left; lia|].
  destruct (chunk_returned n s s1 (take n rs) Hn Hready)
    as (s2 & Hg & Hacc2 & Hi2 & Hv2 & Hb2 & Hs2 & Hl2);
    try done; [lia|by apply Forall2_take|].
  rewrite Hloop, Hg, Hup.
  replace (n `min` length (iterator s)) with n in * by lia.
  replace (n - length (iterator s)) with 0 in * by lia.
  simpl. rewrite app_nil_r.
  destruct (IH (length rs - n) ltac:(lia) (drop n rs) fuel s2
               (committed ++ [take n rs]))
    as (groups & s' & Hloop' & Hlen' & Hidx & Hcat).
  { by rewrite length_drop. }
  { split; [done|]. split; [done|]. by split. }
  { rewrite Hi2. by apply Forall2_drop. }
  { rewrite Hi2, length_drop. lia. }
  exists (take n rs :: groups), s'. rewrite Hloop', <-app_assoc.
  split; [done|]. split; [|split].
  - simpl. rewrite Hlen'. destruct raises.
    + replace (length rs) with ((length rs - n) + 1 * n) at 2 by lia.
      rewrite Nat.div_add by lia. lia.
    + by rewrite (ceil_div_step (length rs)) by lia.
  - intros [|i] Hi.
    + change (0 * n) with 0. by rewrite drop_0.
    + simpl in Hi. simpl. rewrite Hidx by lia. by rewrite drop_drop.
  - intros Hr. simpl. by rewrite (Hcat Hr), take_drop.
Qed.

Lemma init_ready n (src : list Item) :
  ready n (init n src : state Item Result Exn).
Proof using Type. split; [apply accounted_init|done]. Qed.

(** When no transform raises, [update_targets] does not raise either and
    the cursor ends as an exhausted iterator does, a run of the driver
    ends with the cursor exhausted, having called [update_targets]
    [ceil(L / n)] times, in order, with the results of the items of one
    chunk of [n] each time (the last chunk may be shorter): every result
    is committed once, in the order of the cursor, and that in whatever
    order the futures of a chunk resolve. *)
Theorem multi_commits_chunks num_workers (items : list Item)
    (f : Item → Result) :
  0 < chunk_size builder →
  connect builder = None →
  get_items builder = inr (mk_cursor items None) →
  ProcessPoolExecutor num_workers = None →
  (∀ x, x ∈ items → process x = inl (f x)) →
  (∀ committed processed_items,
     update_targets builder committed processed_items = None) →
  ending (multi builder ProcessPoolExecutor order num_workers) = Done
  ∧ length (commits (multi builder ProcessPoolExecutor order num_workers))
    = ceil_div (length items) (chunk_size builder)
  ∧ (∀ i,
       i < length (commits (multi builder ProcessPoolExecutor order
                                  num_workers)) →
       commits (multi builder ProcessPoolExecutor order num_workers) !! i
       = Some (f <$> take (chunk_size builder)
                          (drop (i * chunk_size builder) items)))
  ∧ concat (commits (multi builder ProcessPoolExecutor order num_workers))
    = f <$> items.
Proof using order_perm.
  intros Hn Hconnect Hget Hpool Hf Hup.
  destruct (loop_success None (chunk_size builder) (f <$> items)
              (S (length items)) (init (chunk_size builder) items) []
              Hn (init_ready _ _) Hup)
    as (groups & s' & Hloop & Hlen & Hidx & Hcat).
  { simpl. apply Forall2_fmap_r, Forall_Forall2_diag, Forall_forall.
    intros x Hx. by apply Hf. }
  { simpl. lia. }
  unfold multi. rewrite Hconnect, Hget, Hpool.
  cbv beta match delta [c_raises c_items]. rewrite Hloop. simpl. rewrite length_fmap in Hlen.
  split; [done|]. split; [done|]. split; [|by apply Hcat].
  intros i Hi. by rewrite (Hidx i Hi), fmap_take, fmap_drop.
Qed.


(** The loop up to the first group with a transform that raises: the
    groups before it are committed, and the run ends with the exception
    of the transform of that group that is the first to raise, in the
    order the futures of the group resolve. *)
Lemma loop_failure raises n all consumed x e post pre rs fuel s committed :
  0 < n → ready n s →
  (∀ c b, update_targets builder c b = None) →
  all = consumed ++ iterator s → length consumed = length (handles s) →
  iterator s = pre ++ x :: post →
  Forall2 (λ x r, process x = inl r) pre rs →
  process x = inr e →
  raises = None ∨ (length pre / n + 1) * n ≤ length (iterator s) →
  length (iterator s) < fuel →
  ∃ groups s' o1 j o2 y e',
    multi_loop builder order raises fuel n (replicate n true) 0 s committed
    = mk_report (committed ++ groups) (Some s') (Failed e')
    ∧ length groups = length pre / n
    ∧ (∀ i, i < length groups →
         groups !! i = Some (take n (drop (i * n) rs)))
    ∧ order (seq (length consumed + length pre / n * n)
                 (length (take n (drop (length consumed
                                        + length pre / n * n) all))))
      = o1 ++ j :: o2
    ∧ all !! j = Some y ∧ process y = inr e'
    ∧ (∀ i z, i ∈ o1 → all !! i = Some z →
              is_Some (maybe inl (process z))).
Proof using order_perm.
  intros Hn Hready Hup. remember (length pre) as L eqn:HL.
  revert pre rs fuel s committed consumed HL Hready.
  induction L as [L IH] using lt_wf_ind.
  intros pre rs fuel s committed consumed -> Hready Hcons Hlc Hit Hall Hx
         Hcur Hfuel.
  pose proof (Forall2_length _ _ _ Hall) as Hlen.
  destruct fuel as [|fuel]; [lia|].
  assert (Hlit : length (iterator s) = length pre + S (length post))
    by (by rewrite Hit, length_app).
  destruct (decide (length pre < n)) as [Hlt|Hge].
  - rewrite (Nat.div_small (length pre) n) in * by lia.
    change (0 * n) with 0. rewrite Nat.add_0_r.
    assert (Hdrop : drop (length consumed) all = iterator s)
      by (by rewrite Hcons, drop_app_length).
    rewrite Hdrop.
    destruct (pass_chunk raises fuel n s committed Hn Hready)
      as (s1 & Hacc1 & Hh1 & Hi1 & Hv1 & Hb1 & Hs1 & Hloop); [lia| |].
    { destruct Hcur as [?|?]; [by right|left; lia]. }
    assert (Habs : ∀ i, i ∈ seq (length (handles s))
                                (length (take n (iterator s))) →
                        take n (iterator s) !! (i - length (handles s))
                        = all !! i).
    { intros i Hi. apply elem_of_seq in Hi. rewrite length_take in Hi.
      rewrite Hcons, lookup_app_r by lia.
      rewrite lookup_take_lt by lia. by rewrite Hlc. }
    destruct (chunk_cases (take n (iterator s)) (handles s) s1 Hacc1 Hh1)
      as [[rs' Hall']|(o1 & j & o2 & y & e' & s' & Ho & Hy & He' & Ho1 & Hg)].
    + exfalso.
      assert (Hxin : take n (iterator s) !! length pre = Some x).
      { rewrite lookup_take_lt by lia. by rewrite Hit, list_lookup_middle. }
      destruct (Forall2_lookup_l _ _ _ _ _ Hall' Hxin) as (r & _ & Hr).
      congruence.
    + assert (Hin : ∀ i, i ∈ o1 ++ j :: o2 →
                         i ∈ seq (length (handles s))
                                 (length (take n (iterator s)))).
      { intros i Hi. by rewrite <-Ho, (order_perm _) in Hi. }
      exists [], s', o1, j, o2, y, e'. rewrite Hloop, Hg, app_nil_r.
      split; [done|]. split; [done|].
      split; [intros i Hi; simpl in Hi; lia|].
      split; [by rewrite Hlc|]. split; [|split; [done|]].
      * rewrite <-Habs; [done|]. apply Hin, elem_of_app. right. by left.
      * intros i z Hi Hz. apply (Ho1 i z Hi).
        rewrite Habs; [done|]. apply Hin, elem_of_app. by left.
  - assert (Hc : length pre / n = S ((length pre - n) / n)).
    { replace (length pre) with ((length pre - n) + 1 * n) at 1 by lia.
      rewrite Nat.div_add by lia. lia. }
    destruct (pass_chunk raises fuel n s committed Hn Hready)
      as (s1 & Hacc1 & Hh1 & Hi1 & Hv1 & Hb1 & Hs1 & Hloop);
      [lia|left; lia|].
    destruct (chunk_returned n s s1 (take n rs) Hn Hready)
      as (s2 & Hg & Hacc2 & Hi2 & Hv2 & Hb2 & Hs2 & Hl2); try done; [lia| |].
    { rewrite Hit, take_app_le by lia. by apply Forall2_take. }
    rewrite Hloop, Hg, Hup.
    replace (n `min` length (iterator s)) with n in * by lia.
    replace (n - length (iterator s)) with 0 in * by lia.
    simpl. rewrite app_nil_r.
    destruct (IH (length pre - n) ltac:(lia) (drop n pre) (drop n rs) fuel
                 s2 (committed ++ [take n rs])
                 (consumed ++ take n (iterator s)))
      as (groups & s' & o1 & j & o2 & y & e' & Hloop' & Hlen' & Hidx & Ho
          & Hy & He' & Ho1).
    { by rewrite length_drop. }
    { split; [done|]. split; [done|]. by split. }
    { by rewrite Hi2, <-app_assoc, take_drop. }
    { rewrite length_app, length_take, Hl2. lia. }
    { rewrite Hi2, Hit, drop_app_le by lia. done. }
    { by apply Forall2_drop. }
    { done. }
    { destruct Hcur as [?|Hfull]; [by left|right].
      rewrite Hi2, length_drop. rewrite Hc in Hfull. lia. }
    { rewrite Hi2, length_drop. lia. }
    exists (take n rs :: groups), s', o1, j, o2, y, e'.
    rewrite Hloop', <-app_assoc. split; [done|]. split; [|split].
    + simpl. rewrite Hlen'. lia.
    + intros [|i] Hi.
      * change (0 * n) with 0. by rewrite drop_0.
      * simpl in Hi. simpl. rewrite Hidx by lia. by rewrite drop_drop.
    + split; [|done].
      rewrite length_app, length_take in Ho.
      replace (length consumed + length pre / n * n)
        with (length consumed + n `min` length (iterator s)
              + (length pre - n) / n * n) by (rewrite Hc; lia).
      done.
Qed.

(** When transforms raise, the run of the driver ends with the exception
    of one of them: the first to raise, in the order the futures resolve,
    among the transforms of the first chunk that has an item whose
    transform raises. When that item is the only one of its chunk whose
    transform raises, the run ends with its exception. The whole chunks of
    [n] items before that chunk have been committed, in order; that chunk
    and everything after it is not. *)
Theorem multi_fails_fast num_workers (pre post : list Item) x e raises
    (f : Item → Result) :
  0 < chunk_size builder →
  connect builder = None →
  get_items builder = inr (mk_cursor (pre ++ x :: post) raises) →
  ProcessPoolExecutor num_workers = None →
  (∀ y, y ∈ pre → process y = inl (f y)) →
  process x = inr e →
  (∀ committed processed_items,
     update_targets builder committed processed_items = None) →
  raises = None
  ∨ (length pre / chunk_size builder + 1) * chunk_size builder
    ≤ length (pre ++ x :: post) →
  length (commits (multi builder ProcessPoolExecutor order num_workers))
  = length pre / chunk_size builder
  ∧ (∀ i, i < length pre / chunk_size builder →
       commits (multi builder ProcessPoolExecutor order num_workers) !! i
       = Some (f <$> take (chunk_size builder)
                          (drop (i * chunk_size builder) pre)))
  ∧ (∃ o1 j o2 y e',
       order (seq (length pre / chunk_size builder * chunk_size builder)
                  (length (take (chunk_size builder)
                             (drop (length pre / chunk_size builder
                                    * chunk_size builder)
                                   (pre ++ x :: post)))))
       = o1 ++ j :: o2
       ∧ (pre ++ x :: post) !! j = Some y ∧ process y = inr e'
       ∧ (∀ i z, i ∈ o1 → (pre ++ x :: post) !! i = Some z →
                 is_Some (maybe inl (process z)))
       ∧ ending (multi builder ProcessPoolExecutor order num_workers)
         = Failed e')
  ∧ ((∀ i z, i ≠ length pre →
        i ∈ seq (length pre / chunk_size builder * chunk_size builder)
                (chunk_size builder) →
        (pre ++ x :: post) !! i = Some z →
        is_Some (maybe inl (process z))) →
     ending (multi builder ProcessPoolExecutor order num_workers)
     = Failed e).
Proof using order_perm.
  intros Hn Hconnect Hget Hpool Hf Hx Hup Hcur.
  destruct (loop_failure raises (chunk_size builder) (pre ++ x :: post) []
              x e post pre (f <$> pre) (S (length (pre ++ x :: post)))
              (init (chunk_size builder) (pre ++ x :: post)) []
              Hn (init_ready _ _) Hup)
    as (groups & s' & o1 & j & o2 & y & e' & Hloop & Hlen & Hidx & Ho & Hy
        & He' & Ho1); try done.
  { apply Forall2_fmap_r, Forall_Forall2_diag, Forall_forall.
    intros z Hz. by apply Hf. }
  { simpl. lia. }
  simpl in Ho.
  unfold multi. rewrite Hconnect, Hget, Hpool.
  cbv beta match delta [c_raises c_items]. rewrite Hloop. simpl. split; [done|]. split; [|split].
  - intros i Hi. rewrite Hidx by lia. by rewrite fmap_take, fmap_drop.
  - by exists o1, j, o2, y, e'.
  - intros Honly. f_equal.
    assert (Hj : j ∈ seq (length pre / chunk_size builder
                          * chunk_size builder)
                         (chunk_size builder)).
    { assert (Hjo : j ∈ o1 ++ j :: o2)
        by (apply elem_of_app; right; by left).
      rewrite <-Ho, (order_perm _) in Hjo. apply elem_of_seq in Hjo.
      rewrite length_take in Hjo. apply elem_of_seq. lia. }
    destruct (decide (j = length pre)) as [->|Hne].
    + rewrite list_lookup_middle in Hy by done. congruence.
    + destruct (Honly j y Hne Hj Hy) as [r Hr].
      rewrite He' in Hr. done.
Qed.

(** Whatever the transforms, the cursor and [update_targets] do, the loop
    comes to an end: with the cursor exhausted, or with an exception of
    the cursor, of a transform or of [update_targets]. *)
Lemma loop_ends raises n fuel s committed :
  0 < n → ready n s → length (iterator s) < fuel →
  match ending (multi_loop builder order raises fuel n (replicate n true) 0
                           s committed) with
  | Done => raises = None
  | CursorRaised e => raises = Some e
  | Failed e => ∃ x, x ∈ iterator s ∧ process x = inr e
  | UpdateRaised e => ∃ c b, update_targets builder c b = Some e
  | _ => False
  end.
Proof using order_perm.
  intros Hn. remember (length (iterator s)) as L eqn:HL.
  revert fuel s committed HL.
  induction L as [L IH] using lt_wf_ind.
  intros fuel s committed -> Hready Hfuel.
  destruct fuel as [|fuel]; [lia|].
  destruct (decide (length (iterator s) = 0)) as [H0|H0].
  { destruct (loop_empty raises fuel n s committed Hn Hready)
      as (s' & ->); [by apply nil_length_inv|].
    by destruct raises. }
  destruct (decide (length (iterator s) < n ∧ is_Some raises))
    as [[Hlt [e ->]]|Hchunk].
  { destruct Hready as (Hacc & Hv & Hb & Hst).
    destruct (pull_mapper_live n s) as (s1 & Hp & _); [lia|].
    rewrite multi_loop_unfold, Hp. by rewrite decide_True by lia. }
  destruct (pass_chunk raises fuel n s committed Hn Hready)
    as (s1 & Hacc1 & Hh1 & Hi1 & Hv1 & Hb1 & Hs1 & Hloop); [lia| |].
  { destruct (decide (n ≤ length (iterator s))); [by left|right].
    destruct raises; [|done]. destruct Hchunk. split; [lia|by eexists]. }
  rewrite Hloop.
  destruct (chunk_cases (take n (iterator s)) (handles s) s1 Hacc1 Hh1)
    as [[rs Hall]|(o1 & j & o2 & y & e' & s' & Ho & Hy & He' & Ho1 & Hg)].
  2: { rewrite Hg. simpl. exists y. split; [|done].
       apply (subseteq_take n). by eapply list_elem_of_lookup_2. }
  destruct (chunk_returned n s s1 rs Hn Hready)
    as (s2 & Hg & Hacc2 & Hi2 & Hv2 & Hb2 & Hs2 & Hl2); try done; [lia|].
  rewrite Hg.
  destruct (update_targets builder committed rs) as [e|] eqn:Hupd;
    [simpl; by eexists _, _|].
  destruct (decide (n ≤ length (iterator s))) as [Hfull|Hpart].
  - replace (n `min` length (iterator s)) with n in * by lia.
    replace (n - length (iterator s)) with 0 in * by lia.
    simpl. rewrite app_nil_r.
    assert (Hready2 : ready n s2).
    { split; [done|]. split; [done|]. by split. }
    assert (Hlen2 : length (iterator s2) < length (iterator s))
      by (rewrite Hi2, length_drop; lia).
    pose proof (IH (length (iterator s2)) Hlen2 fuel s2
                   (committed ++ [rs]) eq_refl Hready2 ltac:(lia)) as Hend.
    destruct (ending _); try done.
    destruct Hend as (x & Hx & Hpx). exists x. split; [|done].
    rewrite Hi2 in Hx. by apply (subseteq_drop n).
  - assert (Hr : raises = None).
    { destruct raises; [|done]. destruct Hchunk. split; [lia|by eexists]. }
    subst raises. destruct fuel as [|fuel]; [lia|].
    replace (n `min` length (iterator s)) with (length (iterator s))
      in * by lia.
    destruct (loop_tail fuel n (length (iterator s)) s2 (committed ++ [rs]))
      as (s' & ->); [|lia|lia|lia|done].
    rewrite Hi2. apply drop_ge. lia.
Qed.

(** Whatever the builder, the pool and the cursor do, a run of the driver
    with room for at least one transform comes to an end, and it ends in
    one of these ways: an exception of [connect], of [get_items] or of
    the making of the pool, before any item is read; the cursor
    exhausted; an exception of the cursor; the exception of a transform
    of one of the items; or an exception of [update_targets]. No call of
    [__anext__] is left waiting for a unit, and no [release()]
    overflows. *)
Theorem multi_ends num_workers :
  0 < chunk_size builder →
  match ending (multi builder ProcessPoolExecutor order num_workers) with
  | Done =>
      ∃ cursor,
        connect builder = None ∧ get_items builder = inr cursor
        ∧ ProcessPoolExecutor num_workers = None
        ∧ c_raises cursor = None
  | ConnectRaised e => connect builder = Some e
  | GetItemsRaised e => connect builder = None ∧ get_items builder = inl e
  | ExecutorRaised e =>
      connect builder = None
      ∧ (∃ cursor, get_items builder = inr cursor)
      ∧ ProcessPoolExecutor num_workers = Some e
  | CursorRaised e =>
      ∃ cursor, get_items builder = inr cursor ∧ c_raises cursor = Some e
  | Failed e =>
      ∃ cursor x,
        get_items builder = inr cursor ∧ x ∈ c_items cursor
        ∧ process x = inr e
  | UpdateRaised e =>
      ∃ committed processed_items,
        update_targets builder committed processed_items = Some e
  | ReleaseValueError | Blocked | Unfinished => False
  end.
Proof using order_perm.
  intros Hn. unfold multi.
  destruct (connect builder) as [e|] eqn:Hconnect; [done|].
  destruct (get_items builder) as [e|cursor] eqn:Hget; [done|].
  destruct (ProcessPoolExecutor num_workers) as [e|] eqn:Hpool.
  { simpl. split; [done|]. split; [by eexists|done]. }
  pose proof (loop_ends (c_raises cursor) (chunk_size builder)
                (S (length (c_items cursor)))
                (init (chunk_size builder) (c_items cursor)) []
                Hn (init_ready _ _) ltac:(simpl; lia)) as Hend.
  destruct (ending _); try done.
  - by exists cursor.
  - by exists cursor.
  - destruct Hend as (x & Hx & Hpx). by exists cursor, x.
Qed.

End facts.

Lemma last_first_perm chunk : last_first chunk ≡ₚ chunk.
Proof. apply reverse_Permutation. Qed.

(** Seven items in chunks of three, the futures of a chunk resolving last
    one first. *)
Lemma multi_commits_chunks_witness :
  (∀ chunk, last_first chunk ≡ₚ chunk)
  ∧ 0 < chunk_size (test_builder double_or_raise [1; 2; 3; 4; 5; 6; 7]
                                 None 3)
  ∧ (∀ x, x ∈ [1; 2; 3; 4; 5; 6; 7] → double_or_raise x = inl (2 * x))
  ∧ commits (multi (test_builder double_or_raise [1; 2; 3; 4; 5; 6; 7]
                                 None 3) pool last_first 2)
    = [[2; 4; 6]; [8; 10; 12]; [14]]
  ∧ ending (multi (test_builder double_or_raise [1; 2; 3; 4; 5; 6; 7]
                                None 3) pool last_first 2) = Done
  ∧ length (commits (multi (test_builder double_or_raise
                                         [1; 2; 3; 4; 5; 6; 7] None 3)
                           pool last_first 2))
    = ceil_div (length [1; 2; 3; 4; 5; 6; 7])
               (chunk_size (test_builder double_or_raise
                                         [1; 2; 3; 4; 5; 6; 7] None 3))
  ∧ (∀ i,
       i < length (commits (multi (test_builder double_or_raise
                                                [1; 2; 3; 4; 5; 6; 7] None 3)
                                  pool last_first 2)) →
       commits (multi (test_builder double_or_raise [1; 2; 3; 4; 5; 6; 7]
                                    None 3) pool last_first 2) !! i
       = Some ((λ x, 2 * x)
                 <$> take (chunk_size (test_builder double_or_raise
                                         [1; 2; 3; 4; 5; 6; 7] None 3))
                          (drop (i * chunk_size
                                        (test_builder double_or_raise
                                           [1; 2; 3; 4; 5; 6; 7] None 3))
                                [1; 2; 3; 4; 5; 6; 7])))
  ∧ concat (commits (multi (test_builder double_or_raise
                                         [1; 2; 3; 4; 5; 6; 7] None 3)
                           pool last_first 2))
    = (λ x, 2 * x) <$> [1; 2; 3; 4; 5; 6; 7].
Proof.
  assert (Hf : ∀ x, x ∈ [1; 2; 3; 4; 5; 6; 7]
                    → double_or_raise x = inl (2 * x)).
  { intros x Hx.
    repeat (apply elem_of_cons in Hx as [->|Hx]; [reflexivity|]).
    by apply elem_of_nil in Hx. }
  split; [exact last_first_perm|]. split; [simpl; lia|].
  split; [exact Hf|]. split; [reflexivity|].
  apply (multi_commits_chunks
           (test_builder double_or_raise [1; 2; 3; 4; 5; 6; 7] None 3)
           pool last_first last_first_perm 2 [1; 2; 3; 4; 5; 6; 7]
           (λ x, 2 * x));
    [simpl; lia | reflexivity | reflexivity | reflexivity | exact Hf
    | reflexivity].
Defined.


(** Seven items in chunks of three. The fourth and the fifth fail, each in
    its own way; they are in the same chunk, and the future of the fifth
    resolves first: the run ends with its exception, the first chunk
    committed. *)
Lemma multi_fails_fast_witness :
  (∀ chunk, last_first chunk ≡ₚ chunk)
  ∧ 0 < chunk_size (test_builder halve_or_raise
                                 ([4; 6; 8] ++ 1 :: [0; 10; 12]) None 3)
  ∧ (∀ y, y ∈ [4; 6; 8] → halve_or_raise y = inl (y / 2))
  ∧ halve_or_raise 1 = inr "ValueError"%string
  ∧ commits (multi (test_builder halve_or_raise
                                 ([4; 6; 8] ++ 1 :: [0; 10; 12]) None 3)
                   pool last_first 2)
    = [[2; 3; 4]]
  ∧ ending (multi (test_builder halve_or_raise
                                ([4; 6; 8] ++ 1 :: [0; 10; 12]) None 3)
                  pool last_first 2)
    = Failed "ZeroDivisionError"%string
  ∧ length (commits (multi (test_builder halve_or_raise
                              ([4; 6; 8] ++ 1 :: [0; 10; 12]) None 3)
                           pool last_first 2))
    = length [4; 6; 8]
      / chunk_size (test_builder halve_or_raise
                                 ([4; 6; 8] ++ 1 :: [0; 10; 12]) None 3).
Proof.
  assert (Hf : ∀ y, y ∈ [4; 6; 8] → halve_or_raise y = inl (y / 2)).
  { intros y Hy.
    repeat (apply elem_of_cons in Hy as [->|Hy]; [reflexivity|]).
    by apply elem_of_nil in Hy. }
  split; [exact last_first_perm|]. split; [simpl; lia|].
  split; [exact Hf|]. split; [reflexivity|]. split; [reflexivity|].
  split; [reflexivity|].
  apply (multi_fails_fast
           (test_builder halve_or_raise ([4; 6; 8] ++ 1 :: [0; 10; 12])
                         None 3)
           pool last_first last_first_perm 2 [4; 6; 8] [0; 10; 12] 1
           "ValueError"%string None (λ y, y / 2));
    [simpl; lia | reflexivity | reflexivity | reflexivity | exact Hf
    | reflexivity | reflexivity | by left].
Defined.

(** Three items in chunks of two, the second failing. *)
Lemma multi_ends_witness :
  (∀ chunk, last_first chunk ≡ₚ chunk)
  ∧ 0 < chunk_size (test_builder double_or_raise [3; 0; 5] None 2)
  ∧ ending (multi (test_builder double_or_raise [3; 0; 5] None 2)
                  pool last_first 2)
    = Failed "ZeroDivisionError"%string
  ∧ ∃ cursor x,
      get_items (test_builder double_or_raise [3; 0; 5] None 2)
      = inr cursor
      ∧ x ∈ c_items cursor
      ∧ process_item (test_builder double_or_raise [3; 0; 5] None 2) x
        = inr "ZeroDivisionError"%string.
Proof.
  split; [exact last_first_perm|]. split; [simpl; lia|].
  split; [reflexivity|].
  exact (multi_ends (test_builder double_or_raise [3; 0; 5] None 2)
           pool last_first last_first_perm 2 ltac:(simpl; lia)).
Defined.

End DriverFacts.

(** ** More on the grouper *)

Module GrouperEdges.
Import Grouper GrouperFacts.

Section edges.
Context {A : Type}.
Implicit Types (it l : list (option A)).

(** On any iterator, [None] elements or not, the grouper with its default
    fill value ends with [ceil(L / n)] groups; group [i] is what is left
    of the block of [n] elements at position [i * n] once its [None]
    entries are dropped, so no group holds [None] and a group may be short
    or empty; and the groups put together are the elements of the iterator
    without the [None] ones. *)
Theorem grouper_drops_None it n :
  0 < n →
  ∃ groups,
    grouper (Iterator it) n None = Some groups
    ∧ length groups = ceil_div (length it) n
    ∧ (∀ i, i < length groups →
         groups !! i
         = Some (filter is_not_None (take n (drop (i * n) it))))
    ∧ Forall (λ g, (None ∉ g) ∧ length g ≤ n) groups
    ∧ concat groups = filter is_not_None it.
Proof.
  intros Hn.
  destruct (grouper_blocks it n Hn) as (groups & Hg & Hlen & Hidx & Hcat).
  exists groups. do 3 (split; [done|]). split; [|done].
  apply Forall_forall. intros g Hin.
  apply list_elem_of_lookup_1 in Hin as [i Hi].
  assert (Hlt : i < length groups) by by eapply lookup_lt_Some.
  rewrite (Hidx i Hlt) in Hi. injection Hi as <-. split.
  - intros Hnone. by apply list_elem_of_filter in Hnone as [Hnn _].
  - etrans; [apply length_filter|]. rewrite length_take. lia.
Qed.

(** With a fill value other than [None] the padding stays: on an iterator
    without [None] elements every group, the last one too, has [n]
    entries, group [i] being the block at position [i * n] filled up with
    the fill value. *)
Theorem grouper_keeps_fillvalue it n (x : A) :
  0 < n → None ∉ it →
  ∃ groups,
    grouper (Iterator it) n (Some x) = Some groups
    ∧ length groups = ceil_div (length it) n
    ∧ (∀ i, i < length groups →
         groups !! i
         = Some (padded (Some x) n (take n (drop (i * n) it))))
    ∧ Forall (λ g, length g = n) groups.
Proof.
  intros Hn Hnone.
  destruct (zip_longest_loop_blocks (Some x) n it (S (length it)))
    as (tuples & Hloop & Hlen & Hidx & _); [done|lia|].
  assert (Hpad : ∀ i, filter is_not_None
                        (padded (Some x) n (take n (drop (i * n) it)))
                      = padded (Some x) n (take n (drop (i * n) it))).
  { intros i. apply filter_not_None_id. unfold padded.
    rewrite elem_of_app. intros [Hin|Hin].
    - apply Hnone. by apply (subseteq_drop (i * n)), (subseteq_take n).
    - by apply elem_of_replicate in Hin as [? _]. }
  exists ((λ group, filter is_not_None group) <$> tuples).
  unfold grouper, zip_longest, its, elements. rewrite Hloop. simpl.
  split; [done|]. split; [by rewrite length_fmap|]. split.
  - intros i Hi. rewrite length_fmap in Hi.
    rewrite list_lookup_fmap, (Hidx i Hi). simpl. by rewrite Hpad.
  - apply Forall_forall. intros g Hin.
    apply list_elem_of_lookup_1 in Hin as [i Hi].
    assert (Hlt : i < length tuples).
    { apply lookup_lt_Some in Hi. by rewrite length_fmap in Hi. }
    rewrite list_lookup_fmap, (Hidx i Hlt) in Hi. simpl in Hi.
    injection Hi as <-. rewrite Hpad. unfold padded.
    rewrite length_app, length_replicate, length_take. lia.
Qed.

(** Given a sequence, a list or a string, and not an iterator over it, the
    grouper does not chunk at all: each of the [n] slots of [zip_longest]
    iterates the sequence on its own, so there is one group for every
    element of the sequence, holding [n] copies of it ([None] elements
    give an empty group), and the fill value is never used. *)
Theorem grouper_sequence_copies l n (fillvalue : option A) :
  0 < n →
  grouper (Sequence l) n fillvalue
  = Some ((λ x, filter is_not_None (replicate n x)) <$> l).
Proof.
  intros Hn. unfold grouper, zip_longest, its, elements.
  rewrite zip_longest_loop_copies by done. simpl. f_equal.
  by rewrite <-list_fmap_compose.
Qed.

End edges.

Lemma grouper_drops_None_witness :
  0 < 2
  ∧ grouper (Iterator [Some 1; None; None; None; Some 5]) 2 None
    = Some [[Some 1]; []; [Some 5]]
  ∧ ∃ groups,
      grouper (Iterator [Some 1; None; None; None; Some 5]) 2 None
      = Some groups
      ∧ length groups
        = ceil_div (length [Some 1; None; None; None; Some 5]) 2
      ∧ (∀ i, i < length groups →
           groups !! i
           = Some (filter is_not_None
                     (take 2 (drop (i * 2)
                                   [Some 1; None; None; None; Some 5]))))
      ∧ Forall (λ g, (None ∉ g) ∧ length g ≤ 2) groups
      ∧ concat groups
        = filter is_not_None [Some 1; None; None; None; Some 5].
Proof.
  split; [lia|]. split; [reflexivity|].
  apply (grouper_drops_None [Some 1; None; None; None; Some 5] 2). lia.
Defined.

(** An iterator over the letters of ABCDEFG by three, filled with x. *)
Lemma grouper_keeps_fillvalue_witness :
  0 < 3
  ∧ (None ∉ [Some "A"; Some "B"; Some "C"; Some "D"; Some "E"; Some "F";
             Some "G"]%string)
  ∧ grouper (Iterator [Some "A"; Some "B"; Some "C"; Some "D"; Some "E";
                       Some "F"; Some "G"]%string) 3 (Some "x"%string)
    = Some [[Some "A"; Some "B"; Some "C"]; [Some "D"; Some "E"; Some "F"];
            [Some "G"; Some "x"; Some "x"]]%string
  ∧ ∃ groups,
      grouper (Iterator [Some "A"; Some "B"; Some "C"; Some "D"; Some "E";
                         Some "F"; Some "G"]%string) 3 (Some "x"%string)
      = Some groups
      ∧ length groups
        = ceil_div (length [Some "A"; Some "B"; Some "C"; Some "D"; Some "E";
                            Some "F"; Some "G"]%string) 3
      ∧ (∀ i, i < length groups →
           groups !! i
           = Some (padded (Some "x"%string) 3
                     (take 3 (drop (i * 3)
                        [Some "A"; Some "B"; Some "C"; Some "D"; Some "E";
                         Some "F"; Some "G"]%string))))
      ∧ Forall (λ g, length g = 3) groups.
Proof.
  assert (Hnone : None ∉ [Some "A"; Some "B"; Some "C"; Some "D"; Some "E";
                           Some "F"; Some "G"]%string).
  { intros Hin. repeat (apply elem_of_cons in Hin as [Hin|Hin];
                          [discriminate Hin|]).
    by apply elem_of_nil in Hin. }
  split; [lia|]. split; [exact Hnone|]. split; [reflexivity|].
  apply (grouper_keeps_fillvalue _ 3 "x"%string); [lia | exact Hnone].
Defined.

(** The call of the comment in the code, the string ABCDEFG by three with
    fill value x: seven groups of three equal letters. *)
Lemma grouper_sequence_copies_witness :
  0 < 3
  ∧ grouper (Sequence [Some "A"; Some "B"; Some "C"; Some "D"; Some "E";
                       Some "F"; Some "G"]%string) 3 (Some "x"%string)
    = Some [[Some "A"; Some "A"; Some "A"]; [Some "B"; Some "B"; Some "B"];
            [Some "C"; Some "C"; Some "C"]; [Some "D"; Some "D"; Some "D"];
            [Some "E"; Some "E"; Some "E"]; [Some "F"; Some "F"; Some "F"];
            [Some "G"; Some "G"; Some "G"]]%string.
Proof.
  split; [lia|].
  rewrite (grouper_sequence_copies _ 3 (Some "x"%string)) by lia.
  reflexivity.
Defined.

End GrouperEdges.

(** ** More on the constructor *)

Module InitRuns.
Import Projection.

Lemma interpret_fields_error f e :
  interpret_fields f = inl e → e = TypeError ∧ FOther ∈ f.
Proof.
  induction f as [|[l|obj d|] f IH]; simpl; [done| | |].
  - destruct (interpret_fields f); [|done].
    intros [= <-]. destruct (IH eq_refl) as [-> ?].
    split; [done|by right].
  - destruct (interpret_fields f); [|done].
    intros [= <-]. destruct (IH eq_refl) as [-> ?].
    split; [done|by right].
  - intros [= <-]. split; [done|by left].
Qed.

Lemma interpret_fields_other f :
  FOther ∈ f → interpret_fields f = inl TypeError.
Proof.
  induction f as [|[l|obj d|] f IH]; intros Hin; simpl.
  - by apply elem_of_nil in Hin.
  - apply elem_of_cons in Hin as [?|Hin]; [done|]. by rewrite IH.
  - apply elem_of_cons in Hin as [?|Hin]; [done|]. by rewrite IH.
  - done.
Qed.

(** Without an element that is neither a list nor a dict, the loop over
    [fields_to_project] ends with one element for each of them: the dict
    object itself where a dict is given, a dict of its own otherwise. *)
Lemma interpret_fields_ok f :
  FOther ∉ f →
  ∃ pm, interpret_fields f = inr pm ∧ length pm = length f
        ∧ ∀ j obj, pm !! j = Some (Given obj) ↔ given_at f obj j.
Proof.
  induction f as [|[l|obj d|] f IH]; intros Hnot; simpl.
  - exists []. split; [done|]. split; [done|].
    intros j obj. split; [done|]. by intros [? ?].
  - destruct IH as (pm & -> & Hlen & Href); [set_solver|].
    eexists. split; [done|]. simpl. split; [by rewrite Hlen|].
    intros [|j] obj'; simpl.
    + split; [done|]. by intros [? ?].
    + apply Href.
  - destruct IH as (pm & -> & Hlen & Href); [set_solver|].
    eexists. split; [done|]. simpl. split; [by rewrite Hlen|].
    intros [|j] obj'; simpl.
    + split.
      * intros [= <-]. by exists d.
      * intros [d' Hd']. simpl in Hd'. by injection Hd' as <- _.
    + apply Href.
  - exfalso. apply Hnot. by left.
Qed.

(** The constructor turns down a [fields_to_project] that is neither a list
    nor [None], and one that has an element that is neither a list nor a
    dict, with [TypeError] and before any store is touched. *)
Theorem init_rejects_fields srcs target_store fields_to_project
    query_by_key' chunk_size' w :
  fields_to_project = FieldsOther
  ∨ (∃ f, fields_to_project = FieldsList f ∧ length srcs = length f
          ∧ FOther ∈ f) →
  init (SourcesList srcs) target_store fields_to_project query_by_key'
       chunk_size' w
  = (inl TypeError, w).
Proof.
  intros [->|(f & -> & Hlen & Hin)]; [done|].
  unfold init, mbind, M_bind, bind, raise, ret.
  rewrite decide_False by (intros ?; done).
  by rewrite (interpret_fields_other f Hin).
Qed.

Lemma ensure_indexes_from k srcs acc w :
  for_each (zip (seq k (length srcs)) srcs)
    (λ '(i, s) index_checks,
       emit (EnsureIndex i (key s)) ;;
       ret (index_checks ++ [ensure_index s (key s)])) acc w
  = (inr (acc ++ ((λ s, ensure_index s (key s)) <$> srcs)),
     {| trace := trace w ++ imap (λ i s, EnsureIndex (k + i) (key s)) srcs;
        clock := clock w; clock_reads := clock_reads w |}).
Proof.
  revert k acc w. induction srcs as [|s srcs IH]; intros k acc w; simpl.
  - unfold ret. rewrite !app_nil_r. by destruct w.
  - unfold mbind, M_bind, bind, emit, ret. simpl.
    change (for_each (zip (seq (S k) (length srcs)) srcs) ?b ?a ?w')
      with (for_each (zip (seq (S k) (length srcs)) srcs) b a w').
    rewrite IH. simpl. rewrite <-!app_assoc. simpl. f_equal. f_equal.
    f_equal. f_equal.
    + by rewrite Nat.add_0_r.
    + apply imap_ext. intros i x _. simpl. f_equal. lia.
Qed.

Lemma dict_set_get (k v : string) (d : odict string string) :
  dict_get k (dict_set k v d) = Some v.
Proof.
  induction d as [|[k' v'] d IH]; simpl.
  - by rewrite decide_True.
  - case_decide; simpl; [by rewrite decide_True|]. by rewrite decide_False.
Qed.

Lemma update_key_get target_store store p :
  update_key target_store store p = []
  ∨ dict_get (key target_store) (update_key target_store store p)
    = Some (key store).
Proof.
  destruct p as [|kv p]; [by left|right].
  apply (dict_set_get (key target_store) (key store) (kv :: p)).
Qed.

(** The loop that includes the key leaves the elements of
    [projection_mapping] the objects they were; a dict of the
    constructor's own gets the key of its store. *)
Lemma include_key_refs target_store sps h pm' h' :
  include_key target_store sps h = (pm', h') →
  length pm' = length sps
  ∧ ∀ j store r, sps !! j = Some (store, r) →
      pm' !! j
      = Some (match r with
              | Fresh d => Fresh (update_key target_store store d)
              | Given obj => Given obj
              end).
Proof.
  revert h pm' h'.
  induction sps as [|[store0 [d|obj]] sps IH]; intros h pm' h'; simpl.
  - intros [= <- <-]. split; [done|]. by intros j store r.
  - destruct (include_key target_store sps h) as [pm1 h1] eqn:Hrest.
    intros [= <- <-]. destruct (IH _ _ _ Hrest) as [Hlen Hidx].
    split; [simpl; by rewrite Hlen|].
    intros [|j] store r; simpl; [by intros [= <- <-]|]. apply Hidx.
  - destruct (include_key target_store sps _) as [pm1 h1] eqn:Hrest.
    intros [= <- <-]. destruct (IH _ _ _ Hrest) as [Hlen Hidx].
    split; [simpl; by rewrite Hlen|].
    intros [|j] store r; simpl; [by intros [= <- <-]|]. apply Hidx.
Qed.

(** A dict of the caller that is the element of no store is left as it
    is. *)
Lemma include_key_untouched target_store sps h pm' h' obj :
  include_key target_store sps h = (pm', h') →
  (∀ j store, sps !! j ≠ Some (store, Given obj)) →
  h' !! obj = h !! obj.
Proof.
  revert h pm' h'.
  induction sps as [|[store0 [d|obj0]] sps IH]; intros h pm' h'; simpl.
  - by intros [= <- <-].
  - destruct (include_key target_store sps h) as [pm1 h1] eqn:Hrest.
    intros [= <- <-] Hno. apply (IH _ _ _ Hrest).
    intros j store. apply (Hno (S j) store).
  - destruct (include_key target_store sps _) as [pm1 h1] eqn:Hrest.
    intros [= <- <-] Hno. rewrite (IH _ _ _ Hrest).
    + assert (obj0 ≠ obj) by (intros ->; by apply (Hno 0 store0)).
      destruct (h !! obj0); [by rewrite lookup_insert_ne|done].
    + intros j store. apply (Hno (S j) store).
Qed.

(** A dict of the caller holds, after the loop, the key of the last store
    it is the element of. *)
Lemma include_key_last target_store sps h pm' h' obj j store
    (p : odict string string) :
  include_key target_store sps h = (pm', h') →
  sps !! j = Some (store, Given obj) →
  (∀ j' store', j < j' → sps !! j' ≠ Some (store', Given obj)) →
  h' !! obj = Some p →
  p = [] ∨ dict_get (key target_store) p = Some (key store).
Proof.
  revert h pm' h' j.
  induction sps as [|[store0 r0] sps IH]; intros h pm' h' j Hrun Hj Hlast Hp;
    [done|].
  destruct j as [|j]; simpl in Hj.
  - injection Hj as -> ->. simpl in Hrun.
    destruct (include_key target_store sps _) as [pm1 h1] eqn:Hrest.
    injection Hrun as <- <-.
    rewrite (include_key_untouched _ _ _ _ _ obj Hrest) in Hp.
    + destruct (h !! obj) as [p0|] eqn:Hobj.
      * rewrite lookup_insert_eq in Hp. injection Hp as <-.
        apply update_key_get.
      * congruence.
    + intros j' store'. apply (Hlast (S j') store'). lia.
  - assert (Hrest : ∃ h0 pm1, include_key target_store sps h0 = (pm1, h')).
    { simpl in Hrun. destruct r0 as [d|obj0].
      - destruct (include_key target_store sps h) as [pm1 h1] eqn:Hrest.
        injection Hrun as <- <-. by eexists _, _.
      - destruct (include_key target_store sps _) as [pm1 h1] eqn:Hrest.
        injection Hrun as <- <-. by eexists _, _. }
    destruct Hrest as (h0 & pm1 & Hrest).
    apply (IH _ _ _ j Hrest Hj); [|done].
    intros j' store' Hlt. apply (Hlast (S j') store'). lia.
Qed.

(** The last position at which a dict object is given. *)
Lemma last_given f obj i :
  given_at f obj i →
  ∃ j, i ≤ j ∧ given_at f obj j ∧ ∀ j', given_at f obj j' → j' ≤ j.
Proof.
  revert i. induction f as [|x f IH] using rev_ind; intros i [d Hi];
    [done|].
  assert (Hcases : (∃ d', x = FDict obj d') ∨ ∀ d', x ≠ FDict obj d').
  { destruct x as [l|obj' d'|]; [by right| |by right].
    destruct (decide (obj' = obj)) as [->|Hne]; [left; by exists d'|].
    right. intros d'' [= ? ?]. done. }
  destruct Hcases as [[d' ->]|Hx].
  - exists (length f). split; [|split].
    + apply lookup_lt_Some in Hi. rewrite length_app in Hi. simpl in Hi.
      lia.
    + exists d'. by rewrite list_lookup_middle.
    + intros j' [d'' Hj']. apply lookup_lt_Some in Hj'.
      rewrite length_app in Hj'. simpl in Hj'. lia.
  - assert (Hin : ∀ j, given_at (f ++ [x]) obj j → given_at f obj j).
    { intros j [d' Hj]. exists d'.
      destruct (decide (j < length f)) as [Hlt|Hge].
      - by rewrite lookup_app_l in Hj.
      - rewrite lookup_app_r in Hj by lia.
        destruct (j - length f) as [|n]; simpl in Hj; [|done].
        injection Hj as ->. by destruct (Hx d'). }
    destruct (IH i (Hin i (ex_intro _ d Hi))) as (j & Hij & [dj Hj] & Hmax).
    exists j. split; [done|]. split.
    + exists dj. rewrite lookup_app_l; [done|]. by eapply lookup_lt_Some.
    + intros j' Hj'. apply Hmax, Hin, Hj'.
Qed.

(** On a list of stores and a [fields_to_project] that is [None] or a list
    of as many lists and dicts, the constructor succeeds. It calls
    [ensure_index] on the key of every source, once each and in the order
    of the sources, and touches the stores in no other way. The builder
    has one projection mapping for each source, [None] each when
    [fields_to_project] is [None]. A mapping that is not empty maps the
    key of the target to the key of a source: to the key of its own source
    when it comes from a list or from a dict object given for this source
    only, and, the dict being updated in place, to the key of the last
    source the same dict object is given for otherwise. *)
Theorem init_builds srcs target_store fields_to_project query_by_key'
    chunk_size' w :
  fields_to_project = FieldsNone
  ∨ (∃ f, fields_to_project = FieldsList f ∧ length srcs = length f
          ∧ FOther ∉ f) →
  ∃ self w',
    init (SourcesList srcs) target_store fields_to_project query_by_key'
         chunk_size' w
    = (inr self, w')
    ∧ sources self = srcs ∧ target self = target_store
    ∧ chunk_size self = chunk_size'
    ∧ query_by_key self = default [] query_by_key'
    ∧ length (projection_mapping self) = length srcs
    ∧ trace w' = trace w ++ imap (λ i s, EnsureIndex i (key s)) srcs
    ∧ clock_reads w' = clock_reads w
    ∧ (fields_to_project = FieldsNone →
       projection_mapping self = replicate (length srcs) None)
    ∧ (∀ f i store p,
         fields_to_project = FieldsList f →
         srcs !! i = Some store →
         projection_mapping self !! i = Some (Some p) →
         p = []
         ∨ ∃ j store',
             srcs !! j = Some store'
             ∧ dict_get (key target_store) p = Some (key store')
             ∧ i ≤ j
             ∧ (∀ obj, given_at f obj i →
                  given_at f obj j ∧ ∀ j', given_at f obj j' → j' ≤ j)
             ∧ ((∀ obj, ¬ given_at f obj i) → j = i)).
Proof.
  intros [->|(f & -> & Hlen & Hnot)].
  - unfold init, mbind, M_bind, bind, ret, ensure_indexes. simpl.
    rewrite ensure_indexes_from. simpl. eexists _, _. split; [done|]. simpl.
    do 4 (split; [done|]). split; [by rewrite length_replicate|].
    do 3 (split; [done|]). by intros f i store p.
  - destruct (interpret_fields_ok f Hnot) as (pm & Hpm & Hlenpm & Href).
    destruct (include_key target_store (zip srcs pm) (given_dicts f))
      as [pm' h] eqn:Hrun.
    destruct (include_key_refs _ _ _ _ _ Hrun) as [Hlen' Hidx].
    unfold init, mbind, M_bind, bind, ret, ensure_indexes. simpl.
    rewrite decide_False by (intros ?; done). rewrite Hpm, Hrun. simpl.
    rewrite ensure_indexes_from. simpl. eexists _, _. split; [done|]. simpl.
    do 4 (split; [done|]).
    split; [rewrite length_fmap, Hlen', length_zip_with; lia|].
    do 2 (split; [done|]). split; [done|].
    intros f' i store p [= <-] Hs Hp.
    rewrite list_lookup_fmap in Hp.
    destruct (pm !! i) as [r|] eqn:Hr.
    2:{ apply lookup_ge_None in Hr. apply lookup_lt_Some in Hs. lia. }
    assert (Hz : zip srcs pm !! i = Some (store, r)).
    { apply lookup_zip_with_Some. by exists store, r. }
    rewrite (Hidx i store r Hz) in Hp. simpl in Hp. injection Hp as <-.
    destruct r as [d|obj]; simpl.
    + destruct (update_key_get target_store store d) as [He|Hk];
        [by left|right].
      exists i, store. split; [done|]. split; [done|]. split; [done|].
      split; [|done]. intros obj Hobj. apply Href in Hobj. congruence.
    + destruct (h !! obj) as [p|] eqn:Hh; [|by left]. simpl.
      destruct (last_given f obj i) as (j & Hij & Hj & Hmax);
        [by apply Href|].
      pose proof Hj as Hj'. apply Href in Hj'.
      destruct (srcs !! j) as [store'|] eqn:Hs'.
      2:{ apply lookup_ge_None in Hs'. apply lookup_lt_Some in Hj'. lia. }
      destruct (include_key_last target_store (zip srcs pm) (given_dicts f)
                  pm' h obj j store' p Hrun) as [He|Hk]; [| |done| |].
      * apply lookup_zip_with_Some. by exists store', (Given obj).
      * intros j' store'' Hlt Hz'.
        apply lookup_zip_with_Some in Hz'
          as (s0 & r0 & [= <- <-] & _ & Hr0).
        apply Href, Hmax in Hr0. lia.
      * by left.
      * right. exists j, store'. split; [done|]. split; [done|].
        split; [done|]. split.
        -- intros obj' Hobj'. apply Href in Hobj'.
           rewrite Hr in Hobj'. by injection Hobj' as <-.
        -- intros Hno. destruct (Hno obj). by apply Href.
Qed.

(** A number where a list of field names or a dict is due. *)
Lemma init_rejects_fields_witness :
  init (SourcesList [store_A; store_B]) store_T
       (FieldsList [FList ["a"]; FOther]) None 10 example_world
  = (inl TypeError, example_world).
Proof.
  apply (init_rejects_fields [store_A; store_B] store_T
           (FieldsList [FList ["a"]; FOther]) None 10 example_world).
  right. exists [FList ["a"]; FOther].
  split; [reflexivity|]. split; [reflexivity|].
  apply elem_of_cons. right. apply elem_of_cons. by left.
Defined.

(** One dict object, which takes the field [a] of the source as [x], given
    for both [C], keyed by [task_id], and [A], keyed by [k]: in the builder
    both mappings take the key from the field [k]. *)
Lemma init_builds_witness :
  match (init (SourcesList [store_C; store_A]) store_T
              (FieldsList [FDict 0 [("x", "a")]; FDict 0 [("x", "a")]]) None
              10 example_world).1 with
  | inr self => projection_mapping self
  | inl _ => []
  end
  = [Some [("x", "a"); ("k", "k")]; Some [("x", "a"); ("k", "k")]]
  ∧ ∃ self w',
    init (SourcesList [store_C; store_A]) store_T
         (FieldsList [FDict 0 [("x", "a")]; FDict 0 [("x", "a")]]) None 10
         example_world
    = (inr self, w')
    ∧ sources self = [store_C; store_A] ∧ target self = store_T
    ∧ chunk_size self = 10
    ∧ query_by_key self = default [] None
    ∧ length (projection_mapping self) = length [store_C; store_A]
    ∧ trace w'
      = trace example_world
        ++ imap (λ i s, EnsureIndex i (key s)) [store_C; store_A]
    ∧ clock_reads w' = clock_reads example_world
    ∧ (FieldsList [FDict 0 [("x", "a")]; FDict 0 [("x", "a")]] = FieldsNone →
       projection_mapping self
       = replicate (length [store_C; store_A]) None)
    ∧ (∀ f i store p,
         FieldsList [FDict 0 [("x", "a")]; FDict 0 [("x", "a")]]
         = FieldsList f →
         [store_C; store_A] !! i = Some store →
         projection_mapping self !! i = Some (Some p) →
         p = []
         ∨ ∃ j store',
             [store_C; store_A] !! j = Some store'
             ∧ dict_get (key store_T) p = Some (key store')
             ∧ i ≤ j
             ∧ (∀ obj, given_at f obj i →
                  given_at f obj j ∧ ∀ j', given_at f obj j' → j' ≤ j)
             ∧ ((∀ obj, ¬ given_at f obj i) → j = i)).
Proof.
  split; [vm_compute; reflexivity|].
  apply (init_builds [store_C; store_A] store_T
           (FieldsList [FDict 0 [("x", "a")]; FDict 0 [("x", "a")]]) None 10
           example_world).
  right. exists [FDict 0 [("x", "a")]; FDict 0 [("x", "a")]].
  split; [reflexivity|]. split; [reflexivity|].
  intros Hin. repeat (apply elem_of_cons in Hin as [Hin|Hin];
                        [discriminate Hin|]).
  by apply elem_of_nil in Hin.
Defined.

End InitRuns.

(** ** More on the key-grouping merge *)

Module MergeRuns.
Import Projection MergeFacts.

Implicit Types (i : doc) (k : value) (items g : list doc) (key f : string).

Lemma sort_by_key_missing key items (acc : odict value (list doc)) :
  (∃ i, i ∈ items ∧ i !! key = None) →
  sort_by_key key items acc = inl KeyError.
Proof.
  revert acc. induction items as [|j items IH]; intros acc (i & Hin & Hi).
  - by apply elem_of_nil in Hin.
  - simpl. destruct (j !! key) as [kv|] eqn:Hj; [|done].
    apply elem_of_cons in Hin as [->|Hin]; [congruence|].
    apply IH. by exists i.
Qed.

Lemma sort_by_key_error key items (acc : odict value (list doc)) e :
  sort_by_key key items acc = inl e →
  e = KeyError ∧ ∃ i, i ∈ items ∧ i !! key = None.
Proof.
  revert acc. induction items as [|j items IH]; intros acc; simpl; [done|].
  destruct (j !! key) as [kv|] eqn:Hj.
  - intros Hs. destruct (IH _ Hs) as (-> & i & Hin & Hi).
    split; [done|]. exists i. split; [by right|done].
  - intros [= <-]. split; [done|]. exists j. split; [by left|done].
Qed.

(** [process_item] raises [KeyError] exactly when one of the records has
    no key field (the field values being [None], numbers, strings and time
    stamps, as [value] has them). *)
Theorem process_item_KeyError self items :
  process_item self items = inl KeyError
  ↔ ∃ i, i ∈ items ∧ i !! key (target self) = None.
Proof.
  unfold process_item. split.
  - destruct (sort_by_key (key (target self)) items []) as [e|sorted] eqn:Hs;
      [|done].
    intros _. by apply sort_by_key_error in Hs as [_ ?].
  - intros Hmiss. by rewrite sort_by_key_missing.
Qed.

Lemma dict_append_fresh k i (d : odict value (list doc)) :
  k ∉ d.*1 → dict_append k i d = d ++ [(k, [i])].
Proof.
  induction d as [|[k' l] d IH]; simpl; intros Hk; [done|].
  rewrite decide_False by set_solver. f_equal. apply IH. set_solver.
Qed.

(** Records with pairwise different key values are sorted each into a group
    of its own, in their order. *)
Lemma sort_by_key_distinct key items ks (acc : odict value (list doc)) :
  Forall2 (λ i k, i !! key = Some k) items ks →
  NoDup (acc.*1 ++ ks) →
  sort_by_key key items acc
  = inr (acc ++ zip ks ((λ i, [i]) <$> items)).
Proof.
  intros Hall. revert acc.
  induction Hall as [|i k items ks Hi Hall IH]; intros acc Hnd; simpl.
  - by rewrite app_nil_r.
  - rewrite Hi. apply NoDup_app in Hnd as (Hacc & Hdisj & Hks).
    rewrite dict_append_fresh by (intros ?; eapply Hdisj; [done|by left]).
    rewrite IH; [by rewrite <-app_assoc|].
    rewrite fmap_app. simpl. rewrite <-app_assoc. simpl.
    apply NoDup_app. split; [done|]. split; [|done].
    intros x Hx. by apply Hdisj.
Qed.

(** Merging is idempotent: [process_item] gives back, unchanged and in
    their order, the records it has returned. *)
Theorem process_item_idempotent self items out :
  process_item self items = inr out →
  process_item self out = inr out.
Proof.
  intros Hp.
  assert (Hall : Forall (λ i, is_Some (i !! key (target self))) items).
  { apply Forall_forall. intros i Hin.
    destruct (i !! key (target self)) eqn:Hi; [by eexists|].
    unfold process_item in Hp.
    rewrite (sort_by_key_missing (key (target self)) items []) in Hp;
      [done|]. by exists i. }
  destruct (process_item_groups self items Hall)
    as (sorted & Hp' & Hnd & _ & _).
  rewrite Hp' in Hp. injection Hp as <-.
  unfold process_item.
  rewrite (sort_by_key_distinct _ _ sorted.*1 []).
  - simpl. f_equal. clear Hnd Hp'.
    induction sorted as [|[k g] sorted IH]; [done|]. simpl. f_equal; [|done].
    unfold merge_group at 1. simpl. unfold update.
    rewrite (right_id ∅ (∪)). apply insert_id, merge_group_key.
  - apply Forall2_fmap, Forall_Forall2_diag, Forall_forall.
    intros [k g] _. apply merge_group_key.
  - done.
Qed.

Lemma dom_foldl_update (target_doc : doc) g :
  dom (foldl update target_doc g) = dom target_doc ∪ ⋃ (dom <$> g).
Proof.
  revert target_doc. induction g as [|i g IH]; intros target_doc; simpl.
  - by rewrite (right_id_L ∅ (∪)).
  - rewrite IH. unfold update. rewrite dom_union_L. set_solver.
Qed.

(** The fields of a merged record are the key field and the fields of the
    records of its key group: no field of a record is lost, none is made
    up. *)
Theorem merged_fields self items :
  Forall (λ i, is_Some (i !! key (target self))) items →
  ∃ out,
    process_item self items = inr out
    ∧ ∀ d : doc, d ∈ out →
        ∃ k, d !! key (target self) = Some k
             ∧ dom d
               = {[ key (target self) ]}
                 ∪ ⋃ (dom <$> key_group (key (target self)) k items).
Proof.
  intros Hall.
  destruct (process_item_groups self items Hall)
    as (sorted & Hp & _ & _ & Hgroups).
  eexists. split; [exact Hp|]. intros d Hd.
  apply list_elem_of_fmap in Hd as ([k g] & -> & Hin). simpl.
  exists k. split; [apply merge_group_key|].
  rewrite (Hgroups k g Hin). unfold merge_group.
  rewrite dom_insert_L, dom_foldl_update, dom_empty_L. set_solver.
Qed.

Lemma foldl_update_member f (v : value) g :
  foldl update ∅ g !! f = Some v → ∃ i, i ∈ g ∧ i !! f = Some v.
Proof.
  intros Hv. apply foldl_update_lookup in Hv
    as [(g1 & i & g2 & -> & Hi & _)|[Hempty _]].
  - exists i. split; [|done]. apply elem_of_app. right. by left.
  - by rewrite lookup_empty in Hempty.
Qed.

Lemma foldl_update_is_Some f g :
  is_Some (foldl update ∅ g !! f) ↔ ∃ i, i ∈ g ∧ is_Some (i !! f).
Proof.
  rewrite <-elem_of_dom, dom_foldl_update, dom_empty_L, (left_id_L ∅ (∪)).
  rewrite elem_of_union_list. split.
  - intros (X & HX & Hf). apply list_elem_of_fmap in HX as (i & -> & Hi).
    exists i. split; [done|]. by apply elem_of_dom.
  - intros (i & Hi & Hf). exists (dom i). split.
    + apply list_elem_of_fmap. by exists i.
    + by apply elem_of_dom.
Qed.

(** Records that agree on the fields they share merge to the same record in
    whatever order they come. *)
Lemma merge_group_perm key k g g' :
  g ≡ₚ g' →
  (∀ i j f v w, i ∈ g → j ∈ g → f ≠ key →
                i !! f = Some v → j !! f = Some w → v = w) →
  merge_group key k g = merge_group key k g'.
Proof.
  intros Hperm Hagree. apply map_eq. intros f.
  destruct (decide (f = key)) as [->|Hf]; [by rewrite !merge_group_key|].
  rewrite !merge_group_other by done.
  destruct (foldl update ∅ g !! f) as [v|] eqn:Hv,
           (foldl update ∅ g' !! f) as [w|] eqn:Hw; [| | |done].
  - apply foldl_update_member in Hv as (i & Hi & Hiv).
    apply foldl_update_member in Hw as (j & Hj & Hjw).
    f_equal. eapply (Hagree i j); eauto. by rewrite Hperm.
  - apply foldl_update_member in Hv as (i & Hi & Hiv).
    assert (Hsome : is_Some (foldl update ∅ g' !! f)).
    { apply foldl_update_is_Some. exists i. rewrite <-Hperm. eauto. }
    rewrite Hw in Hsome. by destruct Hsome.
  - apply foldl_update_member in Hw as (j & Hj & Hjw).
    assert (Hsome : is_Some (foldl update ∅ g !! f)).
    { apply foldl_update_is_Some. exists j. rewrite Hperm. eauto. }
    rewrite Hv in Hsome. by destruct Hsome.
Qed.

Lemma process_item_out self items :
  Forall (λ i, is_Some (i !! key (target self))) items →
  ∃ out,
    process_item self items = inr out
    ∧ NoDup ((λ d : doc, d !! key (target self)) <$> out)
    ∧ ∀ d : doc,
        d ∈ out
        ↔ ∃ k, (∃ i, i ∈ items ∧ i !! key (target self) = Some k)
               ∧ d = merge_group (key (target self)) k
                       (key_group (key (target self)) k items).
Proof.
  intros Hall.
  destruct (process_item_groups self items Hall)
    as (sorted & Hp & Hnd & Hkeys & Hgroups).
  eexists. split; [exact Hp|]. split.
  - rewrite <-list_fmap_compose.
    rewrite (list_fmap_ext _ (λ ki, Some ki.1) sorted);
      [|intros ? [k g] _; apply merge_group_key].
    change (λ ki : value * list doc, Some ki.1) with (Some ∘ @fst value (list doc)).
    rewrite (list_fmap_compose fst Some). by apply (NoDup_fmap_2 Some).
  - intros d. rewrite list_elem_of_fmap. split.
    + intros ([k g] & -> & Hin). simpl. exists k. split.
      * apply Hkeys, list_elem_of_fmap. by exists (k, g).
      * by rewrite (Hgroups k g Hin).
    + intros (k & Hk & ->). apply Hkeys, list_elem_of_fmap in Hk
        as ([k' g] & Hk' & Hin). simpl in Hk'. subst k'.
      exists (k, g). split; [|done]. simpl. by rewrite (Hgroups k g Hin).
Qed.

(** The merge does not depend on the order of the records when records of
    one key value agree on the fields they share (records of different
    sources with fields of their own, say): the same records come out,
    possibly in another order. *)
Theorem process_item_order_insensitive self items items' :
  items ≡ₚ items' →
  Forall (λ i, is_Some (i !! key (target self))) items →
  (∀ i j f v w,
     i ∈ items → j ∈ items → i !! key (target self) = j !! key (target self) →
     f ≠ key (target self) → i !! f = Some v → j !! f = Some w → v = w) →
  ∃ out out',
    process_item self items = inr out
    ∧ process_item self items' = inr out'
    ∧ out ≡ₚ out'.
Proof.
  intros Hperm Hall Hagree.
  assert (Hall' : Forall (λ i, is_Some (i !! key (target self))) items')
    by by rewrite <-Hperm.
  destruct (process_item_out self items Hall) as (out & Hp & Hnd & Hout).
  destruct (process_item_out self items' Hall') as (out' & Hp' & Hnd' & Hout').
  exists out, out'. split; [done|]. split; [done|].
  apply NoDup_Permutation; [by eapply NoDup_fmap_1..|].
  intros d. rewrite Hout, Hout'.
  assert (Hmerge : ∀ k,
            merge_group (key (target self)) k
              (key_group (key (target self)) k items)
            = merge_group (key (target self)) k
                (key_group (key (target self)) k items')).
  { intros k. apply merge_group_perm.
    - unfold key_group. by rewrite Hperm.
    - intros i j f v w Hi Hj. unfold key_group in Hi, Hj.
      apply list_elem_of_filter in Hi as [Hik Hi].
      apply list_elem_of_filter in Hj as [Hjk Hj].
      apply Hagree; [done..|congruence]. }
  split; intros (k & (i & Hi & Hik) & ->); exists k.
  - split; [|by rewrite Hmerge]. exists i. by rewrite <-Hperm.
  - split; [|by rewrite Hmerge]. exists i. by rewrite Hperm.
Qed.

(** Merge and commit together: on records that all carry the key field,
    there being at least one, the target being stamped in a field other than
    its key, the sink is called once, with one record for every key value of
    the input, no two of them with the same key value, all stamped with the
    one reading of the clock. *)
Theorem commit_one_per_key self items w :
  Forall (λ i, is_Some (i !! key (target self))) items →
  items ≠ [] →
  last_updated_field (target self) ≠ key (target self) →
  ∃ out stamped w',
    process_item self items = inr out
    ∧ update_targets self out w = (inr stamped, w')
    ∧ trace w' = trace w ++ [Update stamped]
    ∧ NoDup ((λ d : doc, d !! key (target self)) <$> stamped)
    ∧ (∀ k, Some k ∈ (λ d : doc, d !! key (target self)) <$> stamped
            ↔ ∃ i, i ∈ items ∧ i !! key (target self) = Some k)
    ∧ Forall (λ d : doc,
                d !! last_updated_field (target self)
                = Some (VTime (clock w (clock_reads w)))) stamped.
Proof.
  intros Hall Hne Hluf.
  destruct (process_item_groups self items Hall)
    as (sorted & Hp & Hnd & Hkeys & Hgroups).
  set (out := (λ ki, merge_group (key (target self)) ki.1 ki.2) <$> sorted).
  set (t := clock w (clock_reads w)).
  set (stamped :=
         (λ item : doc, <[last_updated_field (target self) := VTime t]> item)
         <$> out).
  assert (Hkeyfield : (λ d : doc, d !! key (target self)) <$> stamped
                      = Some <$> sorted.*1).
  { unfold stamped, out. rewrite <-!list_fmap_compose.
    apply list_fmap_ext. intros ? [k g] _. simpl.
    rewrite lookup_insert_ne by done. apply merge_group_key. }
  assert (Hpos : 0 < length out).
  { unfold out. rewrite length_fmap, <-(length_fmap fst sorted).
    destruct items as [|i items]; [done|].
    apply Forall_cons in Hall as [[k Hk] _].
    assert (Hin : k ∈ sorted.*1) by (apply Hkeys; exists i; split;
                                       [by left|done]).
    destruct (sorted.*1); [by apply elem_of_nil in Hin|simpl; lia]. }
  exists out, stamped, {| trace := trace w ++ [Update stamped];
                          clock := clock w;
                          clock_reads := S (clock_reads w) |}.
  split; [done|]. split.
  { unfold update_targets, mbind, M_bind, bind, utcnow, emit, ret. simpl.
    by rewrite decide_True. }
  split; [done|]. rewrite Hkeyfield. split; [by apply (NoDup_fmap_2 Some)|].
  split.
  - intros k. rewrite <-Hkeys. rewrite list_elem_of_fmap. split.
    + by intros (k' & [= <-] & ?).
    + intros ?. by exists k.
  - apply Forall_fmap, Forall_forall. intros d _. simpl.
    apply lookup_insert_eq.
Qed.

(** The merged records of the example run, merged again. *)
Lemma process_item_idempotent_witness :
  ∃ out,
    process_item example_builder example_items = inr out
    ∧ length out = 2
    ∧ process_item example_builder out = inr out.
Proof.
  eexists. split; [reflexivity|]. split; [reflexivity|].
  apply (process_item_idempotent example_builder example_items).
  reflexivity.
Defined.

Lemma merged_fields_witness :
  Forall (λ i : doc, is_Some (i !! key (target example_builder)))
         example_items
  ∧ ∃ out,
      process_item example_builder example_items = inr out
      ∧ ∀ d : doc, d ∈ out →
          ∃ k, d !! key (target example_builder) = Some k
               ∧ dom d
                 = {[ key (target example_builder) ]}
                   ∪ ⋃ (dom <$> key_group (key (target example_builder)) k
                                          example_items).
Proof.
  split; [exact example_items_keyed|].
  apply (merged_fields example_builder example_items).
  exact example_items_keyed.
Defined.

Lemma example_items_agree i j f (v w : value) :
  i ∈ example_items → j ∈ example_items →
  i !! key (target example_builder) = j !! key (target example_builder) →
  f ≠ key (target example_builder) →
  i !! f = Some v → j !! f = Some w → v = w.
Proof.
  unfold example_items. simpl. intros Hi Hj Hk Hf Hv Hw.
  repeat (apply elem_of_cons in Hi as [->|Hi]);
    [| | |by apply elem_of_nil in Hi];
    (repeat (apply elem_of_cons in Hj as [->|Hj]);
       [| | |by apply elem_of_nil in Hj]);
    try (by vm_compute in Hk);
    rewrite ?lookup_insert_Some, ?lookup_singleton_Some in Hv, Hw;
    naive_solver.
Qed.

(** The records of the example run, and the same in the reverse order. *)
Lemma process_item_order_insensitive_witness :
  example_items ≡ₚ reverse example_items
  ∧ Forall (λ i : doc, is_Some (i !! key (target example_builder)))
           example_items
  ∧ ∃ out out',
      process_item example_builder example_items = inr out
      ∧ process_item example_builder (reverse example_items) = inr out'
      ∧ out ≡ₚ out'.
Proof.
  split; [symmetry; apply reverse_Permutation|].
  split; [exact example_items_keyed|].
  apply (process_item_order_insensitive example_builder example_items
           (reverse example_items)).
  - symmetry. apply reverse_Permutation.
  - exact example_items_keyed.
  - exact example_items_agree.
Defined.

Lemma commit_one_per_key_witness :
  Forall (λ i : doc, is_Some (i !! key (target example_builder)))
         example_items
  ∧ example_items ≠ []
  ∧ last_updated_field (target example_builder)
    ≠ key (target example_builder)
  ∧ ∃ out stamped w',
      process_item example_builder example_items = inr out
      ∧ update_targets example_builder out example_world = (inr stamped, w')
      ∧ trace w' = trace example_world ++ [Update stamped]
      ∧ NoDup ((λ d : doc, d !! key (target example_builder)) <$> stamped)
      ∧ (∀ k, Some k ∈ (λ d : doc, d !! key (target example_builder))
                        <$> stamped
              ↔ ∃ i, i ∈ example_items
                     ∧ i !! key (target example_builder) = Some k)
      ∧ Forall (λ d : doc,
                  d !! last_updated_field (target example_builder)
                  = Some (VTime (clock example_world
                                       (clock_reads example_world))))
               stamped.
Proof.
  split; [exact example_items_keyed|]. split; [discriminate|].
  split; [discriminate|].
  apply (commit_one_per_key example_builder example_items example_world);
    [exact example_items_keyed | discriminate | discriminate].
Defined.

End MergeRuns.

(** ** More on get_items *)

Module GetItemsRuns.
Import Projection GetItemsFacts.

Section runs.
Variable grouper : list value → nat → list (list value).
Variable list_of_set : list value → list value.
Variable get : doc → string → value.

Implicit Types (self : Projection_Builder) (w : world).

Lemma mbind_raise {A B} (m : M A) (f : A → M B) w e w' :
  m w = (inl e, w') → (m ≫= f) w = (inl e, w').
Proof. intros Hm. unfold mbind, M_bind, bind. by rewrite Hm. Qed.

Lemma mbind_ret {A B} (m : M A) (f : A → M B) w a w' :
  m w = (inr a, w') → (m ≫= f) w = f a w'.
Proof. intros Hm. unfold mbind, M_bind, bind. by rewrite Hm. Qed.

(** An exception raised while the first store is queried for the first
    chunk of keys is the exception of [get_items]. *)
Lemma first_store_raises self keys w1 chunk rest store stores p pm w e w2 :
  distinct_keys list_of_set self w = (inr keys, w1) →
  grouper keys (chunk_size self) = chunk :: rest →
  sources self = store :: stores →
  projection_mapping self = p :: pm →
  query_store get self (filter (λ k, k ≠ VNone) chunk) (0, (store, p))
              ([], false) w1
  = (inl e, w2) →
  get_items grouper list_of_set get self w = (inl e, w2).
Proof.
  intros Hd Hg Hs Hpm Hq. unfold get_items.
  rewrite (mbind_ret _ _ _ _ _ Hd), Hg.
  apply mbind_raise. simpl. apply mbind_raise.
  unfold query_chunk. apply mbind_raise. rewrite Hs, Hpm. simpl.
  by apply mbind_raise.
Qed.

(** A builder made without [fields_to_project] cannot get its items: the
    constructor leaves [None] for every projection mapping, and [get_items]
    raises [AttributeError] on the first of them, after the key values were
    found and before any query; nothing is yielded. *)
Theorem get_items_default_mapping self store stores target_store
    query_by_key' chunk_size' w0 w keys w1 chunk rest :
  init (SourcesList (store :: stores)) target_store FieldsNone query_by_key'
       chunk_size' w0
  = (inr self, w) →
  distinct_keys list_of_set self w = (inr keys, w1) →
  grouper keys (chunk_size self) = chunk :: rest →
  get_items grouper list_of_set get self w = (inl AttributeError, w1).
Proof.
  intros Hinit Hd Hg.
  unfold init, mbind, M_bind, bind, ret in Hinit. simpl in Hinit.
  destruct (ensure_indexes _ w0) as [[e|checks] w'']; [done|].
  injection Hinit as <- <-.
  by apply (first_store_raises _ keys w1 chunk rest store stores None
              (replicate (length stores) None)).
Qed.

(** The debug message after the loop over the records of a store reads the
    local [item]: when the first store that is queried returns no record,
    [get_items] raises [UnboundLocalError] right after that query, and
    nothing is yielded. *)
Theorem get_items_no_docs self keys w1 chunk rest store stores p pm w :
  distinct_keys list_of_set self w = (inr keys, w1) →
  grouper keys (chunk_size self) = chunk :: rest →
  sources self = store :: stores →
  projection_mapping self = Some p :: pm →
  query store (key store) (filter (λ k, k ≠ VNone) chunk)
        (match p with [] => None | _ => Some p.*2 end)
  = [] →
  get_items grouper list_of_set get self w
  = (inl UnboundLocalError,
     {| trace := trace w1
                 ++ [Query 0 (key store) (filter (λ k, k ≠ VNone) chunk)
                           (match p with [] => None | _ => Some p.*2 end)];
        clock := clock w1; clock_reads := clock_reads w1 |}).
Proof.
  intros Hd Hg Hs Hpm Hq.
  apply (first_store_raises _ keys w1 chunk rest store stores (Some p) pm);
    try done.
  unfold query_store, mbind, M_bind, bind, ret, emit, raise. simpl.
  by rewrite Hq.
Qed.

Section chunk_events.
Variable P : event → Prop.
Hypothesis P_query : ∀ i field keys properties,
  P (Query i field keys properties).
Hypothesis P_yield : ∀ items, P (Yield items).

Lemma query_store_chunk_events self chunked_keys sp st :
  emits P (λ _, True) (query_store get self chunked_keys sp st).
Proof using P_query.
  destruct sp as [i [store projection]]. unfold query_store.
  eapply (emits_bind _ (λ _, True));
    [destruct projection; [by apply emits_ret|apply emits_raise]|].
  intros p _. eapply emits_bind; [by apply emits_emit|]. intros _ _.
  eapply (emits_bind _ (λ _, True)).
  - apply (emits_for_each _ (λ _, True)); [|done].
    intros d st' _ _.
    destruct (make_item get self store p _ d);
      [apply emits_raise|by apply emits_ret].
  - intros [items [|]] _; [by apply emits_ret|apply emits_raise].
Qed.

Lemma query_chunk_chunk_events self chunked_keys item_bound :
  emits P (λ _, True) (query_chunk get self chunked_keys item_bound).
Proof using P_query P_yield.
  unfold query_chunk. eapply (emits_bind _ (λ _, True)).
  - apply (emits_for_each _ (λ _, True)); [|done].
    intros sp st _ _. apply query_store_chunk_events.
  - intros [items b] _. eapply emits_bind; [by apply emits_emit|].
    intros; by apply emits_ret.
Qed.

End chunk_events.

(** With key values given in [query_by_key], [get_items] does not ask any
    store for its distinct key values: all it does to the stores is query
    them. *)
Theorem get_items_given_keys self w :
  0 < length (query_by_key self) →
  ∃ evs,
    trace (get_items grouper list_of_set get self w).2 = trace w ++ evs
    ∧ Forall (λ ev, match ev with
                    | Query _ _ _ _ | Yield _ => True
                    | _ => False
                    end) evs.
Proof.
  intros Hq.
  assert (Hemits : emits (λ ev, match ev with
                               | Query _ _ _ _ | Yield _ => True
                               | _ => False
                               end) (λ _, True)
                         (get_items grouper list_of_set get self)).
  { unfold get_items, distinct_keys. rewrite decide_True by done.
    eapply (emits_bind _ (λ _, True)); [by apply emits_ret|]. intros keys _.
    eapply (emits_bind _ (λ _, True)); [|intros; by apply emits_ret].
    apply (emits_for_each _ (λ _, True)); [|done].
    intros chunk b _ _. by apply query_chunk_chunk_events. }
  destruct (Hemits w) as (evs & Htr & Hevs & _). by exists evs.
Qed.

(** Every item [get_items] yields is made from a record [d] that one of
    the sources has returned for a query on its key field without [None]
    among the key values. The item carries the value [d] has in the key
    field of that source under the key field of the target; it has no
    ["_id"] field, unless that is the key field of the target; and it has
    not the last-updated field of that source, unless that is the key field
    of the target. *)
Theorem get_items_items_shape self w :
  ∃ evs,
    trace (get_items grouper list_of_set get self w).2 = trace w ++ evs
    ∧ Forall
        (sound_event
           (λ item : doc,
              ∃ store chunked_keys properties (d : doc),
                store ∈ sources self
                ∧ VNone ∉ chunked_keys
                ∧ d ∈ query store (key store) chunked_keys properties
                ∧ is_Some (d !! key store)
                ∧ item !! key (target self) = d !! key store
                ∧ (key (target self) ≠ "_id" → item !! "_id" = None)
                ∧ (last_updated_field store ≠ key (target self) →
                     item !! last_updated_field store = None)))
        evs.
Proof.
  destruct (get_items_emits grouper list_of_set get self
              (λ item : doc,
                 ∃ store chunked_keys properties (d : doc),
                   store ∈ sources self
                   ∧ VNone ∉ chunked_keys
                   ∧ d ∈ query store (key store) chunked_keys properties
                   ∧ is_Some (d !! key store)
                   ∧ item !! key (target self) = d !! key store
                   ∧ (key (target self) ≠ "_id" → item !! "_id" = None)
                   ∧ (last_updated_field store ≠ key (target self) →
                        item !! last_updated_field store = None))) with w
    as (evs & Htr & Hevs & _); [|by exists evs].
  intros store chunked_keys p properties d item Hstore Hnone Hd Hitem.
  exists store, chunked_keys, properties, d.
  do 3 (split; [done|]).
  unfold make_item in Hitem.
  destruct (d !! key store) as [key_value|]; [|done].
  injection Hitem as <-. simpl. split; [by eexists|]. split; [|split].
  - by rewrite lookup_insert_eq.
  - intros Hid. rewrite lookup_insert_ne by done.
    destruct (decide (last_updated_field store = "_id")) as [->|Hne].
    + apply lookup_delete_eq.
    + rewrite lookup_delete_ne by done. apply lookup_delete_eq.
  - intros Hluf.
    rewrite lookup_insert_ne by done. apply lookup_delete_eq.
Qed.

End runs.

(** The builder of the constructor called without [fields_to_project]. *)
Lemma get_items_default_mapping_witness :
  let self :=
    {| sources := [store_A; store_B]; target := store_T;
       projection_mapping := [None; None];
       query_by_key := []; chunk_size := 10 |} in
  let w :=
    {| trace := [EnsureIndex 0 "k"; EnsureIndex 1 "k"];
       clock := clock example_world; clock_reads := 0 |} in
  let w1 :=
    {| trace := [EnsureIndex 0 "k"; EnsureIndex 1 "k"; Distinct 0 "k";
                 Distinct 1 "k"];
       clock := clock example_world; clock_reads := 0 |} in
  init (SourcesList [store_A; store_B]) store_T FieldsNone None 10
       example_world
  = (inr self, w)
  ∧ distinct_keys remove_dups self w = (inr [VInt 1; VInt 2; VNone], w1)
  ∧ utils_grouper [VInt 1; VInt 2; VNone] (chunk_size self)
    = [[VInt 1; VInt 2; VNone; VNone; VNone; VNone; VNone; VNone; VNone;
        VNone]]
  ∧ get_items utils_grouper remove_dups flat_get self w
    = (inl AttributeError, w1).
Proof.
  intros self w w1.
  assert (Hinit : init (SourcesList [store_A; store_B]) store_T FieldsNone
                       None 10 example_world = (inr self, w))
    by reflexivity.
  assert (Hkeys : distinct_keys remove_dups self w
                  = (inr [VInt 1; VInt 2; VNone], w1))
    by reflexivity.
  assert (Hchunks : utils_grouper [VInt 1; VInt 2; VNone] (chunk_size self)
                    = [[VInt 1; VInt 2; VNone; VNone; VNone; VNone; VNone;
                        VNone; VNone; VNone]])
    by reflexivity.
  split; [exact Hinit|]. split; [exact Hkeys|]. split; [exact Hchunks|].
  exact (get_items_default_mapping utils_grouper remove_dups flat_get self
           store_A [store_B] store_T None 10 example_world w
           [VInt 1; VInt 2; VNone] w1 _ [] Hinit Hkeys Hchunks).
Defined.

(** A builder whose first source is empty. *)
Lemma get_items_no_docs_witness :
  let self :=
    {| sources := [store_T; store_A]; target := store_T;
       projection_mapping := [Some []; Some []];
       query_by_key := [VInt 1]; chunk_size := 2 |} in
  distinct_keys remove_dups self example_world
  = (inr [VInt 1], example_world)
  ∧ utils_grouper [VInt 1] (chunk_size self) = [[VInt 1; VNone]]
  ∧ query store_T (key store_T) (filter (λ k, k ≠ VNone) [VInt 1; VNone])
          None
    = []
  ∧ get_items utils_grouper remove_dups flat_get self example_world
    = (inl UnboundLocalError,
       {| trace := trace example_world
                   ++ [Query 0 (key store_T)
                             (filter (λ k, k ≠ VNone) [VInt 1; VNone]) None];
          clock := clock example_world;
          clock_reads := clock_reads example_world |}).
Proof.
  intros self.
  assert (Hkeys : distinct_keys remove_dups self example_world
                  = (inr [VInt 1], example_world))
    by reflexivity.
  assert (Hchunks : utils_grouper [VInt 1] (chunk_size self)
                    = [[VInt 1; VNone]])
    by reflexivity.
  assert (Hq : query store_T (key store_T)
                     (filter (λ k, k ≠ VNone) [VInt 1; VNone]) None = [])
    by reflexivity.
  split; [exact Hkeys|]. split; [exact Hchunks|]. split; [exact Hq|].
  exact (get_items_no_docs utils_grouper remove_dups flat_get self
           [VInt 1] example_world [VInt 1; VNone] [] store_T [store_A] []
           [Some []] example_world Hkeys Hchunks eq_refl eq_refl Hq).
Defined.

(** The example builder, limited to the key value [1]. *)
Lemma get_items_given_keys_witness :
  let self :=
    {| sources := [store_A; store_B]; target := store_T;
       projection_mapping := [Some []; Some []];
       query_by_key := [VInt 1]; chunk_size := 10 |} in
  0 < length (query_by_key self)
  ∧ ∃ evs,
      trace (get_items utils_grouper remove_dups flat_get self
                       example_world).2
      = trace example_world ++ evs
      ∧ Forall (λ ev, match ev with
                      | Query _ _ _ _ | Yield _ => True
                      | _ => False
                      end) evs.
Proof.
  split; [simpl; lia|].
  apply (get_items_given_keys utils_grouper remove_dups flat_get).
  simpl. lia.
Defined.

End GetItemsRuns.

(** ** A chunk size of zero *)

Module ZeroChunk.
Import Semaphore Mapper Driver Grouper.

(** With a chunk size of zero nothing is ever read: [zip_longest] over no
    iterator stops at once, so the grouper gives no group at all, whatever
    it is given; and the driver, once the builder is connected and the
    cursor and the pool are made, ends without a call of [__anext__], of
    the transform or of [update_targets], whatever the cursor holds and
    however it ends. *)
Theorem chunk_size_zero {A Item Result Exn : Type}
    (iterable : iterable (option A)) (fillvalue : option A)
    (connect : option Exn) (get_items : Exn + cursor Item Exn)
    (process : Item → Result + Exn)
    (update_targets : list (list Result) → list Result → option Exn)
    (ProcessPoolExecutor : Z → option Exn) (order : list nat → list nat)
    (num_workers : Z) :
  grouper iterable 0 fillvalue = Some []
  ∧ multi (mk_Builder connect get_items process update_targets 0)
          ProcessPoolExecutor order num_workers
    = match connect with
      | Some e => mk_report [] None (ConnectRaised e)
      | None =>
          match get_items with
          | inl e => mk_report [] None (GetItemsRaised e)
          | inr cursor =>
              match ProcessPoolExecutor num_workers with
              | Some e => mk_report [] None (ExecutorRaised e)
              | None => mk_report [] (Some (init 0 (c_items cursor))) Done
              end
          end
      end.
Proof.
  split; [by destruct iterable|]. unfold multi. simpl.
  destruct connect; [done|]. destruct get_items; [done|].
  by destruct (ProcessPoolExecutor num_workers).
Qed.

End ZeroChunk.
